(** * PyOBO: term model, typedef registry and Gilda lexical index

    A shallow embedding of the parts of [pyobo] that build the relation
    registry ([pyobo/struct/typedef.py]), the Gilda lexical index
    ([pyobo/gilda_utils.py]) and three source adapters
    ([pyobo/sources/mesh.py], [pyobo/sources/dictybase_gene.py],
    [pyobo/sources/hgncgenefamily.py]), followed by the properties
    established about them.

    Python values are modelled as follows.
    - [str] is [string]; an attribute that may hold [None] is an [option].
    - An exception is a constructor of [exn]; a call that may raise
      returns a [result].
    - A generator is the list of the values it yielded together with the
      exception that ended it, if any ([gen]).
    - A [dict] whose iteration order is observable is the list of its
      items in insertion order ([Py.dict]); a dict that is only queried
      by key is a [gmap]. *)

From Stdlib Require Import Ascii String.
From stdpp Require Import base option list strings gmap.

Local Open Scope string_scope.
Local Open Scope list_scope.

(** ** Python runtime primitives *)

Module Py.

(** The exception classes that occur in the modelled code. *)
Inductive exn : Type :=
| NoBuild      (* pyobo.getters.NoBuild *)
| KeyError
| ValueError
| TypeError.

#[global] Instance exn_eq_dec : EqDecision exn.
Proof. solve_decision. Defined.

Inductive result (A : Type) : Type :=
| Ok (a : A)
| Raise (e : exn).
Arguments Ok {A} a.
Arguments Raise {A} e.

Definition bind {A B} (r : result A) (k : A -> result B) : result B :=
  match r with
  | Ok a => k a
  | Raise e => Raise e
  end.

(** [d[k]] on an optional lookup: a missing key raises [KeyError]. *)
Definition subscript {A} (o : option A) : result A :=
  match o with
  | Some a => Ok a
  | None => Raise KeyError
  end.

(** Monadic map over a list, left to right, stopping at the first
    exception (a list comprehension whose body may raise). *)
Fixpoint mapM {A B} (f : A -> result B) (l : list A) : result (list B) :=
  match l with
  | [] => Ok []
  | x :: l' => bind (f x) (fun y => bind (mapM f l') (fun ys => Ok (y :: ys)))
  end.

(** Monadic left fold (a [for] loop whose body may raise). *)
Fixpoint foldM {A S} (f : S -> A -> result S) (s : S) (l : list A) : result S :=
  match l with
  | [] => Ok s
  | x :: l' => bind (f s x) (fun s' => foldM f s' l')
  end.

(** *** Generators *)

(** What a consumer observes of a generator run to its end: the values
    yielded, in order, and the exception that interrupted it. *)
Record gen (A : Type) : Type := Gen {
  yielded : list A;
  raised : option exn
}.
Arguments Gen {A} _ _.
Arguments yielded {A} _.
Arguments raised {A} _.

(** Sequencing of generator bodies: the second part runs only when the
    first one finished without an exception. *)
Definition gen_seq {A} (g : gen A) (k : gen A) : gen A :=
  match raised g with
  | Some e => g
  | None => Gen (yielded g ++ yielded k) (raised k)
  end.

(** [for x in l: <body x>] where the body is itself a generator. *)
Fixpoint gen_for {A X} (l : list X) (body : X -> gen A) : gen A :=
  match l with
  | [] => Gen [] None
  | x :: l' => gen_seq (body x) (gen_for l' body)
  end.

(** A call that may raise before the rest of the body runs. *)
Definition gen_bind {A X} (r : result X) (k : X -> gen A) : gen A :=
  match r with
  | Ok x => k x
  | Raise e => Gen [] (Some e)
  end.

(** [list(g)]: the yielded values, or the generator's exception. *)
Definition to_list {A} (g : gen A) : result (list A) :=
  match raised g with
  | Some e => Raise e
  | None => Ok (yielded g)
  end.

(** *** Strings *)

(** [s.startswith(p)] *)
Fixpoint startswith (s p : string) {struct p} : bool :=
  match p with
  | EmptyString => true
  | String c p' =>
      match s with
      | String d s' => if decide (c = d) then startswith s' p' else false
      | EmptyString => false
      end
  end.

(** [c.upper()] on an ASCII character. *)
Definition upper_ascii (c : ascii) : ascii :=
  let n := nat_of_ascii c in
  if (97 <=? n)%nat && (n <=? 122)%nat then ascii_of_nat (n - 32) else c.

(** [s.upper()]; namespace prefixes are ASCII. *)
Fixpoint upper (s : string) : string :=
  match s with
  | EmptyString => EmptyString
  | String c s' => String (upper_ascii c) (upper s')
  end.

(** [c.lower()] on an ASCII character, [s.lower()]. *)
Definition lower_ascii (c : ascii) : ascii :=
  let n := nat_of_ascii c in
  if (65 <=? n)%nat && (n <=? 90)%nat then ascii_of_nat (n + 32) else c.

Fixpoint lower (s : string) : string :=
  match s with
  | EmptyString => EmptyString
  | String c s' => String (lower_ascii c) (lower s')
  end.

(** [s.split(sep, 1)] when [sep] occurs in [s]: the parts before and
    after its first occurrence. *)
Fixpoint split_once (sep : ascii) (s : string) : option (string * string) :=
  match s with
  | EmptyString => None
  | String c s' =>
      if decide (c = sep) then Some (EmptyString, s')
      else match split_once sep s' with
           | Some (a, b) => Some (String c a, b)
           | None => None
           end
  end.

(** Truth value of an [Optional[str]]: [None] and [""] are falsy. *)
Definition truthy (o : option string) : bool :=
  match o with
  | Some (String _ _) => true
  | _ => false
  end.

(** The characters removed by [str.strip()] (ASCII whitespace). *)
Definition is_space (c : ascii) : bool :=
  let n := nat_of_ascii c in
  ((9 <=? n)%nat && (n <=? 13)%nat) || ((28 <=? n)%nat && (n <=? 32)%nat).

Fixpoint lstrip (s : string) : string :=
  match s with
  | String c s' => if is_space c then lstrip s' else s
  | EmptyString => EmptyString
  end.

(** [rstrip] keeps a character when it is not a space or something
    is kept after it. *)
Fixpoint rstrip (s : string) : string :=
  match s with
  | EmptyString => EmptyString
  | String c s' =>
      match rstrip s' with
      | EmptyString => if is_space c then EmptyString else String c EmptyString
      | r => String c r
      end
  end.

(** [s.strip()] *)
Definition strip (s : string) : string := rstrip (lstrip s).

(** [s.split(sep)] for a one-character separator: never returns an
    empty list. *)
Fixpoint split (sep : ascii) (s : string) : list string :=
  match s with
  | EmptyString => [EmptyString]
  | String c s' =>
      if decide (c = sep) then EmptyString :: split sep s'
      else match split sep s' with
           | w :: ws => String c w :: ws
           | [] => [String c EmptyString]
           end
  end.

(** [s.replace("\\n", "\n")]: every backslash followed by [n] becomes
    a line feed, scanning left to right. *)
Fixpoint replace_backslash_n (s : string) : string :=
  match s with
  | EmptyString => EmptyString
  | String c s' =>
      match s' with
      | String d s'' =>
          if bool_decide (c = "\"%char) && bool_decide (d = "n"%char)
          then String "010"%char (replace_backslash_n s'')
          else String c (replace_backslash_n s')
      | EmptyString => String c EmptyString
      end
  end.

(** *** Insertion-ordered dictionaries *)

(** A [dict] as the list of its items in insertion order.  The keys of
    a dictionary are pairwise distinct ([dict_wf]); every operation
    below preserves that. *)
Definition dict (K V : Type) : Type := list (K * V).

Definition dict_wf {K V} (d : dict K V) : Prop := NoDup (d.*1).

(** [d.get(k)] *)
Fixpoint dict_get {K V} `{EqDecision K} (d : dict K V) (k : K) : option V :=
  match d with
  | [] => None
  | (k', v) :: d' => if decide (k' = k) then Some v else dict_get d' k
  end.

(** [d[k] = v]: an existing key keeps its position and gets the new
    value, a new key is appended. *)
Fixpoint dict_set {K V} `{EqDecision K} (d : dict K V) (k : K) (v : V) : dict K V :=
  match d with
  | [] => [(k, v)]
  | (k', v') :: d' =>
      if decide (k' = k) then (k, v) :: d' else (k', v') :: dict_set d' k v
  end.

(** [d.keys()], [d.values()] *)
Definition dict_keys {K V} (d : dict K V) : list K := d.*1.
Definition dict_values {K V} (d : dict K V) : list V := d.*2.

End Py.

Import Py.

(** ** [pyobo/struct/reference.py] *)

Module reference.

(** Modelled from the spec: the [Reference] class, whose file is not
    among the sources.  It is the triple (prefix, identifier, optional
    name); its identity is the (prefix, identifier) pair.  The dataclass
    does not check its fields, and [TypeDef.from_curie] stores what
    [normalize_curie] returned, so [prefix] and [identifier] may hold
    [None]. *)
Record Reference : Type := Build {
  prefix : option string;
  identifier : option string;
  name : option string
}.

#[global] Instance Reference_eq_dec : EqDecision Reference.
Proof. solve_decision. Defined.

(** [Reference(prefix=p, identifier=i, name=n)] on three strings. *)
Definition Ref (p i n : string) : Reference := Build (Some p) (Some i) (Some n).

(** [r.pair] *)
Definition pair (r : Reference) : option string * option string :=
  (prefix r, identifier r).

(** Modelled from the spec: [Reference.default(identifier, name)], a
    reference in PyOBO's own namespace; the prefix of that namespace
    is a constant of the missing file, taken as [default_prefix]. *)
Definition default (default_prefix : string) (i n : string) : Reference :=
  Ref default_prefix i n.

End reference.

(** ** [pyobo/struct/typedef.py] *)

Module typedef.

Import reference.

Record TypeDef : Type := Build {
  reference : Reference;
  comment : option string;
  namespace : option string;
  definition : option string;
  is_transitive : option bool;
  is_symmetric : option bool;
  domain : option Reference;
  range : option Reference;
  parents : list Reference;
  xrefs : list Reference;
  inverse : option Reference
}.

#[global] Instance TypeDef_eq_dec : EqDecision TypeDef.
Proof. solve_decision. Defined.

(** [TypeDef(reference=r)] with every other field at its default. *)
Definition of_reference (r : Reference) : TypeDef :=
  Build r None None None None None None None [] [] None.

(** [t.pair], [t.prefix], [t.identifier] (inherited from [Referenced]). *)
Definition pair (t : TypeDef) : option string * option string :=
  reference.pair (reference t).
Definition prefix (t : TypeDef) : option string := reference.prefix (reference t).
Definition identifier (t : TypeDef) : option string :=
  reference.identifier (reference t).

(** [TypeDef.from_triple] *)
Definition from_triple (prefix identifier name : option string) : TypeDef :=
  of_reference (reference.Build prefix identifier name).

Section with_normalize_curie.

(** [pyobo.identifier_utils.normalize_curie] is not among the sources:
    it is a parameter.  It returns a pair whose components are [None]
    when the string is no curie (the check in [get_reference_tuple]
    below relies on this); an exception it raises passes through. *)
Variable normalize_curie : string -> result (option string * option string).

(** [TypeDef.from_curie] *)
Definition from_curie (curie : string) (name : option string) : result TypeDef :=
  bind (normalize_curie curie) (fun '(prefix, identifier) =>
  Ok (from_triple prefix identifier name)).

(** [RelationHint = Union[Reference, TypeDef, Tuple[str, str], str]];
    [HintOther] stands for a value of any other type. *)
Inductive RelationHint : Type :=
| HintReference (r : Reference)
| HintTypeDef (t : TypeDef)
| HintTuple (p : option string * option string)
| HintStr (s : string)
| HintOther.

Definition get_reference_tuple (relation : RelationHint)
  : result (option string * option string) :=
  match relation with
  | HintReference r => Ok (reference.prefix r, reference.identifier r)
  | HintTypeDef t => Ok (prefix t, identifier t)
  | HintTuple p => Ok p
  | HintStr s =>
      bind (normalize_curie s) (fun '(prefix, identifier) =>
      match prefix with
      | None => Raise ValueError
      | Some _ => Ok (prefix, identifier)
      end)
  | HintOther => Raise TypeError
  end.

End with_normalize_curie.

Definition RO_PREFIX : string := "RO".
Definition BFO_PREFIX : string := "BFO".
Definition IAO_PREFIX : string := "IAO".
Definition SIO_PREFIX : string := "SIO".

Definition from_species : TypeDef :=
  of_reference (Ref RO_PREFIX "0002162" "in taxon").

Definition species_specific (default_prefix : string) : TypeDef :=
  Build (reference.default default_prefix "speciesSpecific" "Species Specific")
    None None
    (Some ("X speciesSpecific Y means that Y is a general phenomena, "
       +:+ "like a pathway, and X is the version that appears in a species. X should state which"
       +:+ "species with RO:0002162 (in taxon)"))
    None None None None [] [] None.

Definition part_of : TypeDef :=
  Build (Ref BFO_PREFIX "0000050" "part of")
    (Some "Inverse of has_part") None None None None None None [] []
    (Some (Ref BFO_PREFIX "0000051" "has part")).

Definition has_part : TypeDef :=
  Build (Ref BFO_PREFIX "0000051" "has part")
    (Some "Inverse of part_of") None None None None None None [] []
    (Some (Ref BFO_PREFIX "0000050" "part of")).

Definition is_a : TypeDef :=
  of_reference (Ref "rdfs" "subClassOf" "subclass of").

Definition has_member : TypeDef :=
  of_reference (Ref RO_PREFIX "0002351" "has member").

Definition member_of : TypeDef :=
  Build (Ref RO_PREFIX "0002350" "member of")
    None None None None None None None [] [] (Some (reference has_member)).

Definition superclass_of : TypeDef :=
  Build (Ref "sssom" "superClassOf" "super class of")
    (Some "Inverse of subClassOf") None None None None None None [] []
    (Some (reference is_a)).

Definition develops_from : TypeDef :=
  from_triple (Some RO_PREFIX) (Some "0002202") (Some "develops from").

Definition orthologous : TypeDef :=
  Build (Ref RO_PREFIX "HOM0000017" "in orthology relationship with")
    None None None None (Some true) None None [] [] None.

Definition has_role : TypeDef :=
  Build (Ref RO_PREFIX "0000087" "has role")
    None None
    (Some ("a relation between an independent continuant (the bearer) and a role,"
       +:+ " in which the role specifically depends on the bearer for its existence"))
    None None
    (Some (Ref BFO_PREFIX "0000004" "independent continuant"))
    (Some (Ref BFO_PREFIX "0000023" "role"))
    [Ref RO_PREFIX "0000053" "bearer of"] []
    (Some (Ref RO_PREFIX "0000081" "role of")).

Definition role_of : TypeDef :=
  Build (Ref RO_PREFIX "0000081" "role of")
    None None
    (Some ("a relation between a role and an independent continuant (the bearer),"
       +:+ " in which the role specifically depends on the bearer for its existence"))
    None None None None
    [Ref RO_PREFIX "0000052" "inheres in"] []
    (Some (reference has_role)).

Definition has_mature (default_prefix : string) : TypeDef :=
  of_reference (reference.default default_prefix "has_mature" "has mature miRNA").

Definition transcribes_to : TypeDef :=
  of_reference (Ref RO_PREFIX "0002511" "transcribed to").

Definition translates_to : TypeDef :=
  of_reference (Ref RO_PREFIX "0002513" "ribosomally translates to").

Definition gene_product_of : TypeDef :=
  from_triple (Some RO_PREFIX) (Some "0002204") (Some "gene product of").

Definition has_gene_product : TypeDef :=
  Build (Ref RO_PREFIX "0002205" "has gene product")
    None None None None None None None [] [] (Some (reference gene_product_of)).

Definition gene_product_is_a (default_prefix : string) : TypeDef :=
  of_reference
    (reference.default default_prefix "gene_product_is_a" "gene product is a").

Definition example_of_usage : Reference := Ref IAO_PREFIX "0000112" "example of usage".
Definition alternative_term : Reference := Ref IAO_PREFIX "0000118" "alternative term".
Definition editor_note : Reference := Ref IAO_PREFIX "0000116" "editor note".

Definition is_immediately_transformed_from : TypeDef :=
  from_triple (Some SIO_PREFIX) (Some "000658")
    (Some "is immediately transformed from").

Definition is_conjugate_base_of : TypeDef :=
  of_reference (Ref "chebi" "is_conjugate_base_of" "is conjugate base of").
Definition is_conjugate_acid_of : TypeDef :=
  of_reference (Ref "chebi" "is_conjugate_acid_of" "is conjugate acid of").
Definition is_enantiomer_of : TypeDef :=
  of_reference (Ref "chebi" "is_enantiomer_of" "is enantiomer of").
Definition is_tautomer_of : TypeDef :=
  of_reference (Ref "chebi" "is_tautomer_of" "is tautomer of").
Definition has_parent_hydride : TypeDef :=
  of_reference (Ref "chebi" "has_parent_hydride" "has parent hydride").
Definition is_substituent_group_from : TypeDef :=
  of_reference (Ref "chebi" "is_substituent_group_from" "is substituent group from").
Definition has_functional_parent : TypeDef :=
  of_reference (Ref "chebi" "has_functional_parent" "has functional parent").

(** The module-level names bound to a [TypeDef], in the order of their
    assignment: what [locals().items()] enumerates, filtered by
    [isinstance(v, TypeDef)]. *)
Definition typedef_locals (default_prefix : string) : list TypeDef :=
  [ from_species; species_specific default_prefix; part_of; has_part; is_a;
    has_member; member_of; superclass_of; develops_from; orthologous;
    has_role; role_of; has_mature default_prefix; transcribes_to;
    translates_to; gene_product_of; has_gene_product;
    gene_product_is_a default_prefix; is_immediately_transformed_from;
    is_conjugate_base_of; is_conjugate_acid_of; is_enantiomer_of;
    is_tautomer_of; has_parent_hydride; is_substituent_group_from;
    has_functional_parent ].

(** [{v.pair: v for k, v in locals().items() if isinstance(v, TypeDef)}] *)
Definition builtin_typedefs (default_prefix : string)
  : gmap (option string * option string) TypeDef :=
  foldl (fun d v => <[pair v := v]> d) ∅ (typedef_locals default_prefix).

(** One round of the loop over [load_ro().items()]. *)
Definition load_ro_step (d : gmap (option string * option string) TypeDef)
    (item : (string * string) * string)
  : gmap (option string * option string) TypeDef :=
  let '(p, name) := item in
  let key := (Some p.1, Some p.2) in
  match d !! key with
  | None => <[key := from_triple (Some p.1) (Some p.2) (Some name)]> d
  | Some _ => d
  end.

(** [default_typedefs] once the module is imported.  The items of
    [pyobo.resources.ro.load_ro()] are a parameter. *)
Definition default_typedefs (default_prefix : string)
    (load_ro : list ((string * string) * string))
  : gmap (option string * option string) TypeDef :=
  foldl load_ro_step (builtin_typedefs default_prefix) load_ro.

End typedef.

(** ** [gilda]: the index entries and the helpers of the index build *)

Module gilda.

(** The attributes of a [gilda.term.Term] that [get_gilda_terms] sets. *)
Record Term : Type := Build {
  norm_text : string;
  text : string;
  db : string;
  id : string;
  entry_name : option string;
  status : string;
  source : string
}.

#[global] Instance Term_eq_dec : EqDecision Term.
Proof. solve_decision. Defined.

(** Modelled from the spec: the checks made by the constructor of
    [gilda.term.Term], a class of the Gilda library, which is not among
    the sources.  The text must not be empty ([if not text]) and the
    normalized text must not be blank ([if not norm_text.strip()]). *)
Definition accepted (norm_text text : string) : bool :=
  negb (bool_decide (text = "")) && negb (bool_decide (strip norm_text = "")).

(** Modelled from the spec: the call [gilda.term.Term(norm_text=...,
    text=..., ...)].  It raises [ValueError] when the texts are
    refused and otherwise returns the object with the attributes set. *)
Definition make (norm_text text db id : string) (entry_name : option string)
    (status source : string) : result Term :=
  if accepted norm_text text
  then Ok (Build norm_text text db id entry_name status source)
  else Raise ValueError.

(** The key under which two index entries count as duplicates. *)
Definition dup_key (t : Term) : string * string * string * string :=
  (norm_text t, db t, id t, status t).

(** Modelled from the spec: [gilda.generate_terms.filter_out_duplicates],
    a function of the Gilda library.  Entries with the same normalized
    text, the same (prefix, identifier) and the same status are
    duplicates; the first one in construction order is kept. *)
Fixpoint filter_out_duplicates_from (seen : list (string * string * string * string))
    (terms : list Term) : list Term :=
  match terms with
  | [] => []
  | t :: terms' =>
      if bool_decide (dup_key t ∈ seen) then filter_out_duplicates_from seen terms'
      else t :: filter_out_duplicates_from (dup_key t :: seen) terms'
  end.

Definition filter_out_duplicates (terms : list Term) : list Term :=
  filter_out_duplicates_from [] terms.

(** Modelled from the spec: [pyobo.utils.io.multidict], whose file is
    not among the sources.  It groups (key, value) pairs into a mapping
    from each key to the sequence of its values, in order of arrival. *)
Definition multidict {V} (pairs : list (string * V)) : gmap string (list V) :=
  foldl (fun d kv => <[kv.1 := default [] (d !! kv.1) ++ [kv.2]]> d) ∅ pairs.

(** [gilda.grounder.Grounder(terms)] built from a mapping: the grounder
    holds the lexical index it was given. *)
Record Grounder : Type := MkGrounder {
  entries : gmap string (list Term)
}.

(** The index entries stored under some normalized text. *)
Definition in_index (g : Grounder) (t : Term) : Prop :=
  ∃ k ts, entries g !! k = Some ts ∧ t ∈ ts.

End gilda.

(** ** [pyobo/gilda_utils.py] *)

Module gilda_utils.

(** The collaborators of the module: the three getters of [pyobo]
    (each may raise, in particular [NoBuild]), Gilda's text
    normalization and the two registry queries of [bioregistry]. *)
Record env : Type := Env {
  get_id_name_mapping : string -> result (dict string string);
  get_id_synonyms_mapping : string -> result (dict string (list string));
  get_ids : string -> result (list string);
  normalize : string -> string;
  get_banana : string -> option string;
  namespace_in_lui : string -> bool
}.

Section with_env.

Variable E : env.

Definition normalize_identifier (prefix identifier : string) : string :=
  let banana := get_banana E prefix in
  if truthy banana then
    let banana := default "" banana in
    if negb (startswith identifier banana)
    then banana +:+ ":" +:+ identifier
    else identifier
  else if namespace_in_lui E prefix then
    let banana := upper prefix +:+ ":" in
    if negb (startswith identifier banana)
    then banana +:+ identifier
    else identifier
  else identifier.

(** [yield x] *)
Definition yield {A} (x : A) : gen A := Gen [x] None.

(** The three calls of the constructor of [gilda.term.Term]; each may
    raise. *)
Definition name_term (prefix : string) (item : string * string)
  : result gilda.Term :=
  let '(identifier, name) := item in
  gilda.make (normalize E name) name prefix identifier (Some name) "name" prefix.

Definition synonym_term (prefix identifier name synonym : string)
  : result gilda.Term :=
  gilda.make (normalize E synonym) synonym prefix identifier (Some name)
    "synonym" prefix.

Definition identifier_term (prefix identifier : string) : result gilda.Term :=
  gilda.make (normalize E identifier) identifier prefix identifier None
    "identifier" prefix.

(** First loop: one entry per item of the identifier-to-name mapping. *)
Definition name_pass (prefix : string) (id_to_name : dict string string)
  : gen gilda.Term :=
  gen_for id_to_name (fun item => gen_bind (name_term prefix item) yield).

(** Second loop: the name of the identifier is looked up with
    [id_to_name[identifier]], then one entry per synonym. *)
Definition synonym_pass (prefix : string) (id_to_name : dict string string)
    (id_to_synonyms : dict string (list string)) : gen gilda.Term :=
  gen_for id_to_synonyms (fun '(identifier, synonyms) =>
    gen_bind (subscript (dict_get id_to_name identifier)) (fun name =>
    gen_for synonyms (fun synonym =>
      gen_bind (synonym_term prefix identifier name synonym) yield))).

(** Third loop, guarded by [identifiers_are_names]. *)
Definition identifier_pass (prefix : string) (identifiers_are_names : bool)
  : gen gilda.Term :=
  if identifiers_are_names then
    gen_bind (get_ids E prefix) (fun ids =>
    gen_for ids (fun identifier =>
      gen_bind (identifier_term prefix identifier) yield))
  else Gen [] None.

Definition get_gilda_terms (prefix : string) (identifiers_are_names : bool)
  : gen gilda.Term :=
  gen_bind (get_id_name_mapping E prefix) (fun id_to_name =>
  gen_seq (name_pass prefix id_to_name)
    (gen_bind (get_id_synonyms_mapping E prefix) (fun id_to_synonyms =>
     gen_seq (synonym_pass prefix id_to_name id_to_synonyms)
       (identifier_pass prefix identifiers_are_names)))).

(** [p in unnamed], after [unnamed = set() if unnamed is None else set(unnamed)]. *)
Definition in_unnamed (unnamed : option (list string)) (p : string) : bool :=
  bool_decide (p ∈ default [] unnamed).

(** The loop of [get_grounder]: [NoBuild] skips the namespace, any other
    exception leaves the function. *)
Fixpoint collect_terms (unnamed : option (list string)) (terms : list gilda.Term)
    (prefixes : list string) : result (list gilda.Term) :=
  match prefixes with
  | [] => Ok terms
  | p :: prefixes' =>
      match to_list (get_gilda_terms p (in_unnamed unnamed p)) with
      | Raise NoBuild => collect_terms unnamed terms prefixes'
      | Raise e => Raise e
      | Ok p_terms => collect_terms unnamed (terms ++ p_terms) prefixes'
      end
  end.

(** The [prefix] argument: one namespace or several. *)
Inductive prefix_arg : Type :=
| OnePrefix (p : string)
| ManyPrefixes (ps : list string).

Definition prefix_list (prefix : prefix_arg) : list string :=
  match prefix with
  | OnePrefix p => [p]
  | ManyPrefixes ps => ps
  end.

Definition get_grounder (prefix : prefix_arg) (unnamed : option (list string))
  : result gilda.Grounder :=
  bind (collect_terms unnamed [] (prefix_list prefix)) (fun terms =>
  let terms := gilda.filter_out_duplicates terms in
  let terms := gilda.multidict (map (fun term => (gilda.norm_text term, term)) terms) in
  Ok (gilda.MkGrounder terms)).

End with_env.

End gilda_utils.

(** ** [pyobo/struct/struct.py] *)

Module struct.

Import reference.

(** Modelled from the spec: [SynonymTypeDef], [Synonym] and [Term] with
    the builder operations the adapters call; [struct.py] is not among
    the sources. *)
Record SynonymTypeDef : Type := MkSynonymTypeDef {
  syn_type_id : string;
  syn_type_name : string
}.

Inductive SynonymSpecificity : Type := EXACT | NARROW | BROAD | RELATED.

Record Synonym : Type := MkSynonym {
  syn_name : string;
  syn_type : option SynonymTypeDef;
  specificity : SynonymSpecificity;
  syn_provenance : list Reference
}.

(** [Synonym(name)] *)
Definition synonym_of_name (n : string) : Synonym := MkSynonym n None EXACT [].

Record Term : Type := Build {
  reference : Reference;
  definition : option string;
  synonyms : list Synonym;
  parents : list Reference;
  relationships : dict typedef.TypeDef (list Reference);
  xrefs : list Reference;
  provenance : list Reference;
  properties : dict string string
}.

(** [Term(reference=r, definition=d, synonyms=s)] *)
Definition make (r : Reference) (d : option string) (s : list Synonym) : Term :=
  Build r d s [] [] [] [] [].

(** [Term.from_triple(prefix, identifier, name)] *)
Definition from_triple (prefix identifier name : string) : Term :=
  make (Ref prefix identifier name) None [].

Definition pair (t : Term) : option string * option string :=
  reference.pair (reference t).
Definition identifier (t : Term) : option string :=
  reference.identifier (reference t).

(** [term.parents = ps] *)
Definition set_parents (t : Term) (ps : list Reference) : Term :=
  Build (reference t) (definition t) (synonyms t) ps (relationships t)
    (xrefs t) (provenance t) (properties t).

(** The argument of [append_synonym]: a string or a [Synonym]. *)
Inductive synonym_arg : Type :=
| SynStr (s : string)
| SynObj (s : Synonym).

Definition append_synonym (t : Term) (a : synonym_arg) : Term :=
  let s := match a with SynStr n => synonym_of_name n | SynObj s => s end in
  Build (reference t) (definition t) (synonyms t ++ [s]) (parents t)
    (relationships t) (xrefs t) (provenance t) (properties t).

(** [append_relationship(typedef, reference)] called with a [TypeDef],
    the only shape the modelled adapters pass: the target is appended
    to the sequence of that typedef. *)
Definition append_relationship (t : Term) (td : typedef.TypeDef) (r : Reference)
  : Term :=
  Build (reference t) (definition t) (synonyms t) (parents t)
    (dict_set (relationships t) td
       (option.default [] (dict_get (relationships t) td) ++ [r])%list)
    (xrefs t) (provenance t) (properties t).

(** [set_species(identifier, name)]: [append_relationship] with the
    fixed [from_species] typedef.  How the taxon reference is built is
    left to [species_reference]. *)
Definition set_species (species_reference : string -> string -> Reference)
    (t : Term) (identifier name : string) : Term :=
  append_relationship t typedef.from_species (species_reference identifier name).

End struct.

(** ** [pyobo/sources/mesh.py] *)

Module mesh.

Import reference.

Definition PREFIX : string := "mesh".

(** The cached JSON records, with the keys that [get_terms] reads. *)
Record term_record : Type := MkTermRecord {
  term_name : string
}.

Record concept_record : Type := MkConcept {
  concept_name : string;
  ScopeNote : option string;
  terms : list term_record
}.

Record entry : Type := MkEntry {
  identifier : string;
  name : string;
  concepts : list concept_record;
  parents : list string
}.

Fixpoint get_scope_note (cs : list concept_record) : option string :=
  match cs with
  | [] => None
  | concept :: cs' =>
      match ScopeNote concept with
      | Some scope_note => Some (strip (replace_backslash_n scope_note))
      | None => get_scope_note cs'
      end
  end.

(** The set filled by the two nested loops over concepts and terms. *)
Definition synonym_set (e : entry) : gset string :=
  foldl (fun s concept =>
           foldl (fun s term => s ∪ {[term_name term]})
                 (s ∪ {[concept_name concept]}) (terms concept))
        ∅ (concepts e).

(** The [Term] built for one record; the order in which the set is
    enumerated is that of [elements]. *)
Definition entry_term (e : entry) : struct.Term :=
  let definition := strip (option.default "" (get_scope_note (concepts e))) in
  let synonyms :=
    map struct.synonym_of_name
        (filter (fun synonym => synonym ≠ name e) (elements (synonym_set e))) in
  struct.make (Ref PREFIX (identifier e) (name e)) (Some definition) synonyms.

(** Body of the second loop: the parents of one descriptor. *)
Definition set_entry_parents (d : dict string struct.Term) (e : entry)
  : result (dict string struct.Term) :=
  bind (mapM (fun parent_descriptor_id =>
                bind (subscript (dict_get d parent_descriptor_id)) (fun t =>
                Ok (struct.reference t)))
             (parents e)) (fun ps =>
  bind (subscript (dict_get d (identifier e))) (fun t =>
  Ok (dict_set d (identifier e) (struct.set_parents t ps)))).

(** [get_terms]; the two record lists are what [ensure_mesh_descriptors]
    and [ensure_mesh_supplemental_records] returned. *)
Definition get_terms (descriptors supplemental_records : list entry)
  : result (list struct.Term) :=
  let mesh_id_to_term :=
    foldl (fun d e => dict_set d (identifier e) (entry_term e)) []
          (descriptors ++ supplemental_records) in
  bind (foldM set_entry_parents mesh_id_to_term descriptors) (fun d =>
  Ok (dict_values d)).

End mesh.

(** ** [pyobo/sources/dictybase_gene.py] *)

Module dictybase_gene.

Import reference.

Definition PREFIX : string := "dictybase.gene".

(** A cell of a data frame: a string, or the missing value NaN. *)
Inductive cell : Type :=
| NaN
| Str (s : string).

(** Truth value: NaN is a non-zero float, a string is true unless empty. *)
Definition cell_truthy (c : cell) : bool :=
  match c with
  | NaN => true
  | Str EmptyString => false
  | Str _ => true
  end.

(** [pd.isna], [pd.notna] *)
Definition isna (c : cell) : bool :=
  match c with NaN => true | Str _ => false end.
Definition notna (c : cell) : bool := negb (isna c).

(** [c != s] and [c in {...}] for string literals. *)
Definition cell_ne (c : cell) (s : string) : bool :=
  match c with NaN => true | Str s' => negb (bool_decide (s' = s)) end.
Definition cell_in (c : cell) (l : list string) : bool :=
  match c with NaN => false | Str s => bool_decide (s ∈ l) end.

(** The string held by a cell known not to be NaN. *)
Definition cell_str (c : cell) : string :=
  match c with NaN => "" | Str s => s end.

(** A row of the gene table: GENE ID, Gene Name, Synonyms, Gene products. *)
Record row : Type := MkRow {
  row_identifier : string;
  row_name : string;
  row_synonyms : cell;
  row_products : cell
}.

Section with_collaborators.

(** [Reference.auto] and the taxon reference of [set_species] belong to
    files that are not among the sources. *)
Variable auto : string -> string -> Reference.
Variable species_reference : string -> string -> Reference.

(** Body of the loop over the mapped UniProt identifiers. *)
Definition add_gene_product (term : struct.Term) (uniprot_id : cell) : struct.Term :=
  if negb (cell_truthy uniprot_id) || isna uniprot_id
     || negb (cell_in uniprot_id ["unknown"; "pseudogene"])
  then term
  else struct.append_relationship term typedef.has_gene_product
         (auto "uniprot" (cell_str uniprot_id)).

(** Body of the loop over the rows: the term that is yielded. *)
Definition row_term (uniprot_mappings : dict string (list cell)) (r : row)
  : struct.Term :=
  let identifier := row_identifier r in
  let products := row_products r in
  let synonyms := row_synonyms r in
  let term := struct.from_triple PREFIX identifier (row_name r) in
  let term :=
    if cell_truthy products && notna products && cell_ne products "unknown"
    then foldl (fun t synonym => struct.append_synonym t (struct.SynStr (strip synonym)))
               term (split "," (cell_str products))
    else term in
  let term :=
    if cell_truthy synonyms && notna synonyms
    then foldl (fun t synonym =>
                  struct.append_synonym t
                    (struct.SynObj (struct.synonym_of_name (strip synonym))))
               term (split "," (cell_str synonyms))
    else term in
  let term :=
    foldl add_gene_product term (option.default [] (dict_get uniprot_mappings identifier)) in
  struct.set_species species_reference term "44689" "Dictyostelium discoideum".

(** [get_terms]: one term per row of the gene table. *)
Definition get_terms (uniprot_mappings : dict string (list cell)) (terms : list row)
  : list struct.Term :=
  map (row_term uniprot_mappings) terms.

End with_collaborators.

End dictybase_gene.

(** ** [pyobo/identifier_utils.py] *)

Module identifier_utils.

(** Modelled from the spec: [normalize_curie], whose file is not among
    the sources.  A string that splits at its first colon into a prefix
    of the namespace registry ([known], asked about the lower-cased
    prefix) and an identifier yields the lower-cased prefix and the
    identifier; any other string is a failure, reported as the pair
    ([None], [None]) that [get_reference_tuple] checks for. *)
Definition normalize_curie (known : string -> bool) (curie : string)
  : result (option string * option string) :=
  match split_once ":" curie with
  | Some (head, identifier) =>
      if known (lower head) then Ok (Some (lower head), Some identifier)
      else Ok (None, None)
  | None => Ok (None, None)
  end.

End identifier_utils.

(** ** Concrete collaborators used to run the definitions *)

Module examples.

Import gilda_utils.

(** A registry in which [go] has the banana [GO], the namespace of
    [doid] is embedded in its identifiers, and nothing else is special. *)
Definition banana_env : env :=
  Env (fun _ => Ok []) (fun _ => Ok []) (fun _ => Ok []) (fun s => s)
      (fun p => if bool_decide (p = "go") then Some "GO" else None)
      (fun p => bool_decide (p = "doid")).

(** Three namespaces: [demo] has two named identifiers, one of them
    with two synonyms; [orphan] has synonyms for an identifier without
    a name; every other namespace cannot be built. *)
Definition demo_env : env :=
  Env (fun p => if bool_decide (p = "demo") then Ok [("1", "Foo Protein"); ("2", "Bar")]
                else if bool_decide (p = "orphan") then Ok []
                else Raise NoBuild)
      (fun p => if bool_decide (p = "demo") then Ok [("1", ["FOO"; "foo-p"])]
                else if bool_decide (p = "orphan") then Ok [("1", ["foo"])]
                else Raise NoBuild)
      (fun p => if bool_decide (p = "demo") then Ok ["1"; "2"]
                else if bool_decide (p = "orphan") then Ok ["1"]
                else Raise NoBuild)
      upper
      (fun _ => None)
      (fun _ => false).


(** A namespace registry that knows [ro], [bfo] and [chebi]. *)
Definition known_prefix (p : string) : bool :=
  bool_decide (p ∈ ["ro"; "bfo"; "chebi"]).

Definition normalize_curie : string -> result (option string * option string) :=
  identifier_utils.normalize_curie known_prefix.

(** A relation-ontology mapping with a pair that is built in and one
    that is not. *)
Definition ro_items : list ((string * string) * string) :=
  [(("RO", "0002162"), "in taxon (from RO)"); (("ro", "0002160"), "only in taxon")].

(** Two descriptors, the second below the first, and two supplemental
    records, one of which reuses the identifier of a descriptor. *)
Definition mesh_descriptors : list mesh.entry :=
  [ mesh.MkEntry "D1" "Anatomy"
      [mesh.MkConcept "Anatomy" (Some " scope\nnote ") [mesh.MkTermRecord "Body"]] [];
    mesh.MkEntry "D2" "Head" [mesh.MkConcept "Head" None []] ["D1"] ].

Definition mesh_supplemental_records : list mesh.entry :=
  [ mesh.MkEntry "C1" "Compound" [] [];
    mesh.MkEntry "D2" "Head again" [] [] ].

(** A gene with four mapped UniProt values. *)
Definition uniprot_mappings : dict string (list dictybase_gene.cell) :=
  [("DDB_G0267178", [dictybase_gene.Str "Q55FU8"; dictybase_gene.Str "unknown";
                     dictybase_gene.NaN; dictybase_gene.Str "pseudogene"])].

Definition gene_row : dictybase_gene.row :=
  dictybase_gene.MkRow "DDB_G0267178" "abcA1"
    (dictybase_gene.Str "abcA, DDB0201626") (dictybase_gene.Str "ABC transporter").

Definition auto (prefix identifier : string) : reference.Reference :=
  reference.Build (Some prefix) (Some identifier) None.

Definition species_reference (identifier name : string) : reference.Reference :=
  reference.Ref "ncbitaxon" identifier name.

End examples.

(** The banana convention as the specification words it: a fixed
    prefix is prepended exactly when the identifier does not already
    start with it. *)
Definition prepend_unless_present (fixed identifier : string) : string :=
  if startswith identifier fixed then identifier else fixed +:+ identifier.


(** The entries of the name pass and of the identifier pass when no
    call of the constructor raises. *)
Definition name_entries (E : gilda_utils.env) (prefix : string)
    (names : dict string string) : list gilda.Term :=
  map (fun '(i, n) => gilda.Build (gilda_utils.normalize E n) n prefix i (Some n)
                        "name" prefix)
      names.


(** The texts that the constructor of the entries accepts. *)
Definition texts_accepted (E : gilda_utils.env) (texts : list string) : Prop :=
  ∀ s, s ∈ texts -> gilda.accepted (gilda_utils.normalize E s) s = true.


(** What [get_grounder] obtains for one namespace:
    [list(get_gilda_terms(p, identifiers_are_names=p in unnamed))]. *)
Definition namespace_terms (E : gilda_utils.env) (unnamed : option (list string))
    (p : string) : result (list gilda.Term) :=
  to_list (gilda_utils.get_gilda_terms E p (gilda_utils.in_unnamed unnamed p)).

(** A namespace is unavailable when building its entries raises
    [NoBuild]. *)
Definition unavailable (E : gilda_utils.env) (unnamed : option (list string))
    (p : string) : bool :=
  match namespace_terms E unnamed p with
  | Raise NoBuild => true
  | _ => false
  end.

(** The entries of the namespaces that were built, in request order. *)
Definition built_terms (E : gilda_utils.env) (unnamed : option (list string))
    (ps : list string) : list gilda.Term :=
  flat_map (fun p => match namespace_terms E unnamed p with
                     | Ok ts => ts
                     | Raise _ => []
                     end) ps.

(** Every term of the MeSH dictionary is stored under its own
    identifier and has the MeSH prefix. *)
Definition keyed_by_identifier (d : dict string struct.Term) : Prop :=
  ∀ k t, (k, t) ∈ d -> struct.pair t = (Some mesh.PREFIX, Some k).

(** The [has_gene_product] edges of a term. *)
Definition gene_product_edges (t : struct.Term) : list reference.Reference :=
  default [] (dict_get (struct.relationships t) typedef.has_gene_product).

(** The mapped UniProt identifiers that pass the test of the dictyBase
    adapter: the two literal strings. *)
Definition passing_uniprot_ids (cs : list dictybase_gene.cell) : list string :=
  omap (fun c => match c with
                 | dictybase_gene.Str s =>
                     if bool_decide (s ∈ ["unknown"; "pseudogene"]) then Some s else None
                 | dictybase_gene.NaN => None
                 end) cs.

(** ** Further parts of the sources *)

(** *** [pyobo/gilda_utils.py]: prediction tuples *)

Module gilda_predictions.

Import gilda_utils.

(** [gilda.grounder.ScoredMatch], with the two attributes read here;
    the type of scores is left open. *)
Record ScoredMatch (S : Type) : Type := MkScoredMatch {
  term : gilda.Term;
  score : S
}.
Arguments MkScoredMatch {S} _ _.
Arguments term {S} _.
Arguments score {S} _.

(** The nine components of a yielded tuple, in order. *)
Record prediction (S : Type) : Type := MkPrediction {
  source_prefix : string;
  source_identifier : string;
  source_name : string;
  relation : string;
  target_prefix : string;
  target_identifier : string;
  target_name : option string;
  method : string;
  confidence : S
}.
Arguments MkPrediction {S} _ _ _ _ _ _ _ _ _.
Arguments source_prefix {S} _.
Arguments source_identifier {S} _.
Arguments source_name {S} _.
Arguments relation {S} _.
Arguments target_prefix {S} _.
Arguments target_identifier {S} _.
Arguments target_name {S} _.
Arguments method {S} _.
Arguments confidence {S} _.

Section with_grounder.

Context {S : Type}.

Variable E : env.

(** [Grounder.ground] belongs to the Gilda library, and
    [gilda.api.grounder] is the grounder used when none is given. *)
Variable ground : gilda.Grounder -> string -> list (ScoredMatch S).
Variable api_grounder : gilda.Grounder.

(** The tuple yielded for one match of the text [name] of [identifier]. *)
Definition match_tuple (prefix identifier name relation : string)
    (scored_match : ScoredMatch S) : prediction S :=
  let target_prefix := lower (gilda.db (term scored_match)) in
  MkPrediction prefix identifier name relation target_prefix
    (normalize_identifier E target_prefix (gilda.id (term scored_match)))
    (gilda.entry_name (term scored_match)) "lexical" (score scored_match).

Definition iter_gilda_prediction_tuples (prefix relation : string)
    (grounder : option gilda.Grounder) (identifiers_are_names : bool)
  : gen (prediction S) :=
  let grounder := match grounder with None => api_grounder | Some g => g end in
  gen_bind (get_id_name_mapping E prefix) (fun id_name_mapping =>
  gen_seq
    (gen_for id_name_mapping (fun '(identifier, name) =>
       gen_for (ground grounder name) (fun scored_match =>
         yield (match_tuple prefix identifier name relation scored_match))))
    (if identifiers_are_names then
       gen_bind (get_ids E prefix) (fun ids =>
       gen_for ids (fun identifier =>
         gen_for (ground grounder identifier) (fun scored_match =>
           yield (match_tuple prefix identifier identifier relation scored_match))))
     else Gen [] None)).

End with_grounder.

End gilda_predictions.

(** *** [pyobo/struct/typedef.py]: the OBO stanza of a typedef *)

Module typedef_obo.

Import typedef.

(** [str(x)] of an optional string inside an f-string. *)
Definition format_opt (o : option string) : string :=
  match o with
  | Some s => s
  | None => "None"
  end.

(** Modelled from the spec: [Reference.curie], the string
    [prefix:identifier]; the class is not among the sources. *)
Definition curie (r : reference.Reference) : string :=
  format_opt (reference.prefix r) +:+ ":" +:+ format_opt (reference.identifier r).

Section with_str.

(** [str(xref)] for a [Reference] is defined in the missing file. *)
Variable reference_str : reference.Reference -> string.

(** A line yielded when an optional text is set and not empty. *)
Definition tagged (tag : string) (o : option string) : list string :=
  if truthy o then [tag +:+ format_opt o] else [].

(** A line yielded when a flag is not [None]. *)
Definition flagged (tag : string) (o : option bool) : list string :=
  match o with
  | Some b => [tag +:+ (if b then "true" else "false")]
  | None => []
  end.

(** [TypeDef.iterate_obo_lines], as the list of the lines it yields. *)
Definition iterate_obo_lines (t : TypeDef) : list string :=
  [String "010"%char "[Typedef]"]
  ++ ["id: " +:+ curie (reference t)]
  ++ tagged "name: " (reference.name (reference t))
  ++ tagged "namespace: " (namespace t)
  ++ tagged "comment: " (comment t)
  ++ map (fun xref => "xref: " +:+ reference_str xref) (xrefs t)
  ++ flagged "is_transitive: " (is_transitive t)
  ++ flagged "is_symmetric: " (is_symmetric t).

End with_str.

End typedef_obo.

(** *** [pyobo/sources/mesh.py]: records and tree numbers *)

Module mesh_records.

(** [s.rsplit(sep, 1)] when [sep] occurs in [s]: the parts before and
    after its last occurrence. *)
Fixpoint rsplit_once (sep : ascii) (s : string) : option (string * string) :=
  match s with
  | EmptyString => None
  | String c s' =>
      match rsplit_once sep s' with
      | Some (a, b) => Some (String c a, b)
      | None => if decide (c = sep) then Some (EmptyString, s') else None
      end
  end.

(** The dictionary made by [get_descriptor_record], with the keys read
    below and by [get_terms]. *)
Record descriptor : Type := MkDescriptor {
  identifier : string;
  name : string;
  tree_numbers : list string;
  concepts : list mesh.concept_record
}.

(** The body of [get_tree_to_mesh_id]: every tree number of every
    record is assigned the identifier of the record. *)
Definition get_tree_to_mesh_id (mesh_descriptors : list descriptor)
  : gmap string string :=
  foldl (fun rv entry =>
           foldl (fun rv tree_number => <[tree_number := identifier entry]> rv)
                 rv (tree_numbers entry))
        ∅ mesh_descriptors.

(** The tree-number cache of [get_descriptor_records]. *)
Definition tree_number_to_descriptor_ui (rv : list descriptor) : gmap string string :=
  foldl (fun d descriptor =>
           foldl (fun d tree_number => <[tree_number := identifier descriptor]> d)
                 d (tree_numbers descriptor))
        ∅ rv.

(** The set of parents of one descriptor: a tree number without a dot
    is skipped, and so is one whose part before the last dot is no
    tree number of the cache. *)
Definition parents_descriptor_uis (cache : gmap string string) (d : descriptor)
  : gset string :=
  foldl (fun parents tree_number =>
           match rsplit_once "." tree_number with
           | None => parents
           | Some (parent_tn, self_tn) =>
               match cache !! parent_tn with
               | Some parent_descriptor_ui => parents ∪ {[parent_descriptor_ui]}
               | None => parents
               end
           end)
        ∅ (tree_numbers d).

(** [get_descriptor_records] from the list [rv] of the parsed records
    on: the parents are added to each record.  The result keeps the
    keys that [get_terms] reads. *)
Definition get_descriptor_records (rv : list descriptor) : list mesh.entry :=
  let cache := tree_number_to_descriptor_ui rv in
  map (fun d => mesh.MkEntry (identifier d) (name d) (concepts d)
                  (elements (parents_descriptor_uis cache d)))
      rv.

End mesh_records.

(** *** More concrete collaborators *)

Module more_examples.

Import gilda_utils.

(** As [examples.demo_env], with a namespace [half] whose names load
    while its synonyms cannot be built, and [go] given its banana. *)
Definition half_env : env :=
  Env (fun p => if bool_decide (p = "half") then Ok [("7", "Seven")]
                else get_id_name_mapping examples.demo_env p)
      (get_id_synonyms_mapping examples.demo_env)
      (get_ids examples.demo_env)
      upper
      (fun p => if bool_decide (p = "go") then Some "GO" else None)
      (fun _ => false).

(** A grounder that answers every text with one entry of the Gene
    Ontology, scored 1. *)
Definition go_match : gilda_predictions.ScoredMatch nat :=
  gilda_predictions.MkScoredMatch
    (gilda.Build "FOO PROTEIN" "foo protein" "GO" "0000001" (Some "foo protein")
       "name" "GO")
    1.

Definition ground_go (g : gilda.Grounder) (text : string)
  : list (gilda_predictions.ScoredMatch nat) :=
  [go_match].

(** The grounder built for [demo], and its entry for the name [Bar]. *)
Definition demo_grounder : gilda.Grounder :=
  match get_grounder examples.demo_env (OnePrefix "demo") None with
  | Ok g => g
  | Raise _ => gilda.MkGrounder ∅
  end.

Definition bar_term : gilda.Term :=
  gilda.Build "BAR" "Bar" "demo" "2" (Some "Bar") "name" "demo".

End more_examples.

(** *** Notions used in the statements about MeSH *)

(** A string that does not begin with white space. *)
Definition starts_clean (s : string) : Prop :=
  match s with
  | String c _ => is_space c = false
  | EmptyString => True
  end.


(** The last record of a list that carries a given identifier. *)
Definition last_record (k : string) (l : list mesh.entry) : option mesh.entry :=
  last (filter (fun e => mesh.identifier e = k) l).

(** The list built on the right of the assignment in the second loop
    of [mesh.get_terms]: the references of the terms of the parents. *)
Definition parent_references (d : dict string struct.Term) (e : mesh.entry)
  : result (list reference.Reference) :=
  mapM (fun parent_descriptor_id =>
          bind (subscript (dict_get d parent_descriptor_id)) (fun t =>
          Ok (struct.reference t)))
       (mesh.parents e).

(** The terms returned for the records of [examples], and the ones at
    the first two positions, which are the terms of [D1] and [D2]. *)
Module mesh_examples.

Definition terms : list struct.Term :=
  match mesh.get_terms examples.mesh_descriptors examples.mesh_supplemental_records with
  | Ok ts => ts
  | Raise _ => []
  end.

Definition term_D2 : struct.Term :=
  default (struct.make (reference.Ref "" "" "") None []) (terms !! 1).

Definition term_D1 : struct.Term :=
  default (struct.make (reference.Ref "" "" "") None []) (terms !! 0).

(** A descriptor whose parent is no record. *)
Definition dangling_descriptors : list mesh.entry :=
  [mesh.MkEntry "D9" "Lost" [] ["D404"]].

End mesh_examples.

(** The last of the parsed records that lists a given tree number. *)
Definition last_listing (tn : string) (rv : list mesh_records.descriptor)
  : option mesh_records.descriptor :=
  last (filter (fun d => tn ∈ mesh_records.tree_numbers d) rv).

Module records_examples.

(** Two parsed descriptors, the second below the first in the tree,
    and a supplemental record, which has no tree number. *)
Definition descriptors : list mesh_records.descriptor :=
  [ mesh_records.MkDescriptor "D1" "Anatomy" ["A01"] [];
    mesh_records.MkDescriptor "D2" "Head" ["A01.456"; "B02"] [] ].

Definition supplemental_records : list mesh_records.descriptor :=
  [ mesh_records.MkDescriptor "C1" "Compound" [] [] ].

End records_examples.

(** The [from_species] (in taxon) edges of a term. *)
Definition species_edges (t : struct.Term) : list reference.Reference :=
  default [] (dict_get (struct.relationships t) typedef.from_species).

(** The text of a cell that passes [c and pd.notna(c)], cut at the
    commas; nothing for an empty or missing cell. *)
Definition cell_parts (c : dictybase_gene.cell) : list string :=
  match c with
  | dictybase_gene.Str (String a s) => split "," (String a s)
  | _ => []
  end.

(** *** [pyobo/sources/hgncgenefamily.py]: the hierarchy pass *)

Module hgncgenefamily.

Import reference.

Definition PREFIX : string := "hgnc.genegroup".

(** [get_hierarchy], from the rows (parent_fam_id, child_fam_id) of the
    table on: the parents of each child, in the order of the rows. *)
Definition get_hierarchy (rows : list (string * string)) : dict string (list string) :=
  foldl (fun d row =>
           let '(parent_id, child_id) := row in
           dict_set d child_id (option.default [] (dict_get d child_id) ++ [parent_id]))
        [] rows.

(** [{term.reference.identifier: term for term in terms}].  The values
    of the dictionary are the very objects of the list [terms]: each
    is represented by its position in the list. *)
Fixpoint index_terms_from (i : nat) (d : gmap (option string) nat)
    (terms : list struct.Term) : gmap (option string) nat :=
  match terms with
  | [] => d
  | term :: terms' => index_terms_from (S i) (<[struct.identifier term := i]> d) terms'
  end.

Definition index_terms (terms : list struct.Term) : gmap (option string) nat :=
  index_terms_from 0 ∅ terms.

(** [parent.name] for the object at a position of the list. *)
Definition term_name (store : list struct.Term) (i : nat) : option string :=
  match store !! i with
  | Some t => reference.name (struct.reference t)
  | None => None
  end.

(** [child.parents.append(r)] on the object at position [child]. *)
Definition append_parent (store : list struct.Term) (child : nat) (r : Reference)
  : list struct.Term :=
  alter (fun t => struct.set_parents t (struct.parents t ++ [r])) child store.

(** Body of the inner loop over the parents of one child. *)
Definition add_parent (id_to_term : gmap (option string) nat) (child : nat)
    (store : list struct.Term) (parent_id : string) : result (list struct.Term) :=
  bind (subscript (id_to_term !! Some parent_id)) (fun parent =>
  Ok (append_parent store child
        (reference.Build (Some PREFIX) (Some parent_id) (term_name store parent)))).

(** Body of the outer loop over the items of the hierarchy. *)
Definition add_parents (id_to_term : gmap (option string) nat)
    (store : list struct.Term) (item : string * list string)
  : result (list struct.Term) :=
  let '(child_id, parent_ids) := item in
  bind (subscript (id_to_term !! Some child_id)) (fun child =>
  foldM (add_parent id_to_term child) store parent_ids).

(** [get_terms], from the list made of [_get_terms_helper] and the
    hierarchy on; the list that is returned holds the objects that the
    loop has changed. *)
Definition get_terms (terms : list struct.Term) (hierarchy : dict string (list string))
  : result (list struct.Term) :=
  let id_to_term := index_terms terms in
  foldM (add_parents id_to_term) terms hierarchy.

End hgncgenefamily.

(** The reference appended for a parent identifier: the prefix of the
    gene groups, the identifier, and the name of the term that
    [id_to_term] holds for it. *)
Definition group_reference (terms : list struct.Term) (parent_id : string)
  : reference.Reference :=
  reference.Build (Some hgncgenefamily.PREFIX) (Some parent_id)
    (match hgncgenefamily.index_terms terms !! Some parent_id with
     | Some parent => hgncgenefamily.term_name terms parent
     | None => None
     end).

(** The references appended to the term at position [i]: those of the
    parents of every child identifier whose dictionary entry is that
    term. *)
Definition appended_parents (terms : list struct.Term)
    (hierarchy : dict string (list string)) (i : nat) : list reference.Reference :=
  flat_map (fun item : string * list string =>
              if decide (hgncgenefamily.index_terms terms !! Some item.1 = Some i)
              then map (group_reference terms) item.2 else [])
           hierarchy.

Module hgnc_examples.

(** Three groups, the first listed twice, and the rows of a hierarchy
    (parent, child) in which the third group is below the two others
    and the first below the second. *)
Definition terms : list struct.Term :=
  [ struct.from_triple hgncgenefamily.PREFIX "1" "Old name";
    struct.from_triple hgncgenefamily.PREFIX "2" "Kinases";
    struct.from_triple hgncgenefamily.PREFIX "1" "Receptors";
    struct.from_triple hgncgenefamily.PREFIX "3" "Receptor kinases" ].

Definition hierarchy_rows : list (string * string) :=
  [("1", "3"); ("2", "1"); ("2", "3")].

Definition returned : list struct.Term :=
  match hgncgenefamily.get_terms terms (hgncgenefamily.get_hierarchy hierarchy_rows) with
  | Ok ts => ts
  | Raise _ => []
  end.

End hgnc_examples.

(** A list of objects that are those of [terms], each with some
    references appended to its parents. *)
Definition extends (terms store : list struct.Term)
    (E : nat -> list reference.Reference) : Prop :=
  ∀ i, store !! i
       = (fun t => struct.set_parents t (struct.parents t ++ E i)) <$> terms !! i.

(** An identifier that some term of the list carries. *)
Definition listed (terms : list struct.Term) (k : string) : Prop :=
  ∃ t, t ∈ terms ∧ struct.identifier t = Some k.

(** The last term of the list that carries an identifier. *)
Definition last_with (terms : list struct.Term) (k : string) : option struct.Term :=
  last (filter (fun t => struct.identifier t = Some k) terms).

(** The reference to a gene group, named after the last term that carries
    its identifier. *)
Definition named_reference (terms : list struct.Term) (k : string)
  : reference.Reference :=
  reference.Build (Some hgncgenefamily.PREFIX) (Some k)
    (last_with terms k ≫= fun t => reference.name (struct.reference t)).

(** * Properties *)

(** ** Strings *)

Lemma startswith_app (p s : string) : startswith (p +:+ s) p = true.
Proof.
  induction p as [|c p IH]; [done|].
  change (String c p +:+ s) with (String c (p +:+ s)).
  cbn [startswith]. by rewrite decide_True.
Qed.

Lemma startswith_app_assoc (p q s : string) : startswith (p +:+ q +:+ s) p = true.
Proof. apply startswith_app. Qed.

Lemma truthy_Some (o : option string) :
  truthy o = true -> ∃ c b, o = Some (String c b).
Proof. destruct o as [[|c b]|]; simpl; try done. eauto. Qed.

(** ** Identifier normalization ([normalize_identifier]) *)

Section normalize_identifier_facts.

Import gilda_utils.

Variable E : env.

(** The three branches of [normalize_identifier]. *)
Lemma normalize_identifier_banana (p x b : string) :
  get_banana E p = Some b -> b ≠ "" ->
  normalize_identifier E p x = if startswith x b then x else b +:+ ":" +:+ x.
Proof.
  intros Hb Hne. unfold normalize_identifier. rewrite Hb.
  destruct b as [|c b]; [done|]. simpl truthy. cbv iota.
  simpl option.default. by destruct (startswith x (String c b)).
Qed.

Lemma normalize_identifier_lui (p x : string) :
  truthy (get_banana E p) = false -> namespace_in_lui E p = true ->
  normalize_identifier E p x = prepend_unless_present (upper p +:+ ":") x.
Proof.
  intros Hb Hl. unfold normalize_identifier, prepend_unless_present.
  rewrite Hb, Hl. by destruct (startswith x (upper p +:+ ":")).
Qed.

Lemma normalize_identifier_plain (p x : string) :
  truthy (get_banana E p) = false -> namespace_in_lui E p = false ->
  normalize_identifier E p x = x.
Proof.
  intros Hb Hl. unfold normalize_identifier. by rewrite Hb, Hl.
Qed.

(** C4. [normalize_identifier] is idempotent: normalizing an already
    normalized identifier of the same namespace changes nothing. *)
Theorem normalize_identifier_idempotent (p x : string) :
  normalize_identifier E p (normalize_identifier E p x)
  = normalize_identifier E p x.
Proof.
  destruct (truthy (get_banana E p)) eqn:Hb.
  - destruct (truthy_Some _ Hb) as (c & b & Hsome).
    rewrite !(normalize_identifier_banana _ _ (String c b)) by done.
    destruct (startswith x (String c b)) eqn:Hx.
    + by rewrite Hx.
    + by rewrite startswith_app_assoc.
  - destruct (namespace_in_lui E p) eqn:Hl.
    + rewrite !normalize_identifier_lui by done.
      unfold prepend_unless_present.
      destruct (startswith x (upper p +:+ ":")) eqn:Hx.
      * by rewrite Hx.
      * by rewrite startswith_app.
    + by rewrite !normalize_identifier_plain.
Qed.

(** C5, as amended.  For a namespace with a non-empty banana [b] the
    identifier is returned unchanged when it starts with [b], and
    otherwise [b], a colon and the identifier are returned.  For a
    namespace without banana whose name is embedded in its identifiers,
    the fixed prefix is the upper-cased namespace followed by a colon
    and is prepended exactly when the identifier does not start with
    it.  For every other namespace the identifier is returned
    unchanged. *)
Theorem normalize_identifier_cases (p x : string) :
  (∀ b, get_banana E p = Some b -> b ≠ "" ->
     normalize_identifier E p x = if startswith x b then x else b +:+ ":" +:+ x)
  ∧ (truthy (get_banana E p) = false -> namespace_in_lui E p = true ->
     normalize_identifier E p x = prepend_unless_present (upper p +:+ ":") x)
  ∧ (truthy (get_banana E p) = false -> namespace_in_lui E p = false ->
     normalize_identifier E p x = x).
Proof.
  split; [|split].
  - intros b. apply normalize_identifier_banana.
  - apply normalize_identifier_lui.
  - apply normalize_identifier_plain.
Qed.

End normalize_identifier_facts.

(** Run of [normalize_identifier_cases] on the three kinds of namespace. *)
Lemma normalize_identifier_cases_witness :
  gilda_utils.normalize_identifier examples.banana_env "go" "0000001" = "GO:0000001"
  ∧ gilda_utils.normalize_identifier examples.banana_env "doid" "4" = "DOID:4"
  ∧ gilda_utils.normalize_identifier examples.banana_env "mesh" "D000001" = "D000001".
Proof.
  split; [|split].
  - apply (proj1 (normalize_identifier_cases examples.banana_env "go" "0000001") "GO");
      [reflexivity | discriminate].
  - apply (proj1 (proj2 (normalize_identifier_cases examples.banana_env "doid" "4")));
      reflexivity.
  - apply (proj2 (proj2 (normalize_identifier_cases examples.banana_env "mesh" "D000001")));
      reflexivity.
Defined.

(** C5 as stated does not hold for a namespace with a banana: what is
    prepended is the banana and a colon, while the test is made on the
    banana alone.  With banana [GO], the result for [0000001] is not
    the banana prepended, and [GOLD] is left alone although it does not
    start with [GO:]. *)
Lemma normalize_identifier_not_plain_prepend :
  gilda_utils.normalize_identifier examples.banana_env "go" "0000001"
    ≠ prepend_unless_present "GO" "0000001"
  ∧ gilda_utils.normalize_identifier examples.banana_env "go" "GOLD"
    ≠ prepend_unless_present "GO:" "GOLD".
Proof. split; vm_compute; discriminate. Qed.

(** ** Generators *)

Section gen_facts.

Context {A : Type}.

Lemma gen_seq_ok (g k : gen A) :
  raised g = None -> gen_seq g k = Gen (yielded g ++ yielded k) (raised k).
Proof. intros H. unfold gen_seq. by rewrite H. Qed.

Lemma gen_seq_raised (g k : gen A) (e : exn) :
  raised g = Some e -> gen_seq g k = g.
Proof. intros H. unfold gen_seq. by rewrite H. Qed.

Lemma gen_seq_yielded (g k : gen A) (x : A) :
  x ∈ yielded (gen_seq g k) -> x ∈ yielded g ∨ x ∈ yielded k.
Proof.
  unfold gen_seq. destruct (raised g); simpl; [by left|].
  by rewrite elem_of_app.
Qed.

Lemma gen_for_yielded {X} (l : list X) (body : X -> gen A) (x : A) :
  x ∈ yielded (gen_for l body) -> ∃ i, i ∈ l ∧ x ∈ yielded (body i).
Proof.
  induction l as [|i l IH]; simpl.
  - by intros ?%elem_of_nil.
  - intros [H|H]%gen_seq_yielded.
    + exists i. split; [left|done].
    + destruct (IH H) as (j & Hj & Hx). exists j. split; [by right|done].
Qed.

Lemma gen_for_ok {X} (l : list X) (body : X -> gen A) (f : X -> list A) :
  (∀ i, i ∈ l -> body i = Gen (f i) None) ->
  gen_for l body = Gen (flat_map f l) None.
Proof.
  induction l as [|i l IH]; intros H; simpl; [done|].
  rewrite (H i) by left. rewrite gen_seq_ok by done. simpl.
  rewrite IH; [done|]. intros j Hj. apply H. by right.
Qed.

Lemma gen_for_yield {X} (l : list X) (f : X -> A) :
  gen_for l (fun i => gilda_utils.yield (f i)) = Gen (map f l) None.
Proof.
  induction l as [|i l IH]; simpl; [done|].
  rewrite IH. by rewrite gen_seq_ok.
Qed.

(** A loop whose body raises at some element ends with an exception of
    a body. *)
Lemma gen_for_raises {X} (l : list X) (body : X -> gen A) (e : exn) :
  (∀ i e', i ∈ l -> raised (body i) = Some e' -> e' = e) ->
  (∃ i, i ∈ l ∧ raised (body i) = Some e) ->
  raised (gen_for l body) = Some e.
Proof.
  induction l as [|i l IH]; intros Hall (j & Hj & Hr).
  - by apply elem_of_nil in Hj.
  - simpl. destruct (raised (body i)) as [e'|] eqn:Hi.
    + rewrite (gen_seq_raised _ _ e') by done.
      rewrite Hi. f_equal. apply (Hall i); [left|done].
    + rewrite gen_seq_ok by done. simpl. apply IH.
      * intros k e' Hk. apply Hall. by right.
      * apply elem_of_cons in Hj as [->|Hj]; [congruence|]. eauto.
Qed.

End gen_facts.

(** ** Index entries of one namespace ([get_gilda_terms]) *)

Section gen_more.

Context {A : Type}.








Lemma flat_map_singleton {X} (f : X -> A) (l : list X) :
  flat_map (fun x => [f x]) l = map f l.
Proof. induction l as [|x l IH]; simpl; [done|by f_equal]. Qed.

End gen_more.

(** The constructor of an index entry. *)
Lemma make_Ok n t d i en st src (x : gilda.Term) :
  gilda.make n t d i en st src = Ok x ->
  x = gilda.Build n t d i en st src ∧ gilda.accepted n t = true.
Proof. unfold gilda.make. destruct (gilda.accepted n t); [|done]. by intros [= <-]. Qed.

Lemma make_Raise n t d i en st src (e : exn) :
  gilda.make n t d i en st src = Raise e ->
  e = ValueError ∧ gilda.accepted n t = false.
Proof. unfold gilda.make. destruct (gilda.accepted n t); [done|]. by intros [= <-]. Qed.

Lemma make_accepted n t d i en st src :
  gilda.accepted n t = true ->
  gilda.make n t d i en st src = Ok (gilda.Build n t d i en st src).
Proof. unfold gilda.make. by intros ->. Qed.

(** A loop that yields one constructed entry per element. *)
Section constructor_loops.

Context {X : Type} (mk : X -> result gilda.Term) (entry : X -> gilda.Term)
  (ok : X -> bool).

Hypothesis mk_cases : ∀ x, mk x = if ok x then Ok (entry x) else Raise ValueError.

Lemma loop_body (x : X) :
  gen_bind (mk x) gilda_utils.yield
  = if ok x then Gen [entry x] None else Gen [] (Some ValueError).
Proof. rewrite mk_cases. by destruct (ok x). Qed.




Lemma loop_ok (l : list X) :
  (∀ x, x ∈ l -> ok x = true) ->
  gen_for l (fun x => gen_bind (mk x) gilda_utils.yield) = Gen (map entry l) None.
Proof.
  intros H. rewrite <- flat_map_singleton. apply gen_for_ok.
  intros x Hx. by rewrite loop_body, H.
Qed.

Lemma loop_yielded (l : list X) (t : gilda.Term) :
  t ∈ yielded (gen_for l (fun x => gen_bind (mk x) gilda_utils.yield)) ->
  ∃ x, x ∈ l ∧ ok x = true ∧ t = entry x.
Proof.
  intros (x & Hx & Ht)%gen_for_yielded. rewrite loop_body in Ht.
  destruct (ok x) eqn:Hok; simpl in Ht.
  - apply list_elem_of_singleton in Ht as ->. by exists x.
  - by apply elem_of_nil in Ht.
Qed.

End constructor_loops.

Section get_gilda_terms_facts.

Import gilda_utils.

Variable E : env.

Implicit Types (names : dict string string) (syns : dict string (list string)).

Lemma name_term_cases (prefix : string) (item : string * string) :
  name_term E prefix item
  = if gilda.accepted (normalize E item.2) item.2
    then Ok (gilda.Build (normalize E item.2) item.2 prefix item.1 (Some item.2)
               "name" prefix)
    else Raise ValueError.
Proof. by destruct item. Qed.

Lemma name_entries_alt (prefix : string) names :
  name_entries E prefix names
  = map (fun item : string * string =>
           gilda.Build (normalize E item.2) item.2 prefix item.1 (Some item.2)
             "name" prefix) names.
Proof. unfold name_entries. apply map_ext. by intros [i n]. Qed.

Lemma elem_of_snd {K V} (l : list (K * V)) (k : K) (v : V) : (k, v) ∈ l -> v ∈ l.*2.
Proof. intros H. apply list_elem_of_fmap. by exists (k, v). Qed.




Lemma name_pass_ok (prefix : string) names :
  texts_accepted E names.*2 ->
  name_pass E prefix names = Gen (name_entries E prefix names) None.
Proof.
  intros H. rewrite name_entries_alt.
  apply (loop_ok _ _ _ (name_term_cases prefix)).
  intros [i n] Hin. apply H. by eapply elem_of_snd.
Qed.

Lemma name_pass_yielded (prefix : string) names (t : gilda.Term) :
  t ∈ yielded (name_pass E prefix names) ->
  ∃ i n, (i, n) ∈ names ∧ gilda.accepted (normalize E n) n = true
         ∧ t = gilda.Build (normalize E n) n prefix i (Some n) "name" prefix.
Proof.
  intros ([i n] & Hin & Hok & ->)%(loop_yielded _ _ _ (name_term_cases prefix)).
  by exists i, n.
Qed.

(** The inner loop of the synonym pass, for one identifier. *)
Lemma synonym_term_cases (prefix i name : string) (s : string) :
  synonym_term E prefix i name s
  = if gilda.accepted (normalize E s) s
    then Ok (gilda.Build (normalize E s) s prefix i (Some name) "synonym" prefix)
    else Raise ValueError.
Proof. reflexivity. Qed.

Lemma identifier_term_cases (prefix : string) (i : string) :
  identifier_term E prefix i
  = if gilda.accepted (normalize E i) i
    then Ok (gilda.Build (normalize E i) i prefix i None "identifier" prefix)
    else Raise ValueError.
Proof. reflexivity. Qed.




Lemma synonym_pass_yielded (prefix : string) names syns (t : gilda.Term) :
  t ∈ yielded (synonym_pass E prefix names syns) ->
  ∃ i ss name s, (i, ss) ∈ syns ∧ dict_get names i = Some name ∧ s ∈ ss
                 ∧ gilda.accepted (normalize E s) s = true
                 ∧ t = gilda.Build (normalize E s) s prefix i (Some name)
                         "synonym" prefix.
Proof.
  intros ([i ss] & Hi & Ht)%gen_for_yielded.
  destruct (dict_get names i) as [name|] eqn:Hn; simpl in Ht.
  - apply (loop_yielded _ _ _ (synonym_term_cases prefix i name)) in Ht
      as (s & Hs & Hok & ->).
    by exists i, ss, name, s.
  - by apply elem_of_nil in Ht.
Qed.








Lemma identifier_pass_yielded (prefix : string) (flag : bool) (t : gilda.Term) :
  t ∈ yielded (identifier_pass E prefix flag) ->
  flag = true
  ∧ ∃ ids i, get_ids E prefix = Ok ids ∧ i ∈ ids
             ∧ gilda.accepted (normalize E i) i = true
             ∧ t = gilda.Build (normalize E i) i prefix i None "identifier" prefix.
Proof.
  unfold identifier_pass. destruct flag; [|by intros ?%elem_of_nil].
  intros Ht. split; [done|].
  destruct (get_ids E prefix) as [ids|e]; simpl in Ht; [|by apply elem_of_nil in Ht].
  apply (loop_yielded _ _ _ (identifier_term_cases prefix)) in Ht as (i & Hi & Hok & ->).
  by exists ids, i.
Qed.


(** Where a yielded entry comes from. *)
Lemma get_gilda_terms_yielded (prefix : string) (flag : bool) (t : gilda.Term) :
  t ∈ yielded (get_gilda_terms E prefix flag) ->
  (∃ names i n, get_id_name_mapping E prefix = Ok names ∧ (i, n) ∈ names
                ∧ t = gilda.Build (normalize E n) n prefix i (Some n) "name" prefix)
  ∨ (∃ names i name s, get_id_name_mapping E prefix = Ok names
                ∧ dict_get names i = Some name
                ∧ t = gilda.Build (normalize E s) s prefix i (Some name)
                        "synonym" prefix)
  ∨ (flag = true
     ∧ ∃ i, t = gilda.Build (normalize E i) i prefix i None "identifier" prefix).
Proof.
  unfold get_gilda_terms.
  destruct (get_id_name_mapping E prefix) as [names|e]; simpl;
    [|by intros ?%elem_of_nil].
  intros [Ht|Ht]%gen_seq_yielded.
  - left. apply name_pass_yielded in Ht as (i & n & Hin & _ & ->). by exists names, i, n.
  - right. destruct (get_id_synonyms_mapping E prefix) as [syns|e]; simpl in Ht;
      [|by apply elem_of_nil in Ht].
    apply gen_seq_yielded in Ht as [Ht|Ht].
    + left. apply synonym_pass_yielded in Ht
        as (i & ss & name & s & _ & Hn & _ & _ & ->).
      by exists names, i, name, s.
    + right. apply identifier_pass_yielded in Ht as (-> & ids & i & _ & _ & _ & ->).
      split; [done|]. by exists i.
Qed.






End get_gilda_terms_facts.




(** ** Duplicate filtering and grouping of the index entries *)

Lemma filter_out_duplicates_from_sub seen terms (t : gilda.Term) :
  t ∈ gilda.filter_out_duplicates_from seen terms -> t ∈ terms.
Proof.
  revert seen. induction terms as [|h terms IH]; intros seen; simpl; [done|].
  case_bool_decide as Hseen.
  - intros Ht. right. by eapply IH.
  - intros [->|Ht]%elem_of_cons; [left|right; by eapply IH].
Qed.

Lemma filter_out_duplicates_from_key seen terms (t : gilda.Term) :
  t ∈ terms -> gilda.dup_key t ∉ seen ->
  ∃ t', t' ∈ gilda.filter_out_duplicates_from seen terms
        ∧ gilda.dup_key t' = gilda.dup_key t.
Proof.
  revert seen. induction terms as [|h terms IH]; intros seen Ht Hseen;
    [by apply elem_of_nil in Ht|].
  simpl. case_bool_decide as Hh.
  - apply elem_of_cons in Ht as [->|Ht]; [done|]. by apply IH.
  - destruct (decide (gilda.dup_key h = gilda.dup_key t)) as [Heq|Hne].
    + exists h. split; [left|done].
    + apply elem_of_cons in Ht as [->|Ht]; [done|].
      destruct (IH (gilda.dup_key h :: seen) Ht) as (t' & Ht' & Hk).
      { rewrite not_elem_of_cons. split; [congruence|done]. }
      exists t'. split; [by right|done].
Qed.

(** The filter returns entries of its input and keeps a representative
    of every key. *)
Lemma filter_out_duplicates_spec terms (t : gilda.Term) :
  (t ∈ gilda.filter_out_duplicates terms -> t ∈ terms)
  ∧ (t ∈ terms -> ∃ t', t' ∈ gilda.filter_out_duplicates terms
                        ∧ gilda.dup_key t' = gilda.dup_key t).
Proof.
  split.
  - apply filter_out_duplicates_from_sub.
  - intros Ht. apply filter_out_duplicates_from_key; [done|]. apply not_elem_of_nil.
Qed.

Lemma multidict_fold {V} (d : gmap string (list V)) (pairs : list (string * V)) (k : string) :
  default [] (foldl (fun d kv => <[kv.1 := default [] (d !! kv.1) ++ [kv.2]]> d) d pairs !! k)
  = default [] (d !! k) ++ (filter (fun kv => kv.1 = k) pairs).*2.
Proof.
  revert d. induction pairs as [|[k' v] pairs IH]; intros d; simpl.
  - by rewrite app_nil_r.
  - rewrite IH. rewrite filter_cons. simpl. case_decide as Hk.
    + subst k'. rewrite lookup_insert_eq. simpl. by rewrite <- app_assoc.
    + by rewrite lookup_insert_ne.
Qed.

(** The values grouped under a key are those paired with it. *)
Lemma multidict_lookup {V} (pairs : list (string * V)) (k : string) (v : V) :
  v ∈ default [] (gilda.multidict pairs !! k) ↔ (k, v) ∈ pairs.
Proof.
  unfold gilda.multidict. rewrite multidict_fold, lookup_empty. simpl.
  rewrite list_elem_of_fmap. split.
  - intros ([k' v'] & -> & [Hk ?]%list_elem_of_filter). simpl in *. by subst.
  - intros H. exists (k, v). split; [done|]. by apply list_elem_of_filter.
Qed.

(** An entry is in the index built from [terms] exactly when it is one
    of [terms]. *)
Lemma in_index_multidict (terms : list gilda.Term) (t : gilda.Term) :
  gilda.in_index
    (gilda.MkGrounder (gilda.multidict (map (fun term => (gilda.norm_text term, term)) terms))) t
  ↔ t ∈ terms.
Proof.
  unfold gilda.in_index. simpl. split.
  - intros (k & ts & Hk & Ht).
    assert (t ∈ default [] (gilda.multidict
              (map (fun term => (gilda.norm_text term, term)) terms) !! k)) as H
      by by rewrite Hk.
    apply multidict_lookup, list_elem_of_fmap in H as (t' & [= -> ->] & Ht').
    done.
  - intros Ht. exists (gilda.norm_text t).
    assert (t ∈ default [] (gilda.multidict
              (map (fun term => (gilda.norm_text term, term)) terms)
              !! gilda.norm_text t)) as H.
    { apply multidict_lookup, list_elem_of_fmap. by exists t. }
    destruct (gilda.multidict _ !! gilda.norm_text t) as [ts|]; simpl in H.
    + by exists ts.
    + by apply elem_of_nil in H.
Qed.

(** ** Index build over several namespaces ([get_grounder]) *)

Section get_grounder_facts.

Import gilda_utils.

Variable E : env.
Variable unnamed : option (list string).

Lemma collect_terms_cons (acc : list gilda.Term) (p : string) (ps : list string) :
  collect_terms E unnamed acc (p :: ps)
  = match namespace_terms E unnamed p with
    | Raise NoBuild => collect_terms E unnamed acc ps
    | Raise e => Raise e
    | Ok ts => collect_terms E unnamed (acc ++ ts) ps
    end.
Proof. reflexivity. Qed.

(** [NoBuild] never leaves the loop. *)
Lemma collect_terms_not_NoBuild (acc : list gilda.Term) (ps : list string) :
  collect_terms E unnamed acc ps ≠ Raise NoBuild.
Proof.
  revert acc. induction ps as [|p ps IH]; intros acc; [done|].
  rewrite collect_terms_cons.
  destruct (namespace_terms E unnamed p) as [ts|[]]; try done; apply IH.
Qed.

(** Unavailable namespaces might as well not have been requested. *)
Lemma collect_terms_filter (acc : list gilda.Term) (ps : list string) :
  collect_terms E unnamed acc ps
  = collect_terms E unnamed acc (filter (fun p => unavailable E unnamed p = false) ps).
Proof.
  revert acc. induction ps as [|p ps IH]; intros acc; [done|].
  rewrite filter_cons, collect_terms_cons.
  destruct (decide (unavailable E unnamed p = false)) as [Hu|Hu].
  - rewrite collect_terms_cons. unfold unavailable in Hu.
    destruct (namespace_terms E unnamed p) as [ts|[]]; try done; apply IH.
  - unfold unavailable in Hu.
    destruct (namespace_terms E unnamed p) as [ts|[]]; try done; apply IH.
Qed.

(** When every namespace is built or unavailable, the loop ends with the
    entries of the built ones. *)
Lemma collect_terms_ok (acc : list gilda.Term) (ps : list string) :
  (∀ p, p ∈ ps -> unavailable E unnamed p = true ∨ ∃ ts, namespace_terms E unnamed p = Ok ts) ->
  collect_terms E unnamed acc ps = Ok (acc ++ built_terms E unnamed ps).
Proof.
  revert acc. induction ps as [|p ps IH]; intros acc Hps.
  - simpl. by rewrite app_nil_r.
  - rewrite collect_terms_cons. unfold built_terms. simpl.
    fold (built_terms E unnamed ps).
    assert (∀ q, q ∈ ps → unavailable E unnamed q = true
                          ∨ ∃ ts, namespace_terms E unnamed q = Ok ts) as Hps'.
    { intros q Hq. apply Hps. by right. }
    destruct (Hps p) as [Hu|[ts Hts]]; [left|..].
    + unfold unavailable in Hu.
      destruct (namespace_terms E unnamed p) as [ts|[]]; try done.
      simpl. by apply IH.
    + rewrite Hts. rewrite IH by done. by rewrite app_assoc.
Qed.

Lemma elem_of_built_terms (ps : list string) (t : gilda.Term) :
  t ∈ built_terms E unnamed ps
  ↔ ∃ p ts, p ∈ ps ∧ namespace_terms E unnamed p = Ok ts ∧ t ∈ ts.
Proof.
  unfold built_terms. rewrite list_elem_of_In, in_flat_map. split.
  - intros (p & Hp%list_elem_of_In & Ht%list_elem_of_In).
    destruct (namespace_terms E unnamed p) as [ts|e] eqn:Hts.
    + by exists p, ts.
    + by apply elem_of_nil in Ht.
  - intros (p & ts & Hp & Hts & Ht). exists p. rewrite Hts.
    by rewrite <- !list_elem_of_In.
Qed.

(** The loop fails exactly when building some namespace raises an
    exception other than [NoBuild]. *)
Lemma collect_terms_Raise (acc : list gilda.Term) (ps : list string) (e : exn) :
  collect_terms E unnamed acc ps = Raise e ->
  ∃ p, p ∈ ps ∧ namespace_terms E unnamed p = Raise e ∧ e ≠ NoBuild.
Proof.
  revert acc. induction ps as [|p ps IH]; intros acc; [done|].
  rewrite collect_terms_cons.
  destruct (namespace_terms E unnamed p) as [ts|e'] eqn:Hp.
  - intros (q & Hq & Hr)%IH. exists q. split; [by right|done].
  - destruct (decide (e' = NoBuild)) as [->|Hne].
    + intros (q & Hq & Hr)%IH. exists q. split; [by right|done].
    + intros H. exists p. split; [left|].
      assert (e' = e) as -> by (destruct e'; congruence). done.
Qed.

Lemma collect_terms_fails (acc : list gilda.Term) (ps : list string) (p : string)
    (e : exn) :
  p ∈ ps -> namespace_terms E unnamed p = Raise e -> e ≠ NoBuild ->
  ∃ e', collect_terms E unnamed acc ps = Raise e'.
Proof.
  revert acc. induction ps as [|q ps IH]; intros acc Hp Hr Hne;
    [by apply elem_of_nil in Hp|].
  rewrite collect_terms_cons.
  destruct (decide (q = p)) as [->|Hqp].
  - rewrite Hr. exists e. by destruct e.
  - apply elem_of_cons in Hp as [->|Hp]; [done|].
    destruct (namespace_terms E unnamed q) as [ts|e'].
    + by apply IH.
    + destruct e'; try by eexists. by apply IH.
Qed.

(** When the loop returns, it returns the entries of the namespaces
    that were built. *)
Lemma collect_terms_Ok (acc terms : list gilda.Term) (ps : list string) :
  collect_terms E unnamed acc ps = Ok terms ->
  terms = acc ++ built_terms E unnamed ps.
Proof.
  intros Hc. rewrite collect_terms_ok in Hc; [by injection Hc as <-|].
  intros p Hp. unfold unavailable.
  destruct (namespace_terms E unnamed p) as [ts|e] eqn:Hr; [right; by exists ts|].
  destruct (decide (e = NoBuild)) as [->|Hne]; [by left|].
  destruct (collect_terms_fails acc ps p e Hp Hr Hne) as [e' He']. congruence.
Qed.

(** C1. [get_grounder] never fails with [NoBuild]: the exception is
    caught for the namespace that raised it and the loop goes on; a
    single prefix is the request for the list that holds it.  The
    result is the one obtained by requesting only the namespaces that
    are not unavailable.  The build fails exactly when building some
    requested namespace raises an exception other than [NoBuild].  When
    it returns, every entry of the index is an entry of a namespace that
    was built, and every entry of a built namespace is in the index up
    to the removal of duplicates.  When every requested namespace is
    unavailable the build does not fail: it returns the empty index. *)
Theorem get_grounder_skips_unavailable (ps : list string) :
  get_grounder E (ManyPrefixes ps) unnamed ≠ Raise NoBuild
  ∧ (∀ p, get_grounder E (OnePrefix p) unnamed
          = get_grounder E (ManyPrefixes [p]) unnamed)
  ∧ get_grounder E (ManyPrefixes ps) unnamed
    = get_grounder E
        (ManyPrefixes (filter (fun p => unavailable E unnamed p = false) ps))
        unnamed
  ∧ ((∃ e, get_grounder E (ManyPrefixes ps) unnamed = Raise e)
     ↔ ∃ p e, p ∈ ps ∧ namespace_terms E unnamed p = Raise e ∧ e ≠ NoBuild)
  ∧ (∀ g, get_grounder E (ManyPrefixes ps) unnamed = Ok g ->
          (∀ t, gilda.in_index g t ->
                ∃ p ts, p ∈ ps ∧ namespace_terms E unnamed p = Ok ts ∧ t ∈ ts)
          ∧ (∀ p ts t, p ∈ ps -> namespace_terms E unnamed p = Ok ts -> t ∈ ts ->
                       ∃ t', gilda.in_index g t'
                             ∧ gilda.dup_key t' = gilda.dup_key t))
  ∧ ((∀ p, p ∈ ps -> unavailable E unnamed p = true) ->
     get_grounder E (ManyPrefixes ps) unnamed = Ok (gilda.MkGrounder ∅)).
Proof.
  split; [|split; [|split; [|split; [|split]]]].
  - unfold get_grounder.
    pose proof (collect_terms_not_NoBuild [] (prefix_list (ManyPrefixes ps))) as H.
    destruct (collect_terms E unnamed [] (prefix_list (ManyPrefixes ps))); simpl;
      [discriminate|intros [= ->]; by apply H].
  - reflexivity.
  - unfold get_grounder. simpl prefix_list. by rewrite <- collect_terms_filter.
  - unfold get_grounder. simpl prefix_list. split.
    + intros [e He].
      destruct (collect_terms E unnamed [] ps) as [terms|e'] eqn:Hc; simpl in He;
        [done|].
      apply collect_terms_Raise in Hc as (p & Hp & Hr & Hne). by exists p, e'.
    + intros (p & e & Hp & Hr & Hne).
      destruct (collect_terms_fails [] ps p e Hp Hr Hne) as [e' ->]. by exists e'.
  - intros g Hg. unfold get_grounder in Hg. simpl prefix_list in Hg.
    destruct (collect_terms E unnamed [] ps) as [terms|e'] eqn:Hc; simpl in Hg;
      [|done].
    apply collect_terms_Ok in Hc. simpl in Hc. subst terms. injection Hg as <-.
    split.
    + intros t Ht%in_index_multidict.
      apply (proj1 (filter_out_duplicates_spec _ _)) in Ht.
      by apply elem_of_built_terms in Ht.
    + intros p ts t Hp Hts Ht.
      destruct (proj2 (filter_out_duplicates_spec (built_terms E unnamed ps) t))
        as (t' & Ht' & Hk).
      { apply elem_of_built_terms. by exists p, ts. }
      exists t'. split; [by apply in_index_multidict|done].
  - intros Hall. unfold get_grounder. simpl prefix_list.
    rewrite collect_terms_filter.
    assert (filter (fun p => unavailable E unnamed p = false) ps = []) as ->; [|done].
    clear -Hall. induction ps as [|p ps IH]; [done|].
    rewrite filter_cons, decide_False.
    + apply IH. intros q Hq. apply Hall. by right.
    + rewrite (Hall p) by left. done.
Qed.

End get_grounder_facts.

(** Run of [get_grounder_skips_unavailable] on the request for [demo]
    and for a namespace that cannot be built: the build returns, all
    entries of the index are those of [demo], and the entry of the name
    [Bar] is among them. *)
Lemma get_grounder_skips_unavailable_witness :
  ∃ g, gilda_utils.get_grounder examples.demo_env
         (gilda_utils.ManyPrefixes ["demo"; "nobuild"]) None = Ok g
       ∧ (∀ t, gilda.in_index g t -> gilda.db t = "demo")
       ∧ ∃ t', gilda.in_index g t'
               ∧ gilda.dup_key t' = ("BAR", "demo", "2", "name").
Proof.
  destruct (gilda_utils.get_grounder examples.demo_env
              (gilda_utils.ManyPrefixes ["demo"; "nobuild"]) None) as [g|e] eqn:Hg;
    [|by vm_compute in Hg].
  destruct (proj1 (proj2 (proj2 (proj2 (proj2
              (get_grounder_skips_unavailable examples.demo_env None
                 ["demo"; "nobuild"]))))) g Hg) as [Hsub Hsup].
  exists g. split; [done|]. split.
  - intros t Ht. destruct (Hsub t Ht) as (p & ts & Hp & Hts & Hin).
    apply elem_of_cons in Hp as [->|Hp].
    + vm_compute in Hts. injection Hts as <-.
      repeat (apply elem_of_cons in Hin as [->|Hin]; [reflexivity|]).
      by apply elem_of_nil in Hin.
    + apply list_elem_of_singleton in Hp as ->. discriminate Hts.
  - eapply (Hsup "demo" _ (gilda.Build "BAR" "Bar" "demo" "2" (Some "Bar") "name" "demo"));
      [left|reflexivity|].
    right. left.
Defined.

(** C1 as stated does not hold in its last clause: the build can fail
    while a requested namespace is available, and it does not fail
    when every requested namespace is unavailable.  With
    [demo] built and [orphan] ending in [KeyError] the build ends with
    [KeyError], and the request for two namespaces that cannot be built
    returns the empty index. *)
Lemma get_grounder_fails_beside_built_namespace :
  gilda_utils.get_grounder examples.demo_env
    (gilda_utils.ManyPrefixes ["demo"; "orphan"]) None = Raise KeyError
  ∧ unavailable examples.demo_env None "demo" = false
  ∧ unavailable examples.demo_env None "orphan" = false
  ∧ unavailable examples.demo_env None "nobuild" = true
  ∧ unavailable examples.demo_env None "missing" = true
  ∧ gilda_utils.get_grounder examples.demo_env
      (gilda_utils.ManyPrefixes ["nobuild"; "missing"]) None
    = Ok (gilda.MkGrounder ∅).
Proof. repeat split; reflexivity. Qed.

(** ** The typedef registry ([default_typedefs]) *)

Section registry_facts.

Import typedef.

(** Filling a dictionary from values with pairwise distinct keys stores
    every value under its key. *)
Lemma foldl_insert_lookup {V} (key : V -> option string * option string)
    (d : gmap (option string * option string) V) (l : list V) (x : V) :
  NoDup (key <$> l) -> x ∈ l ->
  foldl (fun d v => <[key v := v]> d) d l !! key x = Some x.
Proof.
  revert d. induction l as [|y l IH]; intros d Hnd Hx;
    [by apply elem_of_nil in Hx|].
  simpl. apply NoDup_cons in Hnd as [Hy Hnd].
  apply elem_of_cons in Hx as [->|Hx]; [|by apply IH].
  clear IH. revert d. induction l as [|z l IH]; intros d; simpl.
  - apply lookup_insert_eq.
  - apply not_elem_of_cons in Hy as [Hyz Hy]. apply NoDup_cons in Hnd as [_ Hnd].
    rewrite insert_insert_ne by done. by apply IH.
Qed.

Lemma typedef_locals_NoDup (default_prefix : string) :
  NoDup (pair <$> typedef_locals default_prefix).
Proof.
  apply (NoDup_fmap_1 snd). rewrite <- list_fmap_compose.
  by apply (bool_decide_unpack _).
Qed.

Lemma load_ro_step_keeps d item k (v : TypeDef) :
  d !! k = Some v -> load_ro_step d item !! k = Some v.
Proof.
  intros Hk. destruct item as [[p i] n]. unfold load_ro_step. simpl.
  destruct (d !! (Some p, Some i)) eqn:Hd; [done|].
  rewrite lookup_insert_ne; [done|]. intros <-. congruence.
Qed.

(** An entry that is present survives the loading unchanged. *)
Lemma load_ro_keeps d (load_ro : list ((string * string) * string)) k (v : TypeDef) :
  d !! k = Some v -> foldl load_ro_step d load_ro !! k = Some v.
Proof.
  revert d. induction load_ro as [|item ro IH]; intros d Hk; [done|].
  simpl. by apply IH, load_ro_step_keeps.
Qed.

(** An entry of the result was present or comes from the mapping. *)
Lemma load_ro_origin d (load_ro : list ((string * string) * string)) k (v : TypeDef) :
  foldl load_ro_step d load_ro !! k = Some v ->
  d !! k = Some v
  ∨ (d !! k = None
     ∧ ∃ p i n, ((p, i), n) ∈ load_ro ∧ k = (Some p, Some i)
                ∧ v = from_triple (Some p) (Some i) (Some n)).
Proof.
  revert d. induction load_ro as [|[[p i] n] ro IH]; intros d Hk; [by left|].
  simpl in Hk. apply IH in Hk as [Hk|(Hnone & p' & i' & n' & Hin & -> & ->)].
  - unfold load_ro_step in Hk. simpl in Hk.
    destruct (d !! (Some p, Some i)) eqn:Hd; [by left|].
    destruct (decide (k = (Some p, Some i))) as [->|Hne].
    + rewrite lookup_insert_eq in Hk. injection Hk as <-.
      right. split; [done|]. exists p, i, n. split; [left|done].
    + rewrite lookup_insert_ne in Hk by done. by left.
  - right. unfold load_ro_step in Hnone. simpl in Hnone.
    destruct (d !! (Some p, Some i)) eqn:Hd.
    + split; [done|]. exists p', i', n'. split; [by right|done].
    + destruct (decide ((Some p', Some i') = (Some p, Some i))) as [Heq|Hne].
      * rewrite Heq, lookup_insert_eq in Hnone. done.
      * rewrite lookup_insert_ne in Hnone by done.
        split; [done|]. exists p', i', n'. split; [by right|done].
Qed.

(** Every pair of the mapping is a key of the result. *)
Lemma load_ro_covers d (load_ro : list ((string * string) * string)) p i n :
  ((p, i), n) ∈ load_ro ->
  is_Some (foldl load_ro_step d load_ro !! (Some p, Some i)).
Proof.
  revert d. induction load_ro as [|item ro IH]; intros d Hin;
    [by apply elem_of_nil in Hin|].
  simpl. apply elem_of_cons in Hin as [<-|Hin]; [|by apply IH].
  assert (is_Some (load_ro_step d (p, i, n) !! (Some p, Some i))) as [v Hv].
  { unfold load_ro_step. simpl. destruct (d !! (Some p, Some i)) eqn:Hd.
    - rewrite Hd. by eexists.
    - rewrite lookup_insert_eq. by eexists. }
  exists v. by apply load_ro_keeps.
Qed.

(** C7. Whatever the relation-ontology mapping holds, the registry maps
    the pair of every built-in typedef to that typedef; every entry
    present before the loading is present afterwards with the same
    value; and every entry of the registry is either such an entry or
    was built from an item of the mapping whose pair was not a key
    before.  Every pair of the mapping is a key afterwards. *)
Theorem default_typedefs_keeps_builtins (default_prefix : string)
    (load_ro : list ((string * string) * string)) :
  (∀ td, td ∈ typedef_locals default_prefix ->
         default_typedefs default_prefix load_ro !! pair td = Some td)
  ∧ (∀ k v, builtin_typedefs default_prefix !! k = Some v ->
            default_typedefs default_prefix load_ro !! k = Some v)
  ∧ (∀ k v, default_typedefs default_prefix load_ro !! k = Some v ->
            builtin_typedefs default_prefix !! k = Some v
            ∨ (builtin_typedefs default_prefix !! k = None
               ∧ ∃ p i n, ((p, i), n) ∈ load_ro ∧ k = (Some p, Some i)
                          ∧ v = from_triple (Some p) (Some i) (Some n)))
  ∧ (∀ p i n, ((p, i), n) ∈ load_ro ->
              is_Some (default_typedefs default_prefix load_ro !! (Some p, Some i))).
Proof.
  unfold default_typedefs. split; [|split; [|split]].
  - intros td Htd. apply load_ro_keeps. unfold builtin_typedefs.
    apply foldl_insert_lookup; [apply typedef_locals_NoDup|done].
  - intros k v. apply load_ro_keeps.
  - intros k v. apply load_ro_origin.
  - intros p i n. apply load_ro_covers.
Qed.

End registry_facts.

(** Run of [default_typedefs_keeps_builtins]: after loading a mapping
    that also names [RO:0002162], the registry still holds the built-in
    [from_species] under that pair, and the new pair was added. *)
Lemma default_typedefs_keeps_builtins_witness :
  typedef.default_typedefs "obo" examples.ro_items !! (Some "RO", Some "0002162")
  = Some typedef.from_species
  ∧ is_Some (typedef.default_typedefs "obo" examples.ro_items
               !! (Some "ro", Some "0002160")).
Proof.
  split.
  - apply (proj1 (default_typedefs_keeps_builtins "obo" examples.ro_items)
             typedef.from_species).
    left.
  - apply (proj2 (proj2 (proj2 (default_typedefs_keeps_builtins "obo" examples.ro_items)))
             "ro" "0002160" "only in taxon").
    right. left.
Defined.

(** ** Curies and relation hints ([from_curie], [get_reference_tuple]) *)

Section curie_facts.

Import typedef.

Variable normalize_curie : string -> result (option string * option string).

(** C2. [from_curie] has no check of its own: when [normalize_curie]
    reports a string that is no curie by returning the pair ([None],
    [None]), [from_curie] raises nothing and returns a typedef whose
    prefix and identifier are [None]. *)
Theorem from_curie_no_parse_error (curie : string) (name : option string) :
  normalize_curie curie = Ok (None, None) ->
  from_curie normalize_curie curie name = Ok (from_triple None None name).
Proof. intros H. unfold from_curie. by rewrite H. Qed.

(** For a string that [normalize_curie] accepts, the typedef carries
    the normalized prefix and identifier; an exception of
    [normalize_curie] is passed on. *)
Lemma from_curie_valid (curie : string) (name : option string) (p i : string) :
  normalize_curie curie = Ok (Some p, Some i) ->
  ∃ t, from_curie normalize_curie curie name = Ok t
       ∧ pair t = (Some p, Some i) ∧ reference.name (reference t) = name.
Proof. intros H. unfold from_curie. rewrite H. by eexists. Qed.

Lemma from_curie_raise (curie : string) (name : option string) (e : exn) :
  normalize_curie curie = Raise e ->
  from_curie normalize_curie curie name = Raise e.
Proof. intros H. unfold from_curie. by rewrite H. Qed.

(** C3, as amended.  A [Reference] or a [TypeDef] resolves to the prefix
    and identifier it stores; a pair is returned as it is, without any
    check; a string resolves to what [normalize_curie] returns and
    fails with [ValueError] exactly when that has no prefix.  No lookup
    in the registry takes place. *)
Theorem get_reference_tuple_shapes :
  (∀ r, get_reference_tuple normalize_curie (HintReference r)
        = Ok (reference.prefix r, reference.identifier r))
  ∧ (∀ t, get_reference_tuple normalize_curie (HintTypeDef t) = Ok (pair t))
  ∧ (∀ p, get_reference_tuple normalize_curie (HintTuple p) = Ok p)
  ∧ (∀ s p i, normalize_curie s = Ok (p, i) ->
       (get_reference_tuple normalize_curie (HintStr s) = Raise ValueError ↔ p = None)
       ∧ (p ≠ None -> get_reference_tuple normalize_curie (HintStr s) = Ok (p, i)))
  ∧ (∀ s e, normalize_curie s = Raise e ->
       get_reference_tuple normalize_curie (HintStr s) = Raise e).
Proof.
  split; [done|]. split; [done|]. split; [done|]. split.
  - intros s p i H. cbn [get_reference_tuple]. rewrite H. cbn [bind].
    destruct p as [p|].
    + split; [split; discriminate|done].
    + split; [done|]. by intros [].
  - intros s e H. cbn [get_reference_tuple]. by rewrite H.
Qed.

End curie_facts.

(** Run of [from_curie_no_parse_error] on a string without a colon. *)
Lemma from_curie_no_parse_error_witness :
  typedef.from_curie examples.normalize_curie "part of" (Some "part of")
  = Ok (typedef.from_triple None None (Some "part of")).
Proof. apply from_curie_no_parse_error. reflexivity. Defined.

(** Run of [get_reference_tuple_shapes] on the four shapes. *)
Lemma get_reference_tuple_shapes_witness :
  typedef.get_reference_tuple examples.normalize_curie (typedef.HintStr "BFO:0000050")
  = Ok (Some "bfo", Some "0000050")
  ∧ typedef.get_reference_tuple examples.normalize_curie (typedef.HintStr "part of")
    = Raise ValueError.
Proof.
  split.
  - apply (proj2 (proj1 (proj2 (proj2 (proj2
             (get_reference_tuple_shapes examples.normalize_curie))))
             "BFO:0000050" (Some "bfo") (Some "0000050") eq_refl)).
    discriminate.
  - apply (proj1 (proj1 (proj2 (proj2 (proj2
             (get_reference_tuple_shapes examples.normalize_curie))))
             "part of" None None eq_refl)).
    reflexivity.
Defined.

(** C3 as stated does not hold for a pair: the pair of two empty
    strings is no key of the registry and cannot be the two halves of a
    curie, yet it is returned without an error. *)
Lemma get_reference_tuple_accepts_unknown_pair :
  typedef.default_typedefs "obo" examples.ro_items !! (Some "", Some "") = None
  ∧ typedef.get_reference_tuple examples.normalize_curie
      (typedef.HintTuple (Some "", Some ""))
    = Ok (Some "", Some "").
Proof. split; [by vm_compute|reflexivity]. Qed.

(** ** Insertion-ordered dictionaries *)

Section dict_facts.

Context {K V : Type} `{EqDecision K}.

Implicit Types (d : dict K V) (k : K) (v : V).

Lemma dict_get_elem d k v : dict_get d k = Some v -> (k, v) ∈ d.
Proof.
  induction d as [|[k' v'] d IH]; simpl; [done|].
  case_decide as Hk.
  - intros [= ->]. subst. left.
  - intros H. right. by apply IH.
Qed.

Lemma dict_get_is_Some d k : is_Some (dict_get d k) ↔ k ∈ dict_keys d.
Proof.
  unfold dict_keys. induction d as [|[k' v'] d IH]; simpl.
  - split; [by intros [? ?]|by intros ?%elem_of_nil].
  - rewrite elem_of_cons. case_decide as Hk.
    + split; [by left|by eexists].
    + rewrite IH. split; [by right|]. by intros [->|?].
Qed.

Lemma dict_set_elem d k v k' v' :
  (k', v') ∈ dict_set d k v -> (k' = k ∧ v' = v) ∨ (k', v') ∈ d.
Proof.
  induction d as [|[k0 v0] d IH]; simpl.
  - intros [= -> ->]%list_elem_of_singleton. by left.
  - case_decide as Hk.
    + intros [[= -> ->]|H]%elem_of_cons; [by left|]. right. by right.
    + intros [->|H]%elem_of_cons; [right; left|].
      destruct (IH H) as [?|?]; [by left|]. right. by right.
Qed.

Lemma dict_set_keys d k v k' :
  k' ∈ dict_keys (dict_set d k v) ↔ k' = k ∨ k' ∈ dict_keys d.
Proof.
  unfold dict_keys. induction d as [|[k0 v0] d IH]; simpl.
  - rewrite list_elem_of_singleton. split; [by left|by intros [?|?%elem_of_nil]].
  - case_decide as Hk; simpl; rewrite !elem_of_cons.
    + subst. tauto.
    + rewrite IH. tauto.
Qed.

(** Assigning to a key that is present does not change the keys. *)
Lemma dict_set_keys_present d k v :
  k ∈ dict_keys d -> dict_keys (dict_set d k v) = dict_keys d.
Proof.
  unfold dict_keys. induction d as [|[k0 v0] d IH]; simpl.
  - by intros ?%elem_of_nil.
  - case_decide as Hk; simpl; [by subst|].
    intros [->|H]%elem_of_cons; [done|]. f_equal. by apply IH.
Qed.

Lemma dict_set_wf d k v : dict_wf d -> dict_wf (dict_set d k v).
Proof.
  unfold dict_wf. induction d as [|[k0 v0] d IH]; simpl.
  - intros _. apply NoDup_singleton.
  - rewrite NoDup_cons. intros [Hk0 Hd]. case_decide as Hk; simpl.
    + subst. by apply NoDup_cons.
    + apply NoDup_cons. split; [|by apply IH].
      intros [?|?]%dict_set_keys; [by subst|done].
Qed.

End dict_facts.

Lemma mapM_ok {A B} (f : A -> result B) (l : list A) :
  (∀ x, x ∈ l -> ∃ y, f x = Ok y) -> ∃ ys, mapM f l = Ok ys.
Proof.
  induction l as [|x l IH]; intros H; simpl; [by eexists|].
  destruct (H x) as [y Hy]; [left|]. rewrite Hy. simpl.
  destruct IH as [ys Hys]; [intros z Hz; apply H; by right|].
  rewrite Hys. by eexists.
Qed.

(** ** The MeSH adapter ([mesh.get_terms]) *)

Section mesh_facts.

Import mesh.

Lemma entry_term_pair (e : entry) :
  struct.pair (entry_term e) = (Some PREFIX, Some (identifier e)).
Proof. reflexivity. Qed.

(** First loop: the dictionary stays well formed and keyed by
    identifier, and its keys are the identifiers met so far. *)
Lemma fill_terms_inv (l : list entry) (d : dict string struct.Term) :
  dict_wf d -> keyed_by_identifier d ->
  let d' := foldl (fun d e => dict_set d (identifier e) (entry_term e)) d l in
  dict_wf d' ∧ keyed_by_identifier d'
  ∧ ∀ k, k ∈ dict_keys d' ↔ k ∈ dict_keys d ∨ k ∈ identifier <$> l.
Proof.
  revert d. induction l as [|e l IH]; intros d Hwf Hkey; simpl.
  - split; [done|]. split; [done|]. intros k. rewrite elem_of_nil. tauto.
  - destruct (IH (dict_set d (identifier e) (entry_term e))) as (Hwf' & Hkey' & Hk').
    + by apply dict_set_wf.
    + intros k t [[-> ->]|H]%dict_set_elem; [apply entry_term_pair|by apply Hkey].
    + split; [done|]. split; [done|]. intros k.
      rewrite Hk', dict_set_keys, elem_of_cons. tauto.
Qed.

(** Second loop, one round. *)
Lemma set_entry_parents_inv (d d' : dict string struct.Term) (e : entry) :
  set_entry_parents d e = Ok d' -> dict_wf d -> keyed_by_identifier d ->
  dict_wf d' ∧ keyed_by_identifier d' ∧ dict_keys d' = dict_keys d.
Proof.
  unfold set_entry_parents. intros Hstep Hwf Hkey.
  destruct (mapM _ (parents e)) as [ps|]; simpl in Hstep; [|done].
  destruct (dict_get d (identifier e)) as [t|] eqn:Ht; simpl in Hstep; [|done].
  injection Hstep as <-. split; [by apply dict_set_wf|]. split.
  - intros k t' [[-> ->]|H]%dict_set_elem; [|by apply Hkey].
    apply (Hkey _ t). by apply dict_get_elem.
  - apply dict_set_keys_present, dict_get_is_Some. by rewrite Ht.
Qed.

Lemma set_entry_parents_ok (d : dict string struct.Term) (e : entry) :
  identifier e ∈ dict_keys d ->
  (∀ p, p ∈ parents e -> p ∈ dict_keys d) ->
  ∃ d', set_entry_parents d e = Ok d'.
Proof.
  intros He Hp. unfold set_entry_parents.
  destruct (mapM_ok (fun parent_descriptor_id =>
              bind (subscript (dict_get d parent_descriptor_id)) (fun t =>
              Ok (struct.reference t))) (parents e)) as [ps ->].
  { intros p Hin. apply Hp, dict_get_is_Some in Hin as [t ->]. by eexists. }
  apply dict_get_is_Some in He as [t ->]. by eexists.
Qed.

Lemma set_parents_loop_inv (l : list entry) (d d' : dict string struct.Term) :
  foldM set_entry_parents d l = Ok d' -> dict_wf d -> keyed_by_identifier d ->
  dict_wf d' ∧ keyed_by_identifier d' ∧ dict_keys d' = dict_keys d.
Proof.
  revert d. induction l as [|e l IH]; intros d Hloop Hwf Hkey; simpl in Hloop.
  - by injection Hloop as <-.
  - destruct (set_entry_parents d e) as [d1|] eqn:Hstep; simpl in Hloop; [|done].
    destruct (set_entry_parents_inv _ _ _ Hstep Hwf Hkey) as (Hwf1 & Hkey1 & Hk1).
    destruct (IH d1 Hloop Hwf1 Hkey1) as (? & ? & Hk'). by rewrite Hk', Hk1.
Qed.

Lemma set_parents_loop_ok (l : list entry) (d : dict string struct.Term) :
  dict_wf d -> keyed_by_identifier d ->
  (∀ e, e ∈ l -> identifier e ∈ dict_keys d
                 ∧ ∀ p, p ∈ parents e -> p ∈ dict_keys d) ->
  ∃ d', foldM set_entry_parents d l = Ok d'.
Proof.
  revert d. induction l as [|e l IH]; intros d Hwf Hkey Hl; simpl; [by eexists|].
  destruct (Hl e) as [He Hp]; [left|].
  destruct (set_entry_parents_ok d e He Hp) as [d1 Hstep]. rewrite Hstep. simpl.
  destruct (set_entry_parents_inv _ _ _ Hstep Hwf Hkey) as (Hwf1 & Hkey1 & Hk1).
  apply IH; [done|done|]. intros e' He'. rewrite Hk1. apply Hl. by right.
Qed.

(** The pairs of the values of a dictionary keyed by identifier. *)
Lemma keyed_values_pairs (d : dict string struct.Term) :
  keyed_by_identifier d ->
  struct.pair <$> dict_values d
  = (fun k => (Some PREFIX, Some k)) <$> dict_keys d.
Proof.
  unfold dict_values, dict_keys. induction d as [|[k t] d IH]; intros Hkey; [done|].
  simpl. f_equal.
  - apply Hkey. left.
  - apply IH. intros k' t' H. apply Hkey. by right.
Qed.

(** C8. When [get_terms] returns, no two of the returned terms share
    their (prefix, identifier) pair, and the pairs of the returned
    terms are exactly the MeSH pairs of the identifiers of the
    descriptor and supplemental records: each such identifier has one
    term, and one only.  It does return when the parents of every
    descriptor are identifiers of the records. *)
Theorem get_terms_unique_pairs (descriptors supplemental_records : list entry) :
  (∀ ts, get_terms descriptors supplemental_records = Ok ts ->
     NoDup (struct.pair <$> ts)
     ∧ ∀ k, k ∈ identifier <$> (descriptors ++ supplemental_records)
            ↔ (Some PREFIX, Some k) ∈ struct.pair <$> ts)
  ∧ ((∀ e p, e ∈ descriptors -> p ∈ parents e ->
             p ∈ identifier <$> (descriptors ++ supplemental_records)) ->
     ∃ ts, get_terms descriptors supplemental_records = Ok ts).
Proof.
  unfold get_terms.
  destruct (fill_terms_inv (descriptors ++ supplemental_records) [])
    as (Hwf & Hkey & Hkeys).
  { apply NoDup_nil_2. }
  { by intros k t ?%elem_of_nil. }
  simpl in Hwf, Hkey, Hkeys.
  set (d := foldl _ _ _) in *. split.
  - intros ts Hts.
    destruct (foldM set_entry_parents d descriptors) as [d'|] eqn:Hloop;
      simpl in Hts; [|done].
    injection Hts as <-.
    destruct (set_parents_loop_inv _ _ _ Hloop Hwf Hkey) as (Hwf' & Hkey' & Hk').
    rewrite keyed_values_pairs by done. split.
    + apply NoDup_fmap_2; [|done]. by intros k1 k2 [= ->].
    + intros k. split.
      * intros Hk. apply list_elem_of_fmap. exists k. split; [done|].
        rewrite Hk'. apply Hkeys. by right.
      * intros (k' & [= ->] & Hin)%list_elem_of_fmap. rewrite Hk' in Hin.
        apply Hkeys in Hin as [?%elem_of_nil|?]; done.
  - intros Hpar.
    destruct (set_parents_loop_ok descriptors d Hwf Hkey) as [d' Hd'].
    + intros e He. split.
      * apply Hkeys. right. apply list_elem_of_fmap. exists e. split; [done|].
        apply elem_of_app. by left.
      * intros p Hp. apply Hkeys. right. by apply (Hpar e).
    + rewrite Hd'. by eexists.
Qed.

End mesh_facts.

(** Run of [get_terms_unique_pairs] on two descriptors and two
    supplemental records. *)
Lemma get_terms_unique_pairs_witness :
  ∃ ts, mesh.get_terms examples.mesh_descriptors examples.mesh_supplemental_records = Ok ts
        ∧ NoDup (struct.pair <$> ts).
Proof.
  destruct (proj2 (get_terms_unique_pairs examples.mesh_descriptors
                     examples.mesh_supplemental_records)) as [ts Hts].
  - intros e p He Hp.
    apply elem_of_cons in He as [->|He]; [by apply elem_of_nil in Hp|].
    apply list_elem_of_singleton in He as ->.
    apply list_elem_of_singleton in Hp as ->. left.
  - exists ts. split; [exact Hts|].
    exact (proj1 (proj1 (get_terms_unique_pairs examples.mesh_descriptors
                           examples.mesh_supplemental_records) ts Hts)).
Defined.

(** ** The dictyBase gene adapter ([dictybase_gene.get_terms]) *)

Section dict_get_set.

Context {K V : Type} `{EqDecision K}.

Lemma dict_get_set_eq (d : dict K V) (k : K) (v : V) :
  dict_get (dict_set d k v) k = Some v.
Proof.
  induction d as [|[k' v'] d IH]; simpl.
  - by rewrite decide_True.
  - case_decide as Hk; simpl; [by rewrite decide_True|by rewrite decide_False].
Qed.

Lemma dict_get_set_ne (d : dict K V) (k k' : K) (v : V) :
  k ≠ k' -> dict_get (dict_set d k v) k' = dict_get d k'.
Proof.
  intros Hne. induction d as [|[k0 v0] d IH]; simpl.
  - by rewrite decide_False.
  - case_decide as Hk; simpl.
    + subst. by rewrite !decide_False.
    + by rewrite IH.
Qed.

End dict_get_set.

Section dictybase_facts.

Import dictybase_gene.

Variable auto : string -> string -> reference.Reference.
Variable species_reference : string -> string -> reference.Reference.

(** The three-part test of the loop passes exactly on the two literal
    strings. *)
Lemma add_gene_product_cases (term : struct.Term) (c : cell) :
  add_gene_product auto term c
  = match c with
    | Str s =>
        if bool_decide (s ∈ ["unknown"; "pseudogene"])
        then struct.append_relationship term typedef.has_gene_product (auto "uniprot" s)
        else term
    | NaN => term
    end.
Proof.
  unfold add_gene_product. destruct c as [|s]; [done|]. simpl.
  case_bool_decide as Hs; simpl.
  - destruct s; [|done]. rewrite !elem_of_cons, elem_of_nil in Hs.
    by destruct Hs as [?|[?|?]].
  - by rewrite orb_true_r.
Qed.

Lemma gene_product_edges_append (term : struct.Term) (r : reference.Reference) :
  gene_product_edges (struct.append_relationship term typedef.has_gene_product r)
  = gene_product_edges term ++ [r].
Proof. unfold gene_product_edges. simpl. by rewrite dict_get_set_eq. Qed.

Lemma gene_product_edges_synonym (term : struct.Term) (a : struct.synonym_arg) :
  gene_product_edges (struct.append_synonym term a) = gene_product_edges term.
Proof. reflexivity. Qed.

Lemma gene_product_edges_species (term : struct.Term) (i n : string) :
  gene_product_edges (struct.set_species species_reference term i n)
  = gene_product_edges term.
Proof.
  unfold gene_product_edges, struct.set_species. simpl.
  by rewrite dict_get_set_ne.
Qed.

Lemma gene_product_edges_loop (cs : list cell) (term : struct.Term) :
  gene_product_edges (foldl (add_gene_product auto) term cs)
  = gene_product_edges term ++ map (auto "uniprot") (passing_uniprot_ids cs).
Proof.
  revert term. induction cs as [|c cs IH]; intros term; simpl.
  - by rewrite app_nil_r.
  - rewrite IH, add_gene_product_cases. destruct c as [|s]; [done|].
    case_bool_decide; [|done].
    by rewrite gene_product_edges_append, <- app_assoc.
Qed.

Lemma gene_product_edges_synonyms {X} (f : X -> struct.synonym_arg) (l : list X)
    (term : struct.Term) :
  gene_product_edges (foldl (fun t x => struct.append_synonym t (f x)) term l)
  = gene_product_edges term.
Proof. revert term. induction l as [|x l IH]; intros term; simpl; [done|]. by rewrite IH. Qed.

(** C10. In the loop over the mapped UniProt identifiers a relationship
    is appended exactly for the values that are the string [unknown] or
    the string [pseudogene]; any other string, the empty string and NaN
    leave the term as it is.  So the [has_gene_product] edges of the
    term of a row are the references to those of the mapped values that
    are one of the two strings, in order. *)
Theorem get_terms_gene_product_edges (uniprot_mappings : dict string (list cell)) :
  (∀ term c,
     add_gene_product auto term c
     = match c with
       | Str s =>
           if bool_decide (s = "unknown" ∨ s = "pseudogene")
           then struct.append_relationship term typedef.has_gene_product
                  (auto "uniprot" s)
           else term
       | NaN => term
       end)
  ∧ (∀ r, gene_product_edges (row_term auto species_reference uniprot_mappings r)
          = map (auto "uniprot")
              (passing_uniprot_ids
                 (default [] (dict_get uniprot_mappings (row_identifier r)))))
  ∧ (∀ rows, map gene_product_edges
               (get_terms auto species_reference uniprot_mappings rows)
             = map (fun r => map (auto "uniprot")
                      (passing_uniprot_ids
                         (default [] (dict_get uniprot_mappings (row_identifier r)))))
                   rows).
Proof.
  assert (∀ r, gene_product_edges (row_term auto species_reference uniprot_mappings r)
          = map (auto "uniprot")
              (passing_uniprot_ids
                 (default [] (dict_get uniprot_mappings (row_identifier r))))) as Hrow.
  { intros r. unfold row_term.
    rewrite gene_product_edges_species, gene_product_edges_loop.
    destruct (cell_truthy (row_synonyms r) && notna (row_synonyms r));
      destruct (cell_truthy (row_products r) && notna (row_products r)
                && cell_ne (row_products r) "unknown");
      by rewrite ?gene_product_edges_synonyms. }
  split; [|split; [done|]].
  - intros term c. rewrite add_gene_product_cases. destruct c as [|s]; [done|].
    rewrite (bool_decide_ext _ (s = "unknown" ∨ s = "pseudogene")); [done|].
    rewrite !elem_of_cons, elem_of_nil. tauto.
  - intros rows. unfold get_terms. rewrite map_map. apply map_ext. intros r. apply Hrow.
Qed.

End dictybase_facts.

(** Run of [get_terms_gene_product_edges] on a gene mapped to an
    accession, to [unknown], to NaN and to [pseudogene]: the accession
    gets no edge, the two literal strings do. *)
Lemma get_terms_gene_product_edges_witness :
  gene_product_edges
    (dictybase_gene.row_term examples.auto examples.species_reference
       examples.uniprot_mappings examples.gene_row)
  = [examples.auto "uniprot" "unknown"; examples.auto "uniprot" "pseudogene"].
Proof.
  rewrite (proj1 (proj2 (get_terms_gene_product_edges examples.auto
                           examples.species_reference examples.uniprot_mappings))).
  reflexivity.
Defined.

(** * Further properties *)

(** ** More on the index build *)

Section get_grounder_more.

Import gilda_utils.

Variable E : env.
Variable unnamed : option (list string).

Lemma collect_terms_raises (acc : list gilda.Term) (ps1 ps2 : list string)
    (p : string) (e : exn) :
  e ≠ NoBuild -> namespace_terms E unnamed p = Raise e ->
  (∀ q, q ∈ ps1 -> unavailable E unnamed q = true
                   ∨ ∃ ts, namespace_terms E unnamed q = Ok ts) ->
  collect_terms E unnamed acc (ps1 ++ p :: ps2) = Raise e.
Proof.
  intros He Hp. revert acc. induction ps1 as [|q ps1 IH]; intros acc Hps1.
  - simpl app. rewrite collect_terms_cons, Hp. by destruct e.
  - change ((q :: ps1) ++ p :: ps2) with (q :: (ps1 ++ p :: ps2)).
    rewrite collect_terms_cons.
    assert (∀ q', q' ∈ ps1 -> unavailable E unnamed q' = true
                   ∨ ∃ ts, namespace_terms E unnamed q' = Ok ts) as Hps1'.
    { intros q' Hq'. apply Hps1. by right. }
    destruct (Hps1 q) as [Hu|[ts Hts]]; [left|..].
    + unfold unavailable in Hu.
      destruct (namespace_terms E unnamed q) as [ts|[]]; try done. by apply IH.
    + rewrite Hts. by apply IH.
Qed.

(** X1. An exception other than [NoBuild] is not caught: the first
    namespace whose build raises one ends the whole build with it. *)
Theorem get_grounder_raises_other (ps1 ps2 : list string) (p : string) (e : exn) :
  e ≠ NoBuild -> namespace_terms E unnamed p = Raise e ->
  (∀ q, q ∈ ps1 -> unavailable E unnamed q = true
                   ∨ ∃ ts, namespace_terms E unnamed q = Ok ts) ->
  get_grounder E (ManyPrefixes (ps1 ++ p :: ps2)) unnamed = Raise e.
Proof.
  intros He Hp Hps1. unfold get_grounder. simpl prefix_list.
  by rewrite (collect_terms_raises [] ps1 ps2 p e).
Qed.

(** X2. The entries a namespace yielded before it raised [NoBuild] are
    dropped.  When the names of a namespace load, the constructor of
    the entries accepts each of them and the synonyms cannot be built,
    the generator has yielded all name entries, and yet the index is
    the one built without that namespace. *)
Theorem get_grounder_drops_partial_namespace (p : string) names :
  get_id_name_mapping E p = Ok names ->
  get_id_synonyms_mapping E p = Raise NoBuild ->
  texts_accepted E names.*2 ->
  yielded (get_gilda_terms E p (in_unnamed unnamed p))
  = map (fun '(i, n) => gilda.Build (normalize E n) n p i (Some n) "name" p) names
  ∧ ∀ ps1 ps2,
      get_grounder E (ManyPrefixes (ps1 ++ p :: ps2)) unnamed
      = get_grounder E (ManyPrefixes (ps1 ++ ps2)) unnamed.
Proof.
  intros Hn Hs Hacc.
  assert (get_gilda_terms E p (in_unnamed unnamed p)
          = Gen (name_entries E p names) (Some NoBuild)) as Hgen.
  { unfold get_gilda_terms. rewrite Hn, Hs. simpl.
    rewrite name_pass_ok, gen_seq_ok by done. simpl.
    by rewrite app_nil_r. }
  split; [by rewrite Hgen|].
  intros ps1 ps2. unfold get_grounder. simpl prefix_list.
  rewrite (collect_terms_filter _ _ _ (ps1 ++ p :: ps2)).
  rewrite (collect_terms_filter _ _ _ (ps1 ++ ps2)).
  rewrite !filter_app, filter_cons, decide_False; [done|].
  unfold unavailable, namespace_terms. by rewrite Hgen.
Qed.

(** The terms gathered by the loop come from the start value or from a
    namespace that was built. *)
Lemma collect_terms_origin (acc terms : list gilda.Term) (ps : list string)
    (t : gilda.Term) :
  collect_terms E unnamed acc ps = Ok terms -> t ∈ terms ->
  t ∈ acc ∨ ∃ p ts, p ∈ ps ∧ namespace_terms E unnamed p = Ok ts ∧ t ∈ ts.
Proof.
  revert acc. induction ps as [|p ps IH]; intros acc Hc Ht.
  - injection Hc as <-. by left.
  - rewrite collect_terms_cons in Hc.
    destruct (namespace_terms E unnamed p) as [ts|e] eqn:Hp.
    + destruct (IH _ Hc Ht) as [[?|?]%elem_of_app|(q & ts' & ? & ? & ?)].
      * by left.
      * right. exists p, ts. split; [left|done].
      * right. exists q, ts'. split; [by right|done].
    + destruct e; try done.
      destruct (IH _ Hc Ht) as [?|(q & ts' & ? & ? & ?)]; [by left|].
      right. exists q, ts'. split; [by right|done].
Qed.

(** X3. Every entry of the index belongs to a requested namespace: its
    [db] is one of the requested prefixes and equals its [source], and
    it has no entry name exactly when it is an [identifier] entry. *)
Theorem get_grounder_entries_tagged (prefix : prefix_arg) (g : gilda.Grounder)
    (t : gilda.Term) :
  get_grounder E prefix unnamed = Ok g -> gilda.in_index g t ->
  gilda.db t ∈ prefix_list prefix
  ∧ gilda.source t = gilda.db t
  ∧ (gilda.entry_name t = None ↔ gilda.status t = "identifier").
Proof.
  unfold get_grounder. intros Hg Ht.
  destruct (collect_terms E unnamed [] (prefix_list prefix)) as [terms|] eqn:Hc;
    simpl in Hg; [|done].
  injection Hg as <-. apply in_index_multidict in Ht.
  apply (proj1 (filter_out_duplicates_spec _ _)) in Ht.
  destruct (collect_terms_origin _ _ _ _ Hc Ht)
    as [?%elem_of_nil|(p & ts & Hp & Hts & Hin)]; [done|].
  unfold namespace_terms, to_list in Hts.
  destruct (raised _); [done|]. injection Hts as <-.
  apply get_gilda_terms_yielded in Hin
    as [(? & i & n & _ & _ & ->)|[(? & i & n & s & _ & _ & ->)|(_ & i & ->)]];
    simpl; done.
Qed.

End get_grounder_more.

(** Run of [get_grounder_raises_other]: [demo] is built, [orphan]
    raises [KeyError], and the build ends with [KeyError]. *)
Lemma get_grounder_raises_other_witness :
  gilda_utils.get_grounder examples.demo_env
    (gilda_utils.ManyPrefixes (["demo"] ++ "orphan" :: ["nobuild"])) None
  = Raise KeyError.
Proof.
  apply get_grounder_raises_other; [discriminate|reflexivity|].
  intros q Hq. apply list_elem_of_singleton in Hq as ->. right. by eexists.
Defined.

(** Run of [get_grounder_drops_partial_namespace] on [half]: its name
    entry was yielded, and the index is the one of [demo] alone. *)
Lemma get_grounder_drops_partial_namespace_witness :
  yielded (gilda_utils.get_gilda_terms more_examples.half_env "half" false)
  = [gilda.Build "SEVEN" "Seven" "half" "7" (Some "Seven") "name" "half"]
  ∧ gilda_utils.get_grounder more_examples.half_env
      (gilda_utils.ManyPrefixes (["demo"] ++ "half" :: [])) None
    = gilda_utils.get_grounder more_examples.half_env
        (gilda_utils.ManyPrefixes (["demo"] ++ [])) None.
Proof.
  destruct (get_grounder_drops_partial_namespace more_examples.half_env None
              "half" [("7", "Seven")] eq_refl eq_refl) as [Hy Hg].
  - intros s Hs. apply list_elem_of_singleton in Hs as ->. reflexivity.
  - split; [exact Hy|apply Hg].
Defined.

(** Run of [get_grounder_entries_tagged] on the index of [demo]. *)
Lemma get_grounder_entries_tagged_witness :
  gilda.db more_examples.bar_term ∈ ["demo"]
  ∧ gilda.source more_examples.bar_term = gilda.db more_examples.bar_term.
Proof.
  destruct (get_grounder_entries_tagged examples.demo_env None
              (gilda_utils.OnePrefix "demo") more_examples.demo_grounder
              more_examples.bar_term) as (Hdb & Hsrc & _).
  - by vm_compute.
  - exists "BAR", [more_examples.bar_term]. split; [by vm_compute|left].
  - split; [exact Hdb|exact Hsrc].
Defined.

(** ** More on identifier normalization *)

Lemma string_app_assoc (a b c : string) : (a +:+ b) +:+ c = a +:+ b +:+ c.
Proof.
  induction a as [|x a IH]; [done|].
  change (String x (a +:+ b) +:+ c = String x (a +:+ b +:+ c)).
  change (String x ((a +:+ b) +:+ c) = String x (a +:+ b +:+ c)). by rewrite IH.
Qed.

Section normalize_identifier_more.

Import gilda_utils.

Variable E : env.

Lemma normalize_identifier_prefixed (p x : string) :
  (∀ b, get_banana E p = Some b -> b ≠ "" ->
        startswith (normalize_identifier E p x) b = true)
  ∧ (truthy (get_banana E p) = false -> namespace_in_lui E p = true ->
     startswith (normalize_identifier E p x) (upper p +:+ ":") = true)
  ∧ ∃ pre, normalize_identifier E p x = pre +:+ x.
Proof.
  split; [|split].
  - intros b Hb Hne. rewrite (normalize_identifier_banana E p x b Hb Hne).
    destruct (startswith x b) eqn:Hx; [done|]. apply startswith_app_assoc.
  - intros Hb Hl. rewrite normalize_identifier_lui by done.
    unfold prepend_unless_present.
    destruct (startswith x (upper p +:+ ":")) eqn:Hx; [done|]. apply startswith_app.
  - destruct (truthy (get_banana E p)) eqn:Hb.
    + destruct (truthy_Some _ Hb) as (c & b & Hsome).
      rewrite (normalize_identifier_banana E p x _ Hsome) by done.
      destruct (startswith x (String c b)).
      * by exists "".
      * exists (String c b +:+ ":"). by rewrite string_app_assoc.
    + destruct (namespace_in_lui E p) eqn:Hl.
      * rewrite normalize_identifier_lui by done. unfold prepend_unless_present.
        destruct (startswith x (upper p +:+ ":")); [by exists ""|by eexists].
      * rewrite normalize_identifier_plain by done. by exists "".
Qed.

(** X5. The normalized identifier starts with the banana of the namespace
    (with the upper-cased namespace and a colon when the namespace is
    embedded instead), and it always ends with the identifier it was
    made from: nothing but a prefix is ever added. *)
Theorem normalize_identifier_carries_prefix (p x : string) :
  (∀ b, get_banana E p = Some b -> b ≠ "" ->
        startswith (normalize_identifier E p x) b = true)
  ∧ (truthy (get_banana E p) = false -> namespace_in_lui E p = true ->
     startswith (normalize_identifier E p x) (upper p +:+ ":") = true)
  ∧ ∃ pre, normalize_identifier E p x = pre +:+ x.
Proof. exact (normalize_identifier_prefixed p x). Qed.

(** An identifier that carries the prefix is left alone. *)
Lemma normalize_identifier_fixed (p x : string) :
  normalize_identifier E p (normalize_identifier E p x) = normalize_identifier E p x.
Proof.
  destruct (normalize_identifier_prefixed p x) as (Hban & Hlui & _).
  destruct (truthy (get_banana E p)) eqn:Hb.
  - destruct (truthy_Some _ Hb) as (c & b & Hsome).
    rewrite (normalize_identifier_banana E p (normalize_identifier E p x) _ Hsome) by done.
    by rewrite (Hban _ Hsome).
  - destruct (namespace_in_lui E p) eqn:Hl.
    + rewrite (normalize_identifier_lui E p (normalize_identifier E p x)) by done.
      unfold prepend_unless_present at 1. by rewrite Hlui.
    + by rewrite !normalize_identifier_plain.
Qed.

End normalize_identifier_more.

(** Run of [normalize_identifier_carries_prefix] on [go] and [doid]. *)
Lemma normalize_identifier_carries_prefix_witness :
  startswith (gilda_utils.normalize_identifier examples.banana_env "go" "0000001") "GO"
  = true
  ∧ startswith (gilda_utils.normalize_identifier examples.banana_env "doid" "4") "DOID:"
    = true.
Proof.
  split.
  - apply (proj1 (normalize_identifier_carries_prefix examples.banana_env "go" "0000001")
             "GO"); [reflexivity|discriminate].
  - apply (proj1 (proj2 (normalize_identifier_carries_prefix examples.banana_env
                           "doid" "4"))); reflexivity.
Defined.

(** ** Prediction tuples ([iter_gilda_prediction_tuples]) *)

Lemma lower_ascii_idempotent (c : ascii) : lower_ascii (lower_ascii c) = lower_ascii c.
Proof. destruct c as [[] [] [] [] [] [] [] []]; reflexivity. Qed.

Lemma lower_idempotent (s : string) : lower (lower s) = lower s.
Proof.
  induction s as [|c s IH]; [done|].
  simpl. by rewrite lower_ascii_idempotent, IH.
Qed.

Section prediction_facts.

Import gilda_utils gilda_predictions.

Context {S : Type}.

Variable E : env.
Variable ground : gilda.Grounder -> string -> list (ScoredMatch S).
Variable api_grounder : gilda.Grounder.

(** Where a yielded tuple comes from. *)
Lemma prediction_origin (prefix relation : string) (grounder : option gilda.Grounder)
    (flag : bool) (t : prediction S) :
  t ∈ yielded (iter_gilda_prediction_tuples E ground api_grounder prefix relation
                 grounder flag) ->
  ∃ names i n m, get_id_name_mapping E prefix = Ok names
    ∧ t = match_tuple E prefix i n relation m
    ∧ ((i, n) ∈ names ∨ (flag = true ∧ n = i)).
Proof.
  unfold iter_gilda_prediction_tuples.
  destruct (get_id_name_mapping E prefix) as [names|e]; simpl;
    [|by intros ?%elem_of_nil].
  intros [Ht|Ht]%gen_seq_yielded.
  - apply gen_for_yielded in Ht as ([i n] & Hin & Ht).
    rewrite gen_for_yield in Ht. simpl in Ht.
    apply list_elem_of_fmap in Ht as (m & -> & _).
    exists names, i, n, m. split; [done|]. split; [done|]. by left.
  - destruct flag; [|by apply elem_of_nil in Ht].
    destruct (get_ids E prefix) as [ids|e]; simpl in Ht; [|by apply elem_of_nil in Ht].
    apply gen_for_yielded in Ht as (i & Hin & Ht).
    rewrite gen_for_yield in Ht. simpl in Ht.
    apply list_elem_of_fmap in Ht as (m & -> & _).
    exists names, i, i, m. split; [done|]. split; [done|]. by right.
Qed.

(** X6. Every prediction names the source namespace and the relation it
    was asked for and the method [lexical]; its target prefix is in
    lower case, and its target identifier is already normalized for
    that prefix. *)
Theorem prediction_tuples_normalized (prefix relation : string)
    (grounder : option gilda.Grounder) (flag : bool) (t : prediction S) :
  t ∈ yielded (iter_gilda_prediction_tuples E ground api_grounder prefix relation
                 grounder flag) ->
  source_prefix t = prefix
  ∧ gilda_predictions.relation t = relation
  ∧ method t = "lexical"
  ∧ lower (target_prefix t) = target_prefix t
  ∧ normalize_identifier E (target_prefix t) (target_identifier t) = target_identifier t.
Proof.
  intros (names & i & n & m & _ & -> & _)%prediction_origin. simpl.
  repeat split; [apply lower_idempotent|apply normalize_identifier_fixed].
Qed.

(** X7. Without the flag the identifiers are never used as texts: every
    prediction pairs an identifier with its name, and the generator
    ends normally whatever [get_ids] would do. *)
Theorem prediction_tuples_names_only (prefix relation : string)
    (grounder : option gilda.Grounder) names :
  get_id_name_mapping E prefix = Ok names ->
  raised (iter_gilda_prediction_tuples E ground api_grounder prefix relation
            grounder false) = None
  ∧ ∀ t, t ∈ yielded (iter_gilda_prediction_tuples E ground api_grounder prefix
                        relation grounder false) ->
         (source_identifier t, source_name t) ∈ names.
Proof.
  intros Hn. split.
  - unfold iter_gilda_prediction_tuples. rewrite Hn. simpl.
    set (g := gen_for names _).
    assert (raised g = None) as Hg.
    { unfold g. clear. induction names as [|[i n] names IH]; [done|].
      simpl. rewrite gen_for_yield. by rewrite gen_seq_ok. }
    by rewrite gen_seq_ok.
  - intros t (names' & i & n & m & Hn' & -> & [Hin|[? _]])%prediction_origin; [|done].
    rewrite Hn in Hn'. by injection Hn' as <-.
Qed.

End prediction_facts.

(** Run of [prediction_tuples_normalized]: the name of identifier [1]
    of [demo] is matched to an entry of [GO]. *)
Lemma prediction_tuples_normalized_witness :
  lower "go" = "go"
  ∧ gilda_utils.normalize_identifier more_examples.half_env "go" "GO:0000001"
    = "GO:0000001".
Proof.
  destruct (prediction_tuples_normalized more_examples.half_env more_examples.ground_go
              more_examples.demo_grounder "demo" "skos:exactMatch" None false
              (gilda_predictions.MkPrediction "demo" "1" "Foo Protein" "skos:exactMatch"
                 "go" "GO:0000001" (Some "foo protein") "lexical" 1))
    as (_ & _ & _ & Hlow & Hnorm).
  - vm_compute. left.
  - split; [exact Hlow|exact Hnorm].
Defined.

(** Run of [prediction_tuples_names_only] on [demo]. *)
Lemma prediction_tuples_names_only_witness :
  raised (gilda_predictions.iter_gilda_prediction_tuples more_examples.half_env
            more_examples.ground_go more_examples.demo_grounder "demo"
            "skos:exactMatch" None false) = None.
Proof.
  apply (proj1 (prediction_tuples_names_only more_examples.half_env
                  more_examples.ground_go more_examples.demo_grounder "demo"
                  "skos:exactMatch" None [("1", "Foo Protein"); ("2", "Bar")] eq_refl)).
Defined.

(** ** More on typedefs and the registry *)

Section typedef_more.

Import typedef.

Variable normalize_curie : string -> result (option string * option string).

(** X8. A typedef made by [from_curie] and the curie string it was made
    from resolve to the same pair when used as relation hints, except
    for a string that is no curie: the typedef made from it is accepted
    with an empty prefix, while the string itself is rejected. *)
Theorem from_curie_hint_agrees (curie : string) (name : option string) (t : TypeDef) :
  from_curie normalize_curie curie name = Ok t ->
  get_reference_tuple normalize_curie (HintTypeDef t) = Ok (pair t)
  ∧ (prefix t ≠ None ->
     get_reference_tuple normalize_curie (HintStr curie) = Ok (pair t))
  ∧ (prefix t = None ->
     get_reference_tuple normalize_curie (HintStr curie) = Raise ValueError).
Proof.
  unfold from_curie. intros Ht.
  destruct (normalize_curie curie) as [[p i]|e] eqn:Hnc; simpl in Ht; [|done].
  injection Ht as <-. split; [done|]. cbn [get_reference_tuple]. rewrite Hnc.
  cbn. destruct p; split; done.
Qed.

(** X9. Looking a built-in typedef up by the pair that
    [get_reference_tuple] gives for it, or for its reference, returns
    that typedef, whatever was loaded from the relation ontology. *)
Theorem builtin_hint_lookup (default_prefix : string)
    (load_ro : list ((string * string) * string)) (td : TypeDef) :
  td ∈ typedef_locals default_prefix ->
  ∃ k, get_reference_tuple normalize_curie (HintTypeDef td) = Ok k
       ∧ get_reference_tuple normalize_curie (HintReference (reference td)) = Ok k
       ∧ default_typedefs default_prefix load_ro !! k = Some td.
Proof.
  intros Htd. exists (pair td). split; [done|]. split; [done|].
  apply load_ro_keeps. unfold builtin_typedefs.
  apply foldl_insert_lookup; [apply typedef_locals_NoDup|done].
Qed.

End typedef_more.

(** A list of items with pairwise distinct keys has one value per key. *)
Lemma NoDup_fst_functional {K V} (l : list (K * V)) (k : K) (v1 v2 : V) :
  NoDup l.*1 -> (k, v1) ∈ l -> (k, v2) ∈ l -> v1 = v2.
Proof.
  induction l as [|[k' v'] l IH]; intros Hnd H1 H2; [by apply elem_of_nil in H1|].
  simpl in Hnd. apply NoDup_cons in Hnd as [Hk' Hnd].
  apply elem_of_cons in H1 as [H1|H1]; apply elem_of_cons in H2 as [H2|H2].
  - congruence.
  - injection H1 as -> ->. exfalso. apply Hk'. apply list_elem_of_fmap.
    by exists (k', v2).
  - injection H2 as -> ->. exfalso. apply Hk'. apply list_elem_of_fmap.
    by exists (k', v1).
  - by apply IH.
Qed.

Section registry_more.

Import typedef.

Lemma load_ro_noop d (load_ro : list ((string * string) * string)) :
  (∀ p i n, ((p, i), n) ∈ load_ro -> is_Some (d !! (Some p, Some i))) ->
  foldl load_ro_step d load_ro = d.
Proof.
  induction load_ro as [|[[p i] n] ro IH]; intros Hall; [done|].
  cbn [foldl]. destruct (Hall p i n) as [v Hv]; [left|].
  assert (load_ro_step d (p, i, n) = d) as ->
    by (unfold load_ro_step; simpl; by rewrite Hv).
  apply IH.
  intros p' i' n' Hin. apply (Hall p' i' n'). by right.
Qed.

(** X10. The loop over the relation ontology adds nothing when all its
    pairs are registered, so running it a second time over the same
    mapping changes nothing. *)
Theorem default_typedefs_reload (default_prefix : string)
    (load_ro : list ((string * string) * string)) :
  foldl load_ro_step (default_typedefs default_prefix load_ro) load_ro
  = default_typedefs default_prefix load_ro.
Proof. apply load_ro_noop. intros p i n. apply load_ro_covers. Qed.

(** X11. The registry does not depend on the order in which the items of the
    relation ontology are met, as long as no pair occurs twice (which
    holds for the items of a dictionary). *)
Theorem default_typedefs_order (default_prefix : string)
    (ro ro' : list ((string * string) * string)) :
  NoDup ro.*1 -> ro ≡ₚ ro' ->
  default_typedefs default_prefix ro = default_typedefs default_prefix ro'.
Proof.
  intros Hnd Hperm. unfold default_typedefs. set (d := builtin_typedefs _).
  assert (∀ l l' : list ((string * string) * string), NoDup l.*1 -> l ≡ₚ l' ->
            ∀ k v, foldl load_ro_step d l !! k = Some v ->
                   foldl load_ro_step d l' !! k = Some v) as Hsub.
  { intros l l' Hl Hll' k v Hk.
    apply load_ro_origin in Hk as [Hk|(Hnone & p & i & n & Hin & -> & ->)].
    - by apply load_ro_keeps.
    - assert (((p, i), n) ∈ l') as Hin' by by rewrite <- Hll'.
      destruct (load_ro_covers d l' p i n Hin') as [v' Hv'].
      rewrite Hv'. f_equal.
      apply load_ro_origin in Hv' as [Hv'|(_ & p' & i' & n' & Hin2 & [= <- <-] & ->)];
        [congruence|].
      rewrite <- Hll' in Hin2. f_equal. f_equal.
      apply (NoDup_fst_functional l (p, i)); [done|exact Hin2|exact Hin]. }
  apply map_eq. intros k.
  destruct (foldl load_ro_step d ro !! k) as [v|] eqn:H1.
  - symmetry. by apply (Hsub ro ro').
  - destruct (foldl load_ro_step d ro' !! k) as [v|] eqn:H2; [|done].
    apply (Hsub ro' ro) in H2; [congruence| |done].
    by rewrite <- Hperm.
Qed.

End registry_more.

(** Run of [from_curie_hint_agrees] on a valid curie. *)
Lemma from_curie_hint_agrees_witness :
  typedef.get_reference_tuple examples.normalize_curie (typedef.HintStr "BFO:0000050")
  = Ok (Some "bfo", Some "0000050").
Proof.
  apply (proj1 (proj2 (from_curie_hint_agrees examples.normalize_curie "BFO:0000050" None
                         (typedef.from_triple (Some "bfo") (Some "0000050") None)
                         eq_refl))).
  discriminate.
Defined.

(** Run of [builtin_hint_lookup] on [part_of]. *)
Lemma builtin_hint_lookup_witness :
  typedef.default_typedefs "obo" examples.ro_items !! (Some "BFO", Some "0000050")
  = Some typedef.part_of.
Proof.
  destruct (builtin_hint_lookup examples.normalize_curie "obo" examples.ro_items
              typedef.part_of) as (k & Hk & _ & Hlookup).
  - apply (list_elem_of_lookup_2 _ 2). reflexivity.
  - injection Hk as <-. exact Hlookup.
Defined.

(** Run of [default_typedefs_order] on a mapping and its reverse. *)
Lemma default_typedefs_order_witness :
  typedef.default_typedefs "obo" examples.ro_items
  = typedef.default_typedefs "obo" (reverse examples.ro_items).
Proof.
  apply default_typedefs_order.
  - apply (bool_decide_unpack _). by vm_compute.
  - apply Permutation_swap.
Defined.

Section inverse_facts.

Import typedef.

(** Search of the built-in typedefs by position. *)
Ltac pick_local n fuel :=
  lazymatch fuel with
  | O => fail
  | S ?fuel' =>
      first [ eexists; split;
              [apply (list_elem_of_lookup_2 _ n); reflexivity | reflexivity]
            | pick_local (S n) fuel' ]
  end.

Lemma inverse_is_local (default_prefix : string) (td : TypeDef) (r : reference.Reference) :
  td ∈ typedef_locals default_prefix -> inverse td = Some r ->
  ∃ td', td' ∈ typedef_locals default_prefix ∧ reference td' = r.
Proof.
  intros Htd Hinv. unfold typedef_locals in Htd.
  repeat (apply elem_of_cons in Htd as [->|Htd]);
    try (by apply elem_of_nil in Htd);
    simpl in Hinv; try discriminate Hinv;
    injection Hinv as <-; pick_local 0 26.
Qed.

(** X12. The built-in vocabulary is closed under inverses: the inverse named
    by a built-in typedef is registered, and the typedef registered for
    it is a built-in one with that very reference (same name
    included), whatever was loaded from the relation ontology. *)
Theorem builtin_inverse_registered (default_prefix : string)
    (load_ro : list ((string * string) * string)) (td : TypeDef)
    (r : reference.Reference) :
  td ∈ typedef_locals default_prefix -> inverse td = Some r ->
  ∃ td', default_typedefs default_prefix load_ro !! reference.pair r = Some td'
         ∧ reference td' = r
         ∧ td' ∈ typedef_locals default_prefix.
Proof.
  intros Htd Hinv.
  destruct (inverse_is_local default_prefix td r Htd Hinv) as (td' & Htd' & <-).
  exists td'. split; [|done].
  apply load_ro_keeps. unfold builtin_typedefs.
  by apply (foldl_insert_lookup pair); [apply typedef_locals_NoDup|].
Qed.

End inverse_facts.

(** Run of [builtin_inverse_registered] on [has_gene_product]. *)
Lemma builtin_inverse_registered_witness :
  ∃ td', typedef.default_typedefs "obo" examples.ro_items !! (Some "RO", Some "0002204")
         = Some td'
         ∧ typedef.reference td' = reference.Ref "RO" "0002204" "gene product of".
Proof.
  destruct (builtin_inverse_registered "obo" examples.ro_items typedef.has_gene_product
              (reference.Ref "RO" "0002204" "gene product of"))
    as (td' & Hlookup & Href & _).
  - apply (list_elem_of_lookup_2 _ 16). reflexivity.
  - reflexivity.
  - exists td'. split; [exact Hlookup|exact Href].
Defined.

(** ** The OBO stanza of a typedef ([iterate_obo_lines]) *)

Section obo_facts.

Import typedef typedef_obo.

Variable reference_str : reference.Reference -> string.

Lemma filter_tagged_other (tag tag' : string) (o : option string) :
  (∀ s, startswith (tag +:+ s) tag' = false) ->
  filter (fun l => startswith l tag' = true) (tagged tag o) = [].
Proof.
  intros H. unfold tagged. destruct (truthy o); [|done].
  rewrite filter_cons, decide_False; [done|]. by rewrite H.
Qed.

Lemma filter_flagged_other (tag tag' : string) (o : option bool) :
  (∀ s, startswith (tag +:+ s) tag' = false) ->
  filter (fun l => startswith l tag' = true) (flagged tag o) = [].
Proof.
  intros H. unfold flagged. destruct o; [|done].
  rewrite filter_cons, decide_False; [done|]. by rewrite H.
Qed.

Lemma filter_xrefs_other (tag' : string) (l : list reference.Reference) :
  (∀ s, startswith ("xref: " +:+ s) tag' = false) ->
  filter (fun l => startswith l tag' = true)
         (map (fun xref => "xref: " +:+ reference_str xref) l) = [].
Proof.
  intros H. induction l as [|x l IH]; [done|].
  simpl. rewrite filter_cons, decide_False; [done|]. by rewrite H.
Qed.

(** X13. The stanza of a typedef starts with the [[Typedef]] line, has one
    [id:] line and no more, which holds the curie of the typedef, and
    has at most one [name:] line. *)
Theorem iterate_obo_lines_stanza (t : TypeDef) :
  head (iterate_obo_lines reference_str t) = Some (String "010"%char "[Typedef]")
  ∧ filter (fun l => startswith l "id: " = true) (iterate_obo_lines reference_str t)
    = ["id: " +:+ curie (reference t)]
  ∧ (length (filter (fun l => startswith l "name: " = true)
               (iterate_obo_lines reference_str t)) ≤ 1)%nat.
Proof.
  split; [done|]. unfold iterate_obo_lines. split.
  - rewrite !filter_app.
    rewrite !filter_tagged_other, !filter_flagged_other, filter_xrefs_other by done.
    rewrite !app_nil_r. rewrite !filter_cons, filter_nil.
    rewrite decide_False by done. by rewrite decide_True by done.
  - rewrite !filter_app.
    rewrite (filter_tagged_other "namespace: "), (filter_tagged_other "comment: "),
      !filter_flagged_other, filter_xrefs_other by done.
    rewrite !app_nil_r. rewrite !filter_cons, filter_nil.
    rewrite !decide_False by done. simpl.
    unfold tagged. destruct (truthy _); [|simpl; lia].
    rewrite filter_cons. case_decide; simpl; lia.
Qed.

End obo_facts.

(** ** White space *)

Lemma lstrip_starts_clean (s : string) : starts_clean (lstrip s).
Proof.
  induction s as [|c s IH]; [done|].
  simpl. by destruct (is_space c) eqn:Hc.
Qed.

Lemma starts_clean_lstrip (s : string) : starts_clean s -> lstrip s = s.
Proof. destruct s as [|c s]; [done|]. simpl. by intros ->. Qed.

Lemma rstrip_starts_clean (s : string) : starts_clean s -> starts_clean (rstrip s).
Proof.
  destruct s as [|c s]; [done|]. simpl. intros Hc.
  destruct (rstrip s); [by rewrite Hc|done].
Qed.

Lemma rstrip_rstrip (s : string) : rstrip (rstrip s) = rstrip s.
Proof.
  induction s as [|c s IH]; [done|].
  simpl. destruct (rstrip s) as [|d r] eqn:Hr.
  - destruct (is_space c) eqn:Hc; [done|]. simpl. by rewrite Hc.
  - change (rstrip (String c (String d r)))
      with (match rstrip (String d r) with
            | EmptyString => if is_space c then EmptyString else String c EmptyString
            | r' => String c r'
            end).
    by rewrite IH.
Qed.

(** Stripping twice is stripping once. *)
Lemma strip_strip (s : string) : strip (strip s) = strip s.
Proof.
  unfold strip.
  rewrite (starts_clean_lstrip (rstrip (lstrip s)))
    by apply rstrip_starts_clean, lstrip_starts_clean.
  apply rstrip_rstrip.
Qed.

(** ** More on the MeSH adapter *)

Section dict_more.

Context {K V : Type} `{EqDecision K}.

Lemma dict_elem_get (d : dict K V) (k : K) (v : V) :
  dict_wf d -> (k, v) ∈ d -> dict_get d k = Some v.
Proof.
  unfold dict_wf. induction d as [|[k' v'] d IH]; intros Hwf Hin;
    [by apply elem_of_nil in Hin|].
  simpl in *. apply NoDup_cons in Hwf as [Hk' Hwf].
  apply elem_of_cons in Hin as [[= -> ->]|Hin]; [by rewrite decide_True|].
  rewrite decide_False; [by apply IH|].
  intros ->. apply Hk'. apply list_elem_of_fmap. by exists (k, v).
Qed.

Lemma dict_values_get (d : dict K V) (v : V) :
  dict_wf d -> v ∈ dict_values d -> ∃ k, dict_get d k = Some v.
Proof.
  intros Hwf ([k v'] & -> & Hin)%list_elem_of_fmap. exists k. by apply dict_elem_get.
Qed.

Lemma dict_get_values (d : dict K V) (k : K) (v : V) :
  dict_get d k = Some v -> v ∈ dict_values d.
Proof.
  intros H%dict_get_elem. apply list_elem_of_fmap. by exists (k, v).
Qed.

Lemma dict_get_set (d : dict K V) (k k' : K) (v : V) :
  dict_get (dict_set d k v) k' = if decide (k = k') then Some v else dict_get d k'.
Proof.
  case_decide as Hk; [subst; apply dict_get_set_eq|by apply dict_get_set_ne].
Qed.

End dict_more.

Lemma mapM_Forall2 {A B} (f : A -> result B) (l : list A) (ys : list B) :
  mapM f l = Ok ys -> Forall2 (fun x y => f x = Ok y) l ys.
Proof.
  revert ys. induction l as [|x l IH]; intros ys; simpl.
  - intros [= <-]. constructor.
  - destruct (f x) as [y|] eqn:Hx; simpl; [|done].
    destruct (mapM f l) as [ys'|]; simpl; [|done].
    intros [= <-]. constructor; [done|by apply IH].
Qed.

Lemma mapM_ext {A B} (f g : A -> result B) (l : list A) :
  (∀ x, x ∈ l -> f x = g x) -> mapM f l = mapM g l.
Proof.
  induction l as [|x l IH]; intros H; [done|].
  simpl. rewrite (H x) by left. rewrite IH; [done|]. intros y Hy. apply H. by right.
Qed.

Section mesh_more.

Import mesh.

Lemma set_parents_twice (t : struct.Term) ps ps' :
  struct.set_parents (struct.set_parents t ps) ps' = struct.set_parents t ps'.
Proof. reflexivity. Qed.

Lemma set_parents_same (t : struct.Term) : struct.set_parents t (struct.parents t) = t.
Proof. by destruct t. Qed.

Lemma last_record_cons (k : string) (e : entry) (l : list entry) :
  last_record k (e :: l)
  = match last_record k l with
    | Some e' => Some e'
    | None => if decide (identifier e = k) then Some e else None
    end.
Proof.
  unfold last_record. rewrite filter_cons.
  case_decide; [apply last_cons|by destruct (last _)].
Qed.

Lemma last_record_Some (k : string) (l : list entry) (e : entry) :
  last_record k l = Some e -> identifier e = k ∧ e ∈ l.
Proof.
  unfold last_record. intros H%last_Some_elem_of.
  by apply list_elem_of_filter in H.
Qed.

Lemma last_record_None (k : string) (l : list entry) :
  last_record k l = None ↔ k ∉ identifier <$> l.
Proof.
  unfold last_record. rewrite last_None. split.
  - intros H (e & -> & He)%list_elem_of_fmap.
    by apply (filter_nil_not_elem_of _ _ e H).
  - intros H. destruct (filter _ l) as [|e fl] eqn:Hf; [done|].
    exfalso. assert (e ∈ filter (fun e => identifier e = k) l) as He
      by (rewrite Hf; left).
    apply list_elem_of_filter in He as [<- He]. apply H.
    apply list_elem_of_fmap. by exists e.
Qed.

(** First loop: the term stored under a key is that of the last record
    with that identifier. *)
Lemma fill_terms_get (l : list entry) (d : dict string struct.Term) (k : string) :
  dict_get (foldl (fun d e => dict_set d (identifier e) (entry_term e)) d l) k
  = match last_record k l with
    | Some e => Some (entry_term e)
    | None => dict_get d k
    end.
Proof.
  revert d. induction l as [|e l IH]; intros d; [done|].
  cbn [foldl]. rewrite IH, last_record_cons.
  destruct (last_record k l); [done|]. rewrite dict_get_set. by case_decide.
Qed.

Lemma set_entry_parents_get (d d1 : dict string struct.Term) (e : entry) :
  set_entry_parents d e = Ok d1 ->
  ∃ t0 ps, dict_get d (identifier e) = Some t0 ∧ parent_references d e = Ok ps
    ∧ ∀ k, dict_get d1 k
           = if decide (identifier e = k) then Some (struct.set_parents t0 ps)
             else dict_get d k.
Proof.
  unfold set_entry_parents. fold (parent_references d e).
  destruct (parent_references d e) as [ps|]; simpl; [|done].
  destruct (dict_get d (identifier e)) as [t0|]; simpl; [|done].
  intros [= <-]. exists t0, ps. split; [done|]. split; [done|].
  intros k. apply dict_get_set.
Qed.

Lemma parent_references_ext (d d1 : dict string struct.Term) (e : entry) :
  (∀ k, struct.reference <$> dict_get d1 k = struct.reference <$> dict_get d k) ->
  parent_references d1 e = parent_references d e.
Proof.
  intros H. unfold parent_references. apply mapM_ext. intros pid _.
  specialize (H pid). destruct (dict_get d1 pid), (dict_get d pid); simpl in *;
    congruence.
Qed.

(** Second loop: the term under a key gets the parents of the last
    descriptor with that identifier, looked up among the terms as they
    were before the loop; a key that is no descriptor is left alone. *)
Lemma set_parents_loop_get (l : list entry) (d d' : dict string struct.Term) (k : string) :
  foldM set_entry_parents d l = Ok d' ->
  match last_record k l with
  | Some e => ∃ t0 ps, dict_get d k = Some t0 ∧ parent_references d e = Ok ps
                       ∧ dict_get d' k = Some (struct.set_parents t0 ps)
  | None => dict_get d' k = dict_get d k
  end.
Proof.
  revert d. induction l as [|e l IH]; intros d Hloop.
  - simpl in Hloop. by injection Hloop as <-.
  - simpl in Hloop.
    destruct (set_entry_parents d e) as [d1|] eqn:Hstep; simpl in Hloop; [|done].
    destruct (set_entry_parents_get _ _ _ Hstep) as (t0 & ps0 & Ht0 & Hps0 & Hd1).
    assert (∀ k, struct.reference <$> dict_get d1 k = struct.reference <$> dict_get d k)
      as Href.
    { intros k'. rewrite Hd1. case_decide; [|done]. subst. by rewrite Ht0. }
    specialize (IH d1 Hloop). rewrite last_record_cons.
    destruct (last_record k l) as [e'|].
    + destruct IH as (t1 & ps1 & Ht1 & Hps1 & Hd').
      rewrite (parent_references_ext d d1) in Hps1 by done.
      rewrite Hd1 in Ht1. case_decide as Hk.
      * subst k. injection Ht1 as <-. exists t0, ps1. by rewrite Hd', set_parents_twice.
      * by exists t1, ps1.
    + rewrite IH, Hd1. case_decide; [|done]. subst k. by exists t0, ps0.
Qed.

(** The dictionary from which [get_terms] takes its result. *)
Lemma get_terms_dict (descriptors supplemental_records : list entry) ts :
  get_terms descriptors supplemental_records = Ok ts ->
  ∃ d', foldM set_entry_parents
          (foldl (fun d e => dict_set d (identifier e) (entry_term e)) []
                 (descriptors ++ supplemental_records)) descriptors = Ok d'
        ∧ dict_wf d' ∧ ts = dict_values d'.
Proof.
  unfold get_terms. intros Hts.
  destruct (foldM _ _ descriptors) as [d'|] eqn:Hloop; simpl in Hts; [|done].
  injection Hts as <-. exists d'. split; [done|]. split; [|done].
  destruct (fill_terms_inv (descriptors ++ supplemental_records) [])
    as (Hwf & Hkey & _); [apply NoDup_nil_2|by intros ? ? ?%elem_of_nil|].
  by destruct (set_parents_loop_inv _ _ _ Hloop Hwf Hkey).
Qed.

Lemma get_terms_origin (descriptors supplemental_records : list entry) ts
    (t : struct.Term) :
  get_terms descriptors supplemental_records = Ok ts -> t ∈ ts ->
  ∃ e, last_record (identifier e) (descriptors ++ supplemental_records) = Some e
       ∧ struct.reference t = reference.Ref PREFIX (identifier e) (name e)
       ∧ struct.definition t = struct.definition (entry_term e)
       ∧ struct.synonyms t = struct.synonyms (entry_term e).
Proof.
  intros (d' & Hloop & Hwf & ->)%get_terms_dict Ht.
  destruct (dict_values_get d' t Hwf Ht) as [k Hk].
  pose proof (set_parents_loop_get _ _ _ k Hloop) as Hget.
  assert (∃ t0, dict_get (foldl (fun d e => dict_set d (identifier e) (entry_term e)) []
                            (descriptors ++ supplemental_records)) k = Some t0
                ∧ ∃ ps, t = struct.set_parents t0 ps) as (t0 & Ht0 & ps & ->).
  { destruct (last_record k descriptors).
    - destruct Hget as (t0 & ps & Ht0 & _ & Hd'). exists t0. split; [done|].
      exists ps. congruence.
    - exists t. split; [congruence|]. exists (struct.parents t).
      by rewrite set_parents_same. }
  rewrite fill_terms_get in Ht0.
  destruct (last_record k (descriptors ++ supplemental_records)) as [e|] eqn:He;
    [|done].
  injection Ht0 as <-. exists e.
  destruct (last_record_Some _ _ _ He) as [<- _]. by rewrite He.
Qed.

(** X14. Each returned term is built from the last record that carries its
    identifier: its name, definition and synonyms are those of that
    record, so a supplemental record that reuses the identifier of a
    descriptor replaces the descriptor. *)
Theorem get_terms_last_record (descriptors supplemental_records : list entry) ts
    (t : struct.Term) :
  get_terms descriptors supplemental_records = Ok ts -> t ∈ ts ->
  ∃ e, last_record (identifier e) (descriptors ++ supplemental_records) = Some e
       ∧ struct.reference t = reference.Ref PREFIX (identifier e) (name e)
       ∧ struct.definition t = struct.definition (entry_term e)
       ∧ struct.synonyms t = struct.synonyms (entry_term e).
Proof. exact (get_terms_origin descriptors supplemental_records ts t). Qed.

End mesh_more.

Section mesh_terms_facts.

Import mesh.

(** A returned term sits in the final dictionary under its own
    identifier, and was made from the term that the first loop stored
    there. *)
Lemma get_terms_term (descriptors supplemental_records : list entry) ts
    (t : struct.Term) (k : string) :
  get_terms descriptors supplemental_records = Ok ts -> t ∈ ts ->
  struct.identifier t = Some k ->
  ∃ d' e, foldM set_entry_parents
            (foldl (fun d e => dict_set d (identifier e) (entry_term e)) []
                   (descriptors ++ supplemental_records)) descriptors = Ok d'
          ∧ dict_get d' k = Some t
          ∧ last_record k (descriptors ++ supplemental_records) = Some e
          ∧ ∃ ps, t = struct.set_parents (entry_term e) ps.
Proof.
  intros Hts Ht Hid.
  destruct (get_terms_dict _ _ _ Hts) as (d' & Hloop & Hwf & ->).
  destruct (dict_values_get d' t Hwf Ht) as [k' Hk'].
  pose proof (set_parents_loop_get _ _ _ k' Hloop) as Hget.
  assert (∃ t0 ps, dict_get (foldl (fun d e => dict_set d (identifier e) (entry_term e))
                               [] (descriptors ++ supplemental_records)) k' = Some t0
                   ∧ t = struct.set_parents t0 ps) as (t0 & ps & Ht0 & ->).
  { destruct (last_record k' descriptors).
    - destruct Hget as (t0 & ps & Ht0 & _ & Hd'). exists t0, ps. split; congruence.
    - exists t, (struct.parents t). split; [congruence|by rewrite set_parents_same]. }
  rewrite fill_terms_get in Ht0.
  destruct (last_record k' (descriptors ++ supplemental_records)) as [e|] eqn:He;
    [|done].
  injection Ht0 as <-. destruct (last_record_Some _ _ _ He) as [Hek _].
  assert (k' = k) as -> by (cbn in Hid; congruence).
  exists d', e. split; [done|]. split; [done|]. split; [done|]. by exists ps.
Qed.

(** X15. The parents of a returned term are the references of the parents
    listed by the last descriptor with its identifier, each with the
    MeSH prefix and the name of the last record of that parent; a term
    whose identifier is that of no descriptor has no parents. *)
Theorem get_terms_parents (descriptors supplemental_records : list entry) ts
    (t : struct.Term) (k : string) :
  get_terms descriptors supplemental_records = Ok ts -> t ∈ ts ->
  struct.identifier t = Some k ->
  match last_record k descriptors with
  | Some e =>
      Forall2 (fun pid r =>
                 ∃ ep, last_record pid (descriptors ++ supplemental_records) = Some ep
                       ∧ r = reference.Ref PREFIX pid (name ep))
              (parents e) (struct.parents t)
  | None => struct.parents t = []
  end.
Proof.
  intros Hts Ht Hid.
  destruct (get_terms_term _ _ _ _ _ Hts Ht Hid) as (d' & e0 & Hloop & Hk & He0 & ps & ->).
  pose proof (set_parents_loop_get _ _ _ k Hloop) as Hget.
  destruct (last_record k descriptors) as [e|].
  - destruct Hget as (t0 & ps' & _ & Hps' & Hd'). rewrite Hd' in Hk.
    assert (ps = ps') as <-.
    { apply (inj Some), (f_equal struct.parents) in Hk. simpl in Hk. congruence. }
    simpl. apply mapM_Forall2 in Hps'.
    eapply Forall2_impl; [exact Hps'|]. intros pid r Hr. simpl in Hr.
    rewrite fill_terms_get in Hr.
    destruct (last_record pid (descriptors ++ supplemental_records)) as [ep|] eqn:Hep;
      simpl in Hr; [|done].
    injection Hr as <-. exists ep. split; [done|].
    by destruct (last_record_Some _ _ _ Hep) as [<- _].
  - rewrite Hget, fill_terms_get, He0 in Hk.
    apply (inj Some), (f_equal struct.parents) in Hk. simpl in Hk. by rewrite <- Hk.
Qed.




Lemma get_scope_note_None (cs : list concept_record) :
  get_scope_note cs = None ↔ ∀ c, c ∈ cs -> ScopeNote c = None.
Proof.
  induction cs as [|c cs IH]; simpl.
  - split; [by intros _ c ?%elem_of_nil|done].
  - destruct (ScopeNote c) eqn:Hc.
    + split; [done|]. intros H. specialize (H c). rewrite Hc in H.
      discriminate H. left.
    + rewrite IH. split.
      * intros H c' [->|?]%elem_of_cons; [done|by apply H].
      * intros H c' Hc'. apply H. by right.
Qed.

Lemma get_scope_note_stripped (cs : list concept_record) (s : string) :
  get_scope_note cs = Some s -> strip s = s.
Proof.
  induction cs as [|c cs IH]; simpl; [done|].
  destruct (ScopeNote c); [|done]. intros [= <-]. apply strip_strip.
Qed.

Lemma get_scope_note_first (cs1 cs2 : list concept_record) (c : concept_record)
    (s : string) :
  (∀ c', c' ∈ cs1 -> ScopeNote c' = None) -> ScopeNote c = Some s ->
  get_scope_note (cs1 ++ c :: cs2) = Some (strip (replace_backslash_n s)).
Proof.
  intros Hnone Hc. induction cs1 as [|c1 cs1 IH]; simpl.
  - by rewrite Hc.
  - rewrite (Hnone c1) by left. apply IH. intros c' Hc'. apply Hnone. by right.
Qed.

(** X17. The definition of a returned term is the scope note of its record
    (the first one found among its concepts), which has no white space
    at either end, so that stripping it again changes nothing; it is
    the empty string exactly when no concept of the record has a scope
    note or the note found is blank.  The note found is that of the
    first concept that has one, with every backslash followed by [n]
    turned into a line feed and the white space at both ends removed. *)
Theorem get_terms_definition (descriptors supplemental_records : list entry) ts
    (t : struct.Term) :
  get_terms descriptors supplemental_records = Ok ts -> t ∈ ts ->
  ∃ e d, last_record (identifier e) (descriptors ++ supplemental_records) = Some e
         ∧ struct.definition t = Some d
         ∧ strip d = d
         ∧ d = default "" (get_scope_note (concepts e))
         ∧ ((∀ c, c ∈ concepts e -> ScopeNote c = None) -> d = "")
         ∧ reference.identifier (struct.reference t) = Some (identifier e)
         ∧ (∀ cs1 c cs2 s,
              concepts e = cs1 ++ c :: cs2 ->
              (∀ c', c' ∈ cs1 -> ScopeNote c' = None) ->
              ScopeNote c = Some s ->
              d = strip (replace_backslash_n s)).
Proof.
  intros Hts Ht.
  destruct (get_terms_origin _ _ _ _ Hts Ht) as (e & He & Href & Hdef & _).
  exists e, (strip (default "" (get_scope_note (concepts e)))).
  split; [done|]. split; [by rewrite Hdef|]. split; [apply strip_strip|].
  assert (∀ cs1 c cs2 s,
            concepts e = cs1 ++ c :: cs2 ->
            (∀ c', c' ∈ cs1 -> ScopeNote c' = None) ->
            ScopeNote c = Some s ->
            strip (default "" (get_scope_note (concepts e)))
            = strip (replace_backslash_n s)) as Hfirst.
  { intros cs1 c cs2 s -> Hnone Hc.
    rewrite (get_scope_note_first cs1 cs2 c s Hnone Hc). simpl. apply strip_strip. }
  destruct (get_scope_note (concepts e)) as [s|] eqn:Hs; simpl.
  - split; [by apply get_scope_note_stripped in Hs|].
    split; [intros Hnone%get_scope_note_None; congruence|].
    split; [by rewrite Href|]. exact Hfirst.
  - split; [done|]. split; [done|]. split; [by rewrite Href|]. exact Hfirst.
Qed.

End mesh_terms_facts.

Lemma mapM_ok_inv {A B} (f : A -> result B) (l : list A) (ys : list B) (x : A) :
  mapM f l = Ok ys -> x ∈ l -> ∃ y, f x = Ok y.
Proof.
  revert ys. induction l as [|a l IH]; intros ys Hm Hx; [by apply elem_of_nil in Hx|].
  simpl in Hm. destruct (f a) as [b|] eqn:Ha; simpl in Hm; [|done].
  destruct (mapM f l) as [bs|]; simpl in Hm; [|done].
  apply elem_of_cons in Hx as [->|Hx]; [by exists b|]. by apply (IH bs).
Qed.

Lemma mapM_raise_inv {A B} (f : A -> result B) (l : list A) (e : exn) :
  mapM f l = Raise e -> ∃ x, x ∈ l ∧ f x = Raise e.
Proof.
  induction l as [|a l IH]; simpl; [done|].
  destruct (f a) as [b|e'] eqn:Ha; simpl.
  - destruct (mapM f l) as [bs|e']; simpl; [done|].
    intros [= ->]. destruct IH as (x & Hx & Hfx); [done|].
    exists x. split; [by right|done].
  - intros [= ->]. exists a. split; [left|done].
Qed.

Section mesh_errors.

Import mesh.

Lemma set_entry_parents_raises (d : dict string struct.Term) (e : entry) (x : exn) :
  set_entry_parents d e = Raise x -> x = KeyError.
Proof.
  unfold set_entry_parents. fold (parent_references d e).
  destruct (parent_references d e) as [ps|x'] eqn:Hps; simpl.
  - destruct (dict_get d (identifier e)); simpl; [done|congruence].
  - intros [= ->]. apply mapM_raise_inv in Hps as (pid & _ & Hpid).
    destruct (dict_get d pid); simpl in Hpid; congruence.
Qed.

Lemma set_parents_loop_raises (l : list entry) (d : dict string struct.Term) (x : exn) :
  foldM set_entry_parents d l = Raise x -> x = KeyError.
Proof.
  revert d. induction l as [|e l IH]; intros d; simpl; [done|].
  destruct (set_entry_parents d e) as [d1|x'] eqn:Hstep; simpl.
  - apply IH.
  - intros [= ->]. by apply set_entry_parents_raises in Hstep.
Qed.

Lemma set_parents_loop_needs (l : list entry) (d d' : dict string struct.Term)
    (e : entry) (p : string) :
  foldM set_entry_parents d l = Ok d' -> e ∈ l -> p ∈ parents e ->
  is_Some (dict_get d p).
Proof.
  revert d. induction l as [|e0 l IH]; intros d Hloop He Hp;
    [by apply elem_of_nil in He|].
  simpl in Hloop.
  destruct (set_entry_parents d e0) as [d1|] eqn:Hstep; simpl in Hloop; [|done].
  destruct (set_entry_parents_get _ _ _ Hstep) as (t0 & ps & Ht0 & Hps & Hd1).
  apply elem_of_cons in He as [->|He].
  - destruct (mapM_ok_inv _ _ _ p Hps Hp) as [r Hr].
    destruct (dict_get d p); [by eexists|done].
  - specialize (IH d1 Hloop He Hp). rewrite Hd1 in IH.
    case_decide; [subst; by rewrite Ht0|done].
Qed.

(** X18. A descriptor that names a parent which is the identifier of no
    record makes [get_terms] fail with [KeyError]; no other exception
    can come out of it. *)
Theorem get_terms_missing_parent (descriptors supplemental_records : list entry) :
  (∀ x, get_terms descriptors supplemental_records = Raise x -> x = KeyError)
  ∧ ∀ e p, e ∈ descriptors -> p ∈ parents e ->
           p ∉ identifier <$> (descriptors ++ supplemental_records) ->
           get_terms descriptors supplemental_records = Raise KeyError.
Proof.
  assert (∀ x, get_terms descriptors supplemental_records = Raise x -> x = KeyError)
    as Honly.
  { unfold get_terms. intros x.
    destruct (foldM _ _ descriptors) as [d'|x'] eqn:Hloop; simpl; [done|].
    intros [= ->]. by apply set_parents_loop_raises in Hloop. }
  split; [done|]. intros e p He Hp Hmiss.
  destruct (get_terms descriptors supplemental_records) as [ts|x] eqn:Hts;
    [|by rewrite (Honly x)].
  exfalso. destruct (get_terms_dict _ _ _ Hts) as (d' & Hloop & _).
  destruct (set_parents_loop_needs _ _ _ e p Hloop He Hp) as [t Ht].
  rewrite fill_terms_get in Ht. apply last_record_None in Hmiss. by rewrite Hmiss in Ht.
Qed.

(** X19. There are as many returned terms as there are distinct
    identifiers among the records. *)
Theorem get_terms_count (descriptors supplemental_records : list entry) ts :
  get_terms descriptors supplemental_records = Ok ts ->
  length ts = length (remove_dups (identifier <$> (descriptors ++ supplemental_records))).
Proof.
  unfold get_terms. intros Hts.
  destruct (foldM _ _ descriptors) as [d'|] eqn:Hloop; simpl in Hts; [|done].
  injection Hts as <-.
  destruct (fill_terms_inv (descriptors ++ supplemental_records) [])
    as (Hwf & Hkey & Hkeys); [apply NoDup_nil_2|by intros ? ? ?%elem_of_nil|].
  simpl in Hwf, Hkey, Hkeys.
  destruct (set_parents_loop_inv _ _ _ Hloop Hwf Hkey) as (Hwf' & _ & Hk').
  unfold dict_values. rewrite length_fmap, <- (length_fmap fst).
  fold (dict_keys d'). rewrite Hk'. apply Permutation_length, NoDup_Permutation.
  - exact Hwf.
  - apply NoDup_remove_dups.
  - intros k. rewrite Hkeys, elem_of_remove_dups.
    split; [by intros [?%elem_of_nil|?]|by right].
Qed.

End mesh_errors.

(** ** Tree numbers and parents of the MeSH records *)

Section records_facts.

Import mesh_records.

Lemma rsplit_once_spec (sep : ascii) (s a b : string) :
  rsplit_once sep s = Some (a, b) ->
  s = a +:+ String sep b ∧ rsplit_once sep b = None.
Proof.
  revert a. induction s as [|c s IH]; intros a; simpl; [done|].
  destruct (rsplit_once sep s) as [[a' b']|] eqn:Hs.
  - intros [= <- <-]. destruct (IH a' eq_refl) as [-> Hb]. done.
  - case_decide as Hc; [|done]. intros [= <- <-]. by subst.
Qed.

Lemma assign_tree_numbers_lookup (d : gmap string string) (tns : list string)
    (ui tn : string) :
  foldl (fun d tree_number => <[tree_number := ui]> d) d tns !! tn
  = if decide (tn ∈ tns) then Some ui else d !! tn.
Proof.
  revert d. induction tns as [|t tns IH]; intros d; cbn [foldl].
  - rewrite decide_False; [done|apply not_elem_of_nil].
  - rewrite IH. destruct (decide (tn ∈ tns)) as [Hin|Hnin].
    + rewrite decide_True; [done|by right].
    + destruct (decide (t = tn)) as [->|Hne].
      * rewrite lookup_insert_eq. rewrite decide_True; [done|left].
      * rewrite lookup_insert_ne by done. rewrite decide_False; [done|].
        intros [?|?]%elem_of_cons; congruence.
Qed.

Lemma tree_cache_lookup_from (d : gmap string string) (rv : list descriptor) (tn : string) :
  foldl (fun d descriptor =>
           foldl (fun d tree_number => <[tree_number := identifier descriptor]> d)
                 d (tree_numbers descriptor)) d rv !! tn
  = match last_listing tn rv with
    | Some r => Some (identifier r)
    | None => d !! tn
    end.
Proof.
  revert d. induction rv as [|r rv IH]; intros d; [done|].
  cbn [foldl]. rewrite IH. unfold last_listing. rewrite filter_cons.
  rewrite assign_tree_numbers_lookup.
  destruct (decide (tn ∈ tree_numbers r)) as [Hin|Hnin].
  - rewrite last_cons. by destruct (last _).
  - done.
Qed.

Lemma tree_index_lookup (rv : list descriptor) (tn : string) :
  get_tree_to_mesh_id rv !! tn = identifier <$> last_listing tn rv
  ∧ tree_number_to_descriptor_ui rv !! tn = get_tree_to_mesh_id rv !! tn.
Proof.
  split; [|done]. unfold get_tree_to_mesh_id. rewrite tree_cache_lookup_from.
  destruct (last_listing tn rv); [done|apply lookup_empty].
Qed.

(** X20. The mapping of [get_tree_to_mesh_id] sends a tree number to the
    identifier of the last record that lists it, and has no entry for
    a tree number that no record lists; the cache that
    [get_descriptor_records] builds is the same mapping. *)
Theorem get_tree_to_mesh_id_lookup (rv : list descriptor) (tn : string) :
  get_tree_to_mesh_id rv !! tn = identifier <$> last_listing tn rv
  ∧ tree_number_to_descriptor_ui rv !! tn = get_tree_to_mesh_id rv !! tn.
Proof. exact (tree_index_lookup rv tn). Qed.

(** X21. When no tree number is shared by records with different identifiers,
    every tree number of every record is mapped to the identifier of
    that record. *)
Theorem get_tree_to_mesh_id_unique (rv : list descriptor) (r : descriptor) (tn : string) :
  (∀ r1 r2 t, r1 ∈ rv -> r2 ∈ rv -> t ∈ tree_numbers r1 -> t ∈ tree_numbers r2 ->
              identifier r1 = identifier r2) ->
  r ∈ rv -> tn ∈ tree_numbers r ->
  get_tree_to_mesh_id rv !! tn = Some (identifier r).
Proof.
  intros Huniq Hr Htn. rewrite (proj1 (tree_index_lookup rv tn)).
  unfold last_listing.
  destruct (last (filter (fun d => tn ∈ tree_numbers d) rv)) as [r'|] eqn:Hlast.
  - apply last_Some_elem_of, list_elem_of_filter in Hlast as [Htn' Hr'].
    simpl. f_equal. by apply (Huniq r' r tn).
  - apply last_None in Hlast. exfalso.
    by apply (filter_nil_not_elem_of _ _ r Hlast).
Qed.

Lemma elem_of_parents_descriptor_uis (cache : gmap string string) (d : descriptor)
    (p : string) :
  p ∈ parents_descriptor_uis cache d
  ↔ ∃ tn parent_tn self_tn, tn ∈ tree_numbers d
      ∧ rsplit_once "." tn = Some (parent_tn, self_tn)
      ∧ cache !! parent_tn = Some p.
Proof.
  unfold parents_descriptor_uis.
  assert (∀ (tns : list string) (s : gset string),
    p ∈ foldl (fun parents tree_number =>
                 match rsplit_once "." tree_number with
                 | None => parents
                 | Some (parent_tn, self_tn) =>
                     match cache !! parent_tn with
                     | Some parent_descriptor_ui => parents ∪ {[parent_descriptor_ui]}
                     | None => parents
                     end
                 end) s tns
    ↔ p ∈ s ∨ ∃ tn parent_tn self_tn, tn ∈ tns
               ∧ rsplit_once "." tn = Some (parent_tn, self_tn)
               ∧ cache !! parent_tn = Some p) as Hfold.
  { induction tns as [|tn tns IH]; intros s; simpl.
    - split; [by left|]. intros [?|(? & ? & ? & ?%elem_of_nil & _)]; done.
    - rewrite IH. split.
      + intros [Hp|(tn' & ptn & stn & Hin & Hsplit & Hc)].
        * destruct (rsplit_once "." tn) as [[ptn stn]|] eqn:Hsplit; [|by left].
          destruct (cache !! ptn) as [ui|] eqn:Hc; [|by left].
          apply elem_of_union in Hp as [?|Hp]; [by left|].
          apply elem_of_singleton in Hp as ->.
          right. exists tn, ptn, stn. split; [left|done].
        * right. exists tn', ptn, stn. split; [by right|done].
      + intros [Hp|(tn' & ptn & stn & Hin & Hsplit & Hc)].
        * left. destruct (rsplit_once "." tn) as [[ptn stn]|]; [|done].
          destruct (cache !! ptn); [|done]. apply elem_of_union. by left.
        * apply elem_of_cons in Hin as [->|Hin].
          -- left. rewrite Hsplit, Hc. apply elem_of_union. right.
             by apply elem_of_singleton.
          -- right. by exists tn', ptn, stn. }
  rewrite Hfold, elem_of_empty. split; [by intros [?|?]|by right].
Qed.

(** X22. The parents that [get_descriptor_records] gives a record are,
    without repetition, the identifiers of the records found for its
    tree numbers with the last dotted component removed; each of them
    is the identifier of a record of the list, and a record without a
    dotted tree number has no parents. *)
Theorem get_descriptor_records_parents (rv : list descriptor) (r : descriptor) :
  r ∈ rv ->
  ∃ e, e ∈ get_descriptor_records rv
       ∧ mesh.identifier e = identifier r ∧ mesh.name e = name r
       ∧ NoDup (mesh.parents e)
       ∧ (∀ p, p ∈ mesh.parents e
               ↔ ∃ parent_tn self_tn r',
                   parent_tn +:+ String "."%char self_tn ∈ tree_numbers r
                   ∧ rsplit_once "." self_tn = None
                   ∧ last_listing parent_tn rv = Some r' ∧ identifier r' = p)
       ∧ (∀ p, p ∈ mesh.parents e -> p ∈ identifier <$> rv).
Proof.
  intros Hr.
  exists (mesh.MkEntry (identifier r) (name r) (concepts r)
            (elements (parents_descriptor_uis (tree_number_to_descriptor_ui rv) r))).
  assert (∀ p, p ∈ elements (parents_descriptor_uis (tree_number_to_descriptor_ui rv) r)
               ↔ ∃ parent_tn self_tn r',
                   parent_tn +:+ String "."%char self_tn ∈ tree_numbers r
                   ∧ rsplit_once "." self_tn = None
                   ∧ last_listing parent_tn rv = Some r' ∧ identifier r' = p) as Hchar.
  { intros p. rewrite elem_of_elements, elem_of_parents_descriptor_uis. split.
    - intros (tn & ptn & stn & Htn & Hsplit & Hc).
      destruct (rsplit_once_spec _ _ _ _ Hsplit) as [-> Hstn].
      rewrite (proj2 (tree_index_lookup rv ptn)) in Hc.
      rewrite (proj1 (tree_index_lookup rv ptn)) in Hc.
      destruct (last_listing ptn rv) as [r'|] eqn:Hl; [|done].
      injection Hc as <-. by exists ptn, stn, r'.
    - intros (ptn & stn & r' & Htn & Hstn & Hl & <-).
      exists (ptn +:+ String "."%char stn), ptn, stn. split; [done|]. split.
      + clear -Hstn. induction ptn as [|c ptn IH].
        * change ("" +:+ String "."%char stn) with (String "."%char stn).
          simpl. by rewrite Hstn.
        * change (String c ptn +:+ String "."%char stn)
            with (String c (ptn +:+ String "."%char stn)).
          simpl. by rewrite IH.
      + rewrite (proj2 (tree_index_lookup rv ptn)).
        rewrite (proj1 (tree_index_lookup rv ptn)). by rewrite Hl. }
  split; [|split; [done|split; [done|split;
    [simpl; apply NoDup_elements|split; [exact Hchar|]]]]].
  - unfold get_descriptor_records. apply list_elem_of_fmap. by exists r.
  - simpl. intros p (ptn & stn & r' & _ & _ & Hl & <-)%Hchar.
    apply last_Some_elem_of, list_elem_of_filter in Hl as [_ Hr'].
    apply list_elem_of_fmap. by exists r'.
Qed.

End records_facts.

Section records_to_terms.

Import mesh_records.

Lemma get_terms_returns (descriptors supplemental_records : list mesh.entry) :
  (∀ e p, e ∈ descriptors -> p ∈ mesh.parents e ->
          p ∈ mesh.identifier <$> (descriptors ++ supplemental_records)) ->
  ∃ ts, mesh.get_terms descriptors supplemental_records = Ok ts.
Proof.
  intros Hpar. unfold mesh.get_terms.
  destruct (fill_terms_inv (descriptors ++ supplemental_records) [])
    as (Hwf & Hkey & Hkeys); [apply NoDup_nil_2|by intros ? ? ?%elem_of_nil|].
  simpl in Hwf, Hkey, Hkeys.
  destruct (set_parents_loop_ok descriptors _ Hwf Hkey) as [d' Hd'].
  - intros e He. split.
    + apply Hkeys. right. apply list_elem_of_fmap. exists e. split; [done|].
      apply elem_of_app. by left.
    + intros p Hp. apply Hkeys. right. by apply (Hpar e).
  - rewrite Hd'. by eexists.
Qed.

Lemma records_parents_known (rv : list descriptor) (e : mesh.entry) (p : string) :
  e ∈ get_descriptor_records rv -> p ∈ mesh.parents e ->
  p ∈ mesh.identifier <$> get_descriptor_records rv.
Proof.
  unfold get_descriptor_records.
  intros (r & -> & Hr)%list_elem_of_fmap Hp. simpl in Hp.
  apply elem_of_elements, elem_of_parents_descriptor_uis in Hp
    as (tn & ptn & stn & _ & _ & Hc).
  unfold tree_number_to_descriptor_ui in Hc. rewrite tree_cache_lookup_from in Hc.
  destruct (last_listing ptn rv) as [r'|] eqn:Hl; [|by rewrite lookup_empty in Hc].
  injection Hc as <-.
  apply last_Some_elem_of, list_elem_of_filter in Hl as [_ Hr'].
  rewrite <- list_fmap_compose. apply list_elem_of_fmap. by exists r'.
Qed.

(** X23. On records that went through [get_descriptor_records], the second
    loop of [get_terms] finds every parent: [get_terms] returns and
    raises no [KeyError], whatever the tree numbers are. *)
Theorem get_terms_of_records (rv_descriptors rv_supplemental : list descriptor) :
  ∃ ts, mesh.get_terms (get_descriptor_records rv_descriptors)
          (get_descriptor_records rv_supplemental) = Ok ts.
Proof.
  apply get_terms_returns. intros e p He Hp.
  rewrite fmap_app, elem_of_app. left. by apply (records_parents_known _ e).
Qed.

End records_to_terms.

(** ** Runs of the statements about MeSH *)

(** Run of [get_terms_last_record]: the term of [D2] has the name of
    the supplemental record that reuses the identifier. *)
Lemma get_terms_last_record_witness :
  ∃ e, last_record (mesh.identifier e)
         (examples.mesh_descriptors ++ examples.mesh_supplemental_records) = Some e
       ∧ struct.reference mesh_examples.term_D2
         = reference.Ref mesh.PREFIX (mesh.identifier e) (mesh.name e)
       ∧ struct.definition mesh_examples.term_D2 = struct.definition (mesh.entry_term e)
       ∧ struct.synonyms mesh_examples.term_D2 = struct.synonyms (mesh.entry_term e).
Proof.
  apply (get_terms_last_record examples.mesh_descriptors
           examples.mesh_supplemental_records mesh_examples.terms).
  - by vm_compute.
  - apply (list_elem_of_lookup_2 _ 1). by vm_compute.
Defined.

(** Run of [get_terms_parents] on the term of [D2], whose last
    descriptor lists the parent [D1]. *)
Lemma get_terms_parents_witness :
  match last_record "D2" examples.mesh_descriptors with
  | Some e =>
      Forall2 (fun pid r =>
                 ∃ ep, last_record pid (examples.mesh_descriptors
                                        ++ examples.mesh_supplemental_records) = Some ep
                       ∧ r = reference.Ref mesh.PREFIX pid (mesh.name ep))
              (mesh.parents e) (struct.parents mesh_examples.term_D2)
  | None => struct.parents mesh_examples.term_D2 = []
  end.
Proof.
  apply (get_terms_parents examples.mesh_descriptors
           examples.mesh_supplemental_records mesh_examples.terms
           mesh_examples.term_D2 "D2").
  - by vm_compute.
  - apply (list_elem_of_lookup_2 _ 1). by vm_compute.
  - reflexivity.
Defined.


(** Run of [get_terms_definition] on the term of [D1], whose concept has
    a scope note with white space at both ends and a backslash followed
    by [n]: the definition is the note with a line feed and without the
    outer white space. *)
Lemma get_terms_definition_witness :
  (∃ e d, last_record (mesh.identifier e)
            (examples.mesh_descriptors ++ examples.mesh_supplemental_records) = Some e
          ∧ struct.definition mesh_examples.term_D1 = Some d
          ∧ strip d = d
          ∧ d = default "" (mesh.get_scope_note (mesh.concepts e))
          ∧ ((∀ c, c ∈ mesh.concepts e -> mesh.ScopeNote c = None) -> d = "")
          ∧ reference.identifier (struct.reference mesh_examples.term_D1)
            = Some (mesh.identifier e)
          ∧ (∀ cs1 c cs2 s,
               mesh.concepts e = cs1 ++ c :: cs2 ->
               (∀ c', c' ∈ cs1 -> mesh.ScopeNote c' = None) ->
               mesh.ScopeNote c = Some s ->
               d = strip (replace_backslash_n s)))
  ∧ reference.identifier (struct.reference mesh_examples.term_D1) = Some "D1"
  ∧ struct.definition mesh_examples.term_D1
    = Some (String "s" (String "c" (String "o" (String "p" (String "e"
             (String "010" (String "n" (String "o" (String "t" (String "e"
                EmptyString)))))))))).
Proof.
  split; [|split; by vm_compute].
  apply (get_terms_definition examples.mesh_descriptors
           examples.mesh_supplemental_records mesh_examples.terms).
  - by vm_compute.
  - apply (list_elem_of_lookup_2 _ 0). by vm_compute.
Defined.

(** Run of [get_terms_missing_parent] on a descriptor whose parent is
    no record. *)
Lemma get_terms_missing_parent_witness :
  mesh.get_terms mesh_examples.dangling_descriptors [] = Raise KeyError.
Proof.
  apply (proj2 (get_terms_missing_parent mesh_examples.dangling_descriptors [])
           (mesh.MkEntry "D9" "Lost" [] ["D404"]) "D404").
  - left.
  - left.
  - apply (bool_decide_unpack _). by vm_compute.
Defined.

(** Run of [get_terms_count]: four records, three identifiers. *)
Lemma get_terms_count_witness :
  length mesh_examples.terms = 3.
Proof.
  rewrite (get_terms_count examples.mesh_descriptors examples.mesh_supplemental_records
             mesh_examples.terms); by vm_compute.
Defined.

(** Run of [get_tree_to_mesh_id_unique] on two descriptors. *)
Lemma get_tree_to_mesh_id_unique_witness :
  mesh_records.get_tree_to_mesh_id records_examples.descriptors !! "A01.456" = Some "D2".
Proof.
  apply (get_tree_to_mesh_id_unique records_examples.descriptors
           (mesh_records.MkDescriptor "D2" "Head" ["A01.456"; "B02"] []) "A01.456").
  - intros r1 r2 t H1 H2 Ht1 Ht2.
    apply elem_of_cons in H1 as [->|H1]; [|apply list_elem_of_singleton in H1 as ->];
      (apply elem_of_cons in H2 as [->|H2]; [|apply list_elem_of_singleton in H2 as ->]);
      try reflexivity; exfalso;
      apply list_elem_of_In in Ht1; apply list_elem_of_In in Ht2;
      simpl in Ht1, Ht2; intuition (subst; discriminate).
  - right. left.
  - left.
Defined.

(** Run of [get_descriptor_records_parents] on the second descriptor. *)
Lemma get_descriptor_records_parents_witness :
  ∃ e, e ∈ mesh_records.get_descriptor_records records_examples.descriptors
       ∧ mesh.identifier e = "D2" ∧ mesh.name e = "Head"
       ∧ NoDup (mesh.parents e)
       ∧ (∀ p, p ∈ mesh.parents e
               ↔ ∃ parent_tn self_tn r',
                   parent_tn +:+ String "."%char self_tn ∈ ["A01.456"; "B02"]
                   ∧ mesh_records.rsplit_once "." self_tn = None
                   ∧ last_listing parent_tn records_examples.descriptors = Some r'
                   ∧ mesh_records.identifier r' = p)
       ∧ (∀ p, p ∈ mesh.parents e
               -> p ∈ mesh_records.identifier <$> records_examples.descriptors).
Proof.
  apply (get_descriptor_records_parents records_examples.descriptors
           (mesh_records.MkDescriptor "D2" "Head" ["A01.456"; "B02"] [])).
  right. left.
Defined.

(** ** More on the dictyBase gene adapter *)

Lemma foldl_preserves {T X A} (P : T -> A) (f : T -> X -> T) (l : list X) (t : T) :
  (∀ t x, P (f t x) = P t) -> P (foldl f t l) = P t.
Proof.
  intros H. revert t. induction l as [|x l IH]; intros t; [done|].
  simpl. by rewrite IH.
Qed.

Section dictybase_more.

Import dictybase_gene.

Variable auto : string -> string -> reference.Reference.
Variable species_reference : string -> string -> reference.Reference.

Lemma species_edges_gene_product (term : struct.Term) (c : cell) :
  species_edges (add_gene_product auto term c) = species_edges term.
Proof.
  rewrite add_gene_product_cases. destruct c as [|s]; [done|].
  case_bool_decide; [|done]. unfold species_edges. simpl.
  by rewrite dict_get_set_ne.
Qed.

Lemma add_gene_product_keeps {A} (P : struct.Term -> A) (term : struct.Term) (c : cell) :
  (∀ t td r, P (struct.append_relationship t td r) = P t) ->
  P (add_gene_product auto term c) = P term.
Proof.
  intros H. rewrite add_gene_product_cases. destruct c as [|s]; [done|].
  by case_bool_decide.
Qed.

(** The synonyms added for one cell. *)
Lemma synonyms_of_parts (f : string -> struct.synonym_arg) (l : list string)
    (term : struct.Term) :
  (∀ s, match f s with
        | struct.SynStr n => n = strip s
        | struct.SynObj o => o = struct.synonym_of_name (strip s)
        end) ->
  struct.synonyms (foldl (fun t synonym => struct.append_synonym t (f synonym)) term l)
  = struct.synonyms term ++ map (fun s => struct.synonym_of_name (strip s)) l.
Proof.
  intros Hf. revert term. induction l as [|s l IH]; intros term; simpl.
  - by rewrite app_nil_r.
  - rewrite IH. simpl. rewrite <- app_assoc. simpl. f_equal. f_equal.
    specialize (Hf s). destruct (f s); by subst.
Qed.

(** The synonyms of the term of a row. *)
Lemma row_term_synonyms (uniprot_mappings : dict string (list cell)) (r : row) :
  struct.synonyms (row_term auto species_reference uniprot_mappings r)
  = map (fun s => struct.synonym_of_name (strip s))
      ((if cell_ne (row_products r) "unknown" then cell_parts (row_products r) else [])
       ++ cell_parts (row_synonyms r)).
Proof.
  unfold row_term. change (struct.synonyms (struct.set_species species_reference ?t _ _))
    with (struct.synonyms t).
  rewrite (foldl_preserves struct.synonyms)
    by (intros t c; by apply (add_gene_product_keeps struct.synonyms)).
  rewrite map_app.
  assert (∀ c : cell, cell_truthy c && notna c = true -> cell_parts c = split "," (cell_str c))
    as Hparts by by intros [|[|a s]].
  assert (∀ c : cell, cell_truthy c && notna c = false -> cell_parts c = [])
    as Hnone by by intros [|[|a s]].
  destruct (cell_truthy (row_synonyms r) && notna (row_synonyms r)) eqn:Hs.
  - rewrite synonyms_of_parts by done. rewrite (Hparts _ Hs). f_equal.
    destruct (cell_truthy (row_products r) && notna (row_products r)) eqn:Hp; simpl.
    + destruct (cell_ne (row_products r) "unknown"); [|done].
      rewrite synonyms_of_parts by done. by rewrite (Hparts _ Hp).
    + rewrite (Hnone _ Hp). by destruct (cell_ne _ _).
  - rewrite (Hnone _ Hs), app_nil_r.
    destruct (cell_truthy (row_products r) && notna (row_products r)) eqn:Hp; simpl.
    + destruct (cell_ne (row_products r) "unknown"); [|done].
      rewrite synonyms_of_parts by done. by rewrite (Hparts _ Hp).
    + rewrite (Hnone _ Hp). by destruct (cell_ne _ _).
Qed.

(** What no step of the loop body touches is as [Term.from_triple]
    made it. *)
Lemma row_term_keeps {A} (P : struct.Term -> A)
    (uniprot_mappings : dict string (list cell)) (r : row) :
  (∀ t a, P (struct.append_synonym t a) = P t) ->
  (∀ t td x, P (struct.append_relationship t td x) = P t) ->
  P (row_term auto species_reference uniprot_mappings r)
  = P (struct.from_triple PREFIX (row_identifier r) (row_name r)).
Proof.
  intros Hsyn Hrel. unfold row_term. cbv zeta. unfold struct.set_species.
  rewrite Hrel.
  rewrite (foldl_preserves P) by (intros t c; by apply add_gene_product_keeps).
  by repeat (match goal with
             | |- context [if ?b then _ else _] => destruct b
             end; rewrite ?(foldl_preserves P) by done).
Qed.

(** X24. [get_terms] yields one term per row, in the order of the rows.
    The term of a row has the dictyBase prefix, the identifier and the
    name of the row, no definition, no parent and no cross-reference,
    and exactly one in-taxon edge, whatever the UniProt mapping holds. *)
Theorem get_terms_rows (uniprot_mappings : dict string (list cell)) (rows : list row) :
  Forall2 (fun r t =>
             struct.reference t = reference.Ref PREFIX (row_identifier r) (row_name r)
             ∧ struct.definition t = None
             ∧ struct.parents t = [] ∧ struct.xrefs t = []
             ∧ species_edges t = [species_reference "44689" "Dictyostelium discoideum"])
          rows (get_terms auto species_reference uniprot_mappings rows).
Proof.
  unfold get_terms. apply Forall2_fmap_r, Forall_Forall2_diag, Forall_forall.
  intros r _. unfold compose.
  rewrite (row_term_keeps struct.reference), (row_term_keeps struct.definition),
    (row_term_keeps struct.parents), (row_term_keeps struct.xrefs) by done.
  repeat split. unfold row_term. cbv zeta. unfold struct.set_species.
  unfold species_edges at 1. simpl. rewrite dict_get_set_eq. simpl.
  match goal with
  | |- default [] (dict_get (struct.relationships ?t) _) ++ _ = _ =>
      fold (species_edges t)
  end.
  rewrite (foldl_preserves species_edges)
    by (intros t c; apply species_edges_gene_product).
  by repeat (match goal with
             | |- context [if ?b then _ else _] => destruct b
             end; rewrite ?(foldl_preserves species_edges) by done).
Qed.

(** X25. Every synonym of a term of [get_terms] is a plain one (no type,
    exact, no provenance) whose text has no white space at either end:
    the parts of the products cell and then those of the synonyms
    cell, cut at the commas and stripped.  A products cell that is
    [unknown] gives no synonym, and neither does a missing or empty
    cell. *)
Theorem get_terms_synonyms_stripped (uniprot_mappings : dict string (list cell))
    (rows : list row) :
  Forall2 (fun r t =>
             struct.syn_name <$> struct.synonyms t
             = strip <$> ((if cell_ne (row_products r) "unknown"
                           then cell_parts (row_products r) else [])
                          ++ cell_parts (row_synonyms r))
             ∧ Forall (fun s => strip (struct.syn_name s) = struct.syn_name s
                                ∧ s = struct.synonym_of_name (struct.syn_name s))
                      (struct.synonyms t))
          rows (get_terms auto species_reference uniprot_mappings rows).
Proof.
  unfold get_terms. apply Forall2_fmap_r, Forall_Forall2_diag, Forall_forall.
  intros r _. unfold compose. rewrite row_term_synonyms.
  generalize ((if cell_ne (row_products r) "unknown"
               then cell_parts (row_products r) else [])
              ++ cell_parts (row_synonyms r)).
  intros l. split.
  - induction l as [|s l IH]; [done|]. simpl. by f_equal.
  - apply Forall_forall. intros s (x & -> & _)%list_elem_of_fmap. simpl.
    split; [apply strip_strip|done].
Qed.

End dictybase_more.

(** ** The hierarchy pass of the HGNC gene groups *)

Lemma lookup_fmap_length {A B} (f : nat -> A -> B) (l1 : list B) (l2 : list A) :
  (∀ i, l1 !! i = f i <$> l2 !! i) -> length l1 = length l2.
Proof.
  intros H. destruct (decide (length l1 = length l2)) as [|Hne]; [done|exfalso].
  destruct (decide (length l1 < length l2)) as [Hlt|Hge].
  - destruct (lookup_lt_is_Some_2 l2 (length l1) Hlt) as [x Hx].
    specialize (H (length l1)). rewrite Hx, lookup_ge_None_2 in H by lia. done.
  - assert (length l2 < length l1) as Hlt by lia.
    destruct (lookup_lt_is_Some_2 l1 (length l2) Hlt) as [x Hx].
    specialize (H (length l2)). rewrite Hx, (lookup_ge_None_2 l2) in H by lia. done.
Qed.

Section hgnc_facts.

Import hgncgenefamily.

Variable terms : list struct.Term.

Lemma extends_term_name store E (i : nat) :
  extends terms store E -> term_name store i = term_name terms i.
Proof.
  intros H. unfold term_name. rewrite (H i). by destruct (terms !! i).
Qed.

Lemma extends_append store E (child : nat) (r : reference.Reference) :
  extends terms store E ->
  extends terms (append_parent store child r)
          (fun i => E i ++ (if decide (i = child) then [r] else [])).
Proof.
  intros H i. unfold append_parent. destruct (decide (i = child)) as [->|Hne].
  - rewrite list_lookup_alter, decide_True, (H child) by done.
    destruct (terms !! child) as [t|]; [|done].
    simpl. destruct t. unfold struct.set_parents. simpl. by rewrite <- app_assoc.
  - rewrite list_lookup_alter_ne by done. rewrite (H i), app_nil_r. done.
Qed.

Lemma add_parent_loop (child : nat) (ps : list string) store store' E :
  extends terms store E ->
  foldM (add_parent (index_terms terms) child) store ps = Ok store' ->
  extends terms store' (fun i => E i ++ (if decide (i = child)
                                   then map (group_reference terms) ps else [])).
Proof.
  revert store E. induction ps as [|p ps IH]; intros store E Hext Hloop.
  - simpl in Hloop. injection Hloop as <-. intros i. rewrite (Hext i).
    by destruct (decide (i = child)); rewrite app_nil_r.
  - simpl in Hloop. unfold add_parent at 1 in Hloop.
    destruct (index_terms terms !! Some p) as [parent|] eqn:Hp; simpl in Hloop; [|done].
    rewrite (extends_term_name store E) in Hloop by done.
    pose proof (IH _ _ (extends_append store E child _ Hext) Hloop) as H.
    intros i. rewrite (H i). destruct (terms !! i); [|done]. simpl. do 2 f_equal.
    rewrite <- app_assoc. f_equal. unfold group_reference at 2. rewrite Hp.
    by destruct (decide (i = child)).
Qed.

Lemma add_parents_loop (items : dict string (list string)) store store' E :
  extends terms store E ->
  foldM (add_parents (index_terms terms)) store items = Ok store' ->
  extends terms store' (fun i => E i ++ appended_parents terms items i).
Proof.
  revert store E. induction items as [|[k ps] items IH]; intros store E Hext Hloop.
  - simpl in Hloop. injection Hloop as <-. intros i. rewrite (Hext i).
    unfold appended_parents. simpl. by rewrite app_nil_r.
  - simpl in Hloop.
    destruct (index_terms terms !! Some k) as [child|] eqn:Hk; simpl in Hloop; [|done].
    destruct (foldM (add_parent (index_terms terms) child) store ps) as [store1|] eqn:Hin;
      simpl in Hloop; [|done].
    pose proof (IH _ _ (add_parent_loop child ps store store1 E Hext Hin) Hloop) as H.
    intros i. rewrite (H i). destruct (terms !! i); [|done]. simpl. do 2 f_equal.
    rewrite <- app_assoc. f_equal. unfold appended_parents. simpl. rewrite Hk. f_equal.
    destruct (decide (i = child)) as [->|Hne].
    + by rewrite decide_True.
    + rewrite decide_False; [done|congruence].
Qed.

(** The dictionary of the terms: an identifier is mapped to the last
    position at which a term carries it. *)
Lemma index_terms_from_lookup (n : nat) (d : gmap (option string) nat)
    (l : list struct.Term) (k : option string) (i : nat) :
  index_terms_from n d l !! k = Some i ->
  (d !! k = Some i ∧ ∀ t, t ∈ l -> struct.identifier t ≠ k)
  ∨ ∃ j t, i = n + j ∧ l !! j = Some t ∧ struct.identifier t = k
           ∧ ∀ j' t', j < j' -> l !! j' = Some t' -> struct.identifier t' ≠ k.
Proof.
  revert n d. induction l as [|t l IH]; intros n d; simpl.
  - intros H. left. split; [done|]. by intros t ?%elem_of_nil.
  - intros [[Hd Hall]|(j & t' & -> & Hj & Hid & Hlast)]%IH.
    + destruct (decide (struct.identifier t = k)) as [Heq|Hne].
      * rewrite Heq, lookup_insert_eq in Hd. injection Hd as <-.
        right. exists 0, t. split; [lia|]. split; [done|]. split; [done|].
        intros [|j'] t' Hlt Hj'; [lia|]. simpl in Hj'.
        apply Hall. by eapply list_elem_of_lookup_2.
      * rewrite lookup_insert_ne in Hd by done. left. split; [done|].
        intros t' [->|?]%elem_of_cons; [done|by apply Hall].
    + right. exists (S j), t'. split; [lia|]. split; [done|]. split; [done|].
      intros [|j'] t'' Hlt Hj'; [lia|]. simpl in Hj'. apply (Hlast j'); [lia|done].
Qed.

Lemma index_terms_from_is_Some (n : nat) (d : gmap (option string) nat)
    (l : list struct.Term) (k : option string) :
  is_Some (index_terms_from n d l !! k)
  ↔ is_Some (d !! k) ∨ ∃ t, t ∈ l ∧ struct.identifier t = k.
Proof.
  revert n d. induction l as [|t l IH]; intros n d; simpl.
  - split; [by left|]. intros [?|(t & ?%elem_of_nil & _)]; done.
  - rewrite IH. split.
    + intros [[i Hi]|(t' & Ht' & Hid)].
      * destruct (decide (struct.identifier t = k)) as [Heq|Hne].
        -- right. exists t. split; [left|done].
        -- rewrite lookup_insert_ne in Hi by done. left. by exists i.
      * right. exists t'. split; [by right|done].
    + intros [[i Hi]|(t' & Ht' & Hid)].
      * left. destruct (decide (struct.identifier t = k)) as [Heq|Hne].
        -- rewrite Heq, lookup_insert_eq. by eexists.
        -- rewrite lookup_insert_ne by done. by exists i.
      * apply elem_of_cons in Ht' as [->|Ht'].
        -- left. rewrite Hid, lookup_insert_eq. by eexists.
        -- right. by exists t'.
Qed.

Lemma index_terms_lookup (k : option string) (i : nat) :
  index_terms terms !! k = Some i ->
  ∃ t, terms !! i = Some t ∧ struct.identifier t = k
       ∧ ∀ j t', i < j -> terms !! j = Some t' -> struct.identifier t' ≠ k.
Proof.
  unfold index_terms.
  intros [[Hd _]|(j & t & -> & Hj & Hid & Hlast)]%index_terms_from_lookup.
  - by rewrite lookup_empty in Hd.
  - exists t. done.
Qed.

End hgnc_facts.

Section hgnc_results.

Import hgncgenefamily.

Lemma set_parents_app_nil (t : struct.Term) :
  struct.set_parents t (struct.parents t ++ []) = t.
Proof. destruct t. unfold struct.set_parents. simpl. by rewrite app_nil_r. Qed.

Lemma extends_refl (terms : list struct.Term) : extends terms terms (fun _ => []).
Proof.
  intros i. destruct (terms !! i) as [t|]; [|done]. simpl.
  by rewrite set_parents_app_nil.
Qed.

Lemma get_terms_extends (terms : list struct.Term)
    (hierarchy : dict string (list string)) (out : list struct.Term) :
  get_terms terms hierarchy = Ok out ->
  extends terms out (appended_parents terms hierarchy).
Proof.
  intros H.
  apply (add_parents_loop terms hierarchy terms out (fun _ => []) (extends_refl terms)) in H.
  intros i. by rewrite (H i).
Qed.

Lemma index_terms_is_Some (terms : list struct.Term) (k : string) :
  is_Some (index_terms terms !! Some k) ↔ listed terms k.
Proof.
  unfold index_terms, listed. rewrite index_terms_from_is_Some. split.
  - intros [[i Hi]|H]; [by rewrite lookup_empty in Hi|done].
  - by right.
Qed.

(** The position kept for an identifier is that of the last term that
    carries it. *)
Lemma index_terms_last (terms : list struct.Term) (k : string) (i : nat)
    (t : struct.Term) :
  terms !! i = Some t -> struct.identifier t = Some k ->
  (∀ j t', i < j -> terms !! j = Some t' -> struct.identifier t' ≠ Some k) ->
  index_terms terms !! Some k = Some i.
Proof.
  intros Hi Hid Hlast.
  destruct (proj2 (index_terms_is_Some terms k)) as [i' Hi'].
  { exists t. split; [by eapply list_elem_of_lookup_2|done]. }
  destruct (index_terms_lookup terms _ _ Hi') as (t' & Ht' & Hid' & Hlast').
  destruct (lt_eq_lt_dec i i') as [[Hlt | ->] | Hlt]; [|done|].
  - by destruct (Hlast i' t' Hlt Ht').
  - by destruct (Hlast' i t Hlt Hi).
Qed.

Lemma appended_parents_nil (terms : list struct.Term)
    (hierarchy : dict string (list string)) (i : nat) :
  (∀ k, index_terms terms !! Some k ≠ Some i) ->
  appended_parents terms hierarchy i = [].
Proof.
  intros H. unfold appended_parents.
  induction hierarchy as [|[k ps] h IH]; [done|]. simpl.
  rewrite decide_False by apply H. done.
Qed.

Lemma appended_parents_absent (terms : list struct.Term)
    (hierarchy : dict string (list string)) (i : nat) (c : string) :
  index_terms terms !! Some c = Some i -> c ∉ dict_keys hierarchy ->
  appended_parents terms hierarchy i = [].
Proof.
  intros Hc. unfold appended_parents, dict_keys.
  induction hierarchy as [|[k ps] h IH]; [done|]. simpl.
  rewrite not_elem_of_cons. intros [Hne Hin].
  rewrite decide_False; [by apply IH|].
  intros Hk. apply Hne.
  destruct (index_terms_lookup terms _ _ Hc) as (t & Ht & Hid & _).
  destruct (index_terms_lookup terms _ _ Hk) as (t' & Ht' & Hid' & _).
  congruence.
Qed.

Lemma appended_parents_wf (terms : list struct.Term)
    (hierarchy : dict string (list string)) (i : nat) (c : string) :
  dict_wf hierarchy -> index_terms terms !! Some c = Some i ->
  appended_parents terms hierarchy i
  = map (group_reference terms) (option.default [] (dict_get hierarchy c)).
Proof.
  intros Hwf Hc. unfold dict_wf in Hwf.
  induction hierarchy as [|[k ps] h IH]; [done|].
  simpl in Hwf. apply NoDup_cons in Hwf as [Hk Hwf].
  change (appended_parents terms ((k, ps) :: h) i)
    with ((if decide (index_terms terms !! Some k = Some i)
           then map (group_reference terms) ps else [])
          ++ appended_parents terms h i).
  simpl. destruct (decide (k = c)) as [->|Hne].
  - rewrite decide_True by done.
    rewrite (appended_parents_absent terms h i c Hc Hk). by rewrite app_nil_r.
  - rewrite decide_False; [by apply IH|].
    intros Hk'. apply Hne.
    destruct (index_terms_lookup terms _ _ Hc) as (t & Ht & Hid & _).
    destruct (index_terms_lookup terms _ _ Hk') as (t' & Ht' & Hid' & _).
    congruence.
Qed.

Lemma filter_none {A} (P : A -> Prop) `{!∀ x, Decision (P x)} (l : list A) :
  (∀ x, x ∈ l -> ¬ P x) -> filter P l = [].
Proof.
  induction l as [|x l IH]; [done|]. intros Hall. rewrite filter_cons.
  rewrite decide_False by (apply Hall; left). apply IH.
  intros y Hy. apply Hall. by right.
Qed.

Lemma last_with_index (terms : list struct.Term) (k : string) (i : nat) :
  index_terms terms !! Some k = Some i -> last_with terms k = terms !! i.
Proof.
  intros (t & Ht & Hid & Hlast)%index_terms_lookup. rewrite Ht. unfold last_with.
  rewrite <- (take_drop_middle terms i t Ht), filter_app, filter_cons.
  rewrite decide_True by done.
  assert (filter (fun t0 => struct.identifier t0 = Some k) (drop (S i) terms) = [])
    as ->.
  { apply filter_none. intros t' [j Hj]%list_elem_of_lookup_1 Hid'.
    rewrite lookup_drop in Hj. by apply (Hlast (S i + j) t'); [lia| |]. }
  by rewrite last_snoc.
Qed.

Lemma last_with_unlisted (terms : list struct.Term) (k : string) :
  index_terms terms !! Some k = None -> last_with terms k = None.
Proof.
  intros Hnone. unfold last_with.
  assert (filter (fun t0 => struct.identifier t0 = Some k) terms = []) as ->; [|done].
  apply filter_none. intros t Hin Hid.
  destruct (proj2 (index_terms_is_Some terms k)) as [i Hi]; [by exists t|congruence].
Qed.

Lemma group_reference_named (terms : list struct.Term) (k : string) :
  group_reference terms k = named_reference terms k.
Proof.
  unfold group_reference, named_reference. f_equal.
  destruct (index_terms terms !! Some k) as [i|] eqn:Hi.
  - rewrite (last_with_index terms k i Hi). unfold term_name.
    by destruct (terms !! i).
  - by rewrite last_with_unlisted.
Qed.

Lemma get_hierarchy_fold (rows : list (string * string)) (d : dict string (list string)) :
  dict_wf d ->
  let d' := foldl (fun d row =>
                     let '(parent_id, child_id) := row in
                     dict_set d child_id
                       (option.default [] (dict_get d child_id) ++ [parent_id]))
                  d rows in
  dict_wf d'
  ∧ ∀ c, (is_Some (dict_get d' c)
          ↔ is_Some (dict_get d c) ∨ ∃ p, (p, c) ∈ rows)
         ∧ option.default [] (dict_get d' c)
           = option.default [] (dict_get d c)
             ++ (filter (fun r : string * string => r.2 = c) rows).*1.
Proof.
  revert d. induction rows as [|[p0 c0] rows IH]; intros d Hwf; simpl.
  - split; [done|]. intros c. split; [|by rewrite app_nil_r].
    split; [by left|]. intros [?|[p ?%elem_of_nil]]; done.
  - destruct (IH (dict_set d c0 (option.default [] (dict_get d c0) ++ [p0])))
      as [Hwf' Hget]; [by apply dict_set_wf|].
    split; [done|]. intros c. destruct (Hget c) as [Hsome Hval].
    rewrite Hsome, Hval, !dict_get_set. rewrite filter_cons. simpl.
    destruct (decide (c0 = c)) as [->|Hne]; simpl.
    + split; [|by rewrite <- app_assoc].
      split; [|intros _; left; by eexists].
      intros _. right. exists p0. left.
    + split; [|done]. split.
      * intros [?|[p Hp]]; [by left|]. right. exists p. by right.
      * intros [?|[p [[= -> ->]|Hp]%elem_of_cons]]; [by left|done|]. right. by exists p.
Qed.

Lemma add_parent_loop_result (idx : gmap (option string) nat) (child : nat)
    (ps : list string) (store : list struct.Term) :
  (∀ e, foldM (add_parent idx child) store ps = Raise e -> e = KeyError)
  ∧ ((∃ s', foldM (add_parent idx child) store ps = Ok s')
     ↔ ∀ p, p ∈ ps -> is_Some (idx !! Some p)).
Proof.
  revert store. induction ps as [|p ps IH]; intros store; simpl.
  - split; [done|]. split; [by intros _ p ?%elem_of_nil|by eexists].
  - unfold add_parent at 1 3. destruct (idx !! Some p) as [parent|] eqn:Hp; simpl.
    + destruct (IH (append_parent store child
                      (reference.Build (Some PREFIX) (Some p) (term_name store parent))))
        as [Hraise Hok].
      split; [done|]. rewrite Hok. split.
      * intros H q [->|Hq]%elem_of_cons; [by rewrite Hp|by apply H].
      * intros H q Hq. apply H. by right.
    + split; [by intros e [= <-]|]. split; [by intros [? ?]|].
      intros H. destruct (H p) as [? Hs]; [left|]. by rewrite Hp in Hs.
Qed.

Lemma add_parents_loop_result (idx : gmap (option string) nat)
    (items : dict string (list string)) (store : list struct.Term) :
  (∀ e, foldM (add_parents idx) store items = Raise e -> e = KeyError)
  ∧ ((∃ s', foldM (add_parents idx) store items = Ok s')
     ↔ ∀ k ps, (k, ps) ∈ items ->
               is_Some (idx !! Some k) ∧ ∀ p, p ∈ ps -> is_Some (idx !! Some p)).
Proof.
  revert store. induction items as [|[k ps] items IH]; intros store; simpl.
  - split; [done|]. split; [by intros _ k ps ?%elem_of_nil|by eexists].
  - destruct (idx !! Some k) as [child|] eqn:Hk; simpl.
    + destruct (add_parent_loop_result idx child ps store) as [Hraise Hok].
      destruct (foldM (add_parent idx child) store ps) as [store1|e1] eqn:Hin; simpl.
      * destruct (IH store1) as [Hraise' Hok']. split; [done|]. rewrite Hok'.
        split.
        -- intros H k' ps' [[= -> ->]|Hin']%elem_of_cons; [|by apply H].
           split; [by rewrite Hk|]. apply Hok. by eexists.
        -- intros H k' ps' Hin'. apply H. by right.
      * split; [intros e [= <-]; by apply Hraise|].
        split; [by intros [? ?]|]. intros H.
        destruct (proj2 Hok) as [? ?]; [|done].
        apply (H k ps). left.
    + split; [by intros e [= <-]|]. split; [by intros [? ?]|].
      intros H. destruct (H k ps) as [[? Hs] _]; [left|]. by rewrite Hk in Hs.
Qed.

Lemma get_terms_appended (terms : list struct.Term)
    (hierarchy : dict string (list string)) (out : list struct.Term) :
  get_terms terms hierarchy = Ok out ->
  length out = length terms
  ∧ ∀ i t, terms !! i = Some t ->
           out !! i = Some (struct.set_parents t
                              (struct.parents t ++ appended_parents terms hierarchy i)).
Proof.
  intros Hext%get_terms_extends. split.
  - by apply (lookup_fmap_length
                (fun i t => struct.set_parents t
                              (struct.parents t ++ appended_parents terms hierarchy i))).
  - intros i t Ht. by rewrite (Hext i), Ht.
Qed.

(** What the loop appends to the parents of the term at a position. *)
Lemma appended_parents_cases (terms : list struct.Term)
    (hierarchy : dict string (list string)) (i : nat) (t : struct.Term) :
  dict_wf hierarchy -> terms !! i = Some t ->
  ((∃ j t', i < j ∧ terms !! j = Some t'
            ∧ struct.identifier t' = struct.identifier t) ->
   appended_parents terms hierarchy i = [])
  ∧ (struct.identifier t = None -> appended_parents terms hierarchy i = [])
  ∧ (∀ c, struct.identifier t = Some c ->
          (∀ j t', i < j -> terms !! j = Some t' -> struct.identifier t' ≠ Some c) ->
          appended_parents terms hierarchy i
          = map (named_reference terms) (option.default [] (dict_get hierarchy c))).
Proof.
  intros Hwf Ht. split; [|split].
  - intros (j & t' & Hlt & Hj & Hid). apply appended_parents_nil.
    intros k (t0 & Ht0 & Hid0 & Hlast)%index_terms_lookup.
    apply (Hlast j t' Hlt Hj). congruence.
  - intros Hid. apply appended_parents_nil.
    intros k (t0 & Ht0 & Hid0 & _)%index_terms_lookup. congruence.
  - intros c Hid Hlast.
    rewrite (appended_parents_wf terms hierarchy i c Hwf
               (index_terms_last terms c i t Ht Hid Hlast)).
    apply map_ext. intros k. apply group_reference_named.
Qed.

(** X26. The hierarchy maps every child to its parents in the order of the
    rows, and has a key exactly for the identifiers that occur as a
    child; its keys are pairwise distinct. *)
Theorem get_hierarchy_parents (rows : list (string * string)) (c : string) :
  dict_wf (get_hierarchy rows)
  ∧ (is_Some (dict_get (get_hierarchy rows) c) ↔ ∃ p, (p, c) ∈ rows)
  ∧ option.default [] (dict_get (get_hierarchy rows) c)
    = (filter (fun r : string * string => r.2 = c) rows).*1.
Proof.
  destruct (get_hierarchy_fold rows []) as [Hwf Hget]; [apply NoDup_nil_2|].
  split; [exact Hwf|]. destruct (Hget c) as [Hsome Hval]. split.
  - unfold get_hierarchy. rewrite Hsome. simpl. split; [|by right].
    intros [[? ?]|?]; done.
  - exact Hval.
Qed.

(** X27. The list returned for the gene groups has the terms it was
    given, in the same order, each with references appended to its
    parents and nothing else changed.  The term that is the last one
    with its identifier gets one reference per parent that the
    hierarchy lists for that identifier, in order, each named after the
    last term with the parent's identifier; a term followed by another
    one with the same identifier is returned unchanged. *)
Theorem hgnc_get_terms_parents (terms : list struct.Term)
    (hierarchy : dict string (list string)) (out : list struct.Term) :
  dict_wf hierarchy ->
  get_terms terms hierarchy = Ok out ->
  length out = length terms
  ∧ ∀ i t, terms !! i = Some t ->
      ((∃ j t', i < j ∧ terms !! j = Some t'
                ∧ struct.identifier t' = struct.identifier t) ->
       out !! i = Some t)
      ∧ (∀ c, struct.identifier t = Some c ->
              (∀ j t', i < j -> terms !! j = Some t' ->
                       struct.identifier t' ≠ Some c) ->
              out !! i
              = Some (struct.set_parents t
                        (struct.parents t
                         ++ map (fun p => reference.Build (Some PREFIX) (Some p)
                                            (last_with terms p ≫= fun parent =>
                                             reference.name (struct.reference parent)))
                                (option.default [] (dict_get hierarchy c))))).
Proof.
  intros Hwf [Hlen Hout]%get_terms_appended. split; [exact Hlen|].
  intros i t Ht. rewrite (Hout i t Ht).
  destruct (appended_parents_cases terms hierarchy i t Hwf Ht) as (Hshadow & _ & Hlast).
  split.
  - intros Hsh. by rewrite (Hshadow Hsh), set_parents_app_nil.
  - intros c Hid Hl. by rewrite (Hlast c Hid Hl).
Qed.

(** X28. The pass over the hierarchy can only fail with [KeyError], and it
    returns exactly when every child and every parent of the hierarchy
    is the identifier of some term. *)
Theorem hgnc_get_terms_key_error (terms : list struct.Term)
    (hierarchy : dict string (list string)) :
  (∀ e, get_terms terms hierarchy = Raise e -> e = KeyError)
  ∧ ((∃ out, get_terms terms hierarchy = Ok out)
     ↔ ∀ k ps, (k, ps) ∈ hierarchy ->
               (∃ t, t ∈ terms ∧ struct.identifier t = Some k)
               ∧ ∀ p, p ∈ ps -> ∃ t, t ∈ terms ∧ struct.identifier t = Some p).
Proof.
  destruct (add_parents_loop_result (index_terms terms) hierarchy terms)
    as [Hraise Hok].
  split; [exact Hraise|]. unfold get_terms. rewrite Hok. split.
  - intros H k ps Hin. destruct (H k ps Hin) as [Hk Hps]. split.
    + by apply index_terms_is_Some.
    + intros p Hp. by apply index_terms_is_Some, Hps.
  - intros H k ps Hin. destruct (H k ps Hin) as [Hk Hps]. split.
    + by apply index_terms_is_Some.
    + intros p Hp. by apply index_terms_is_Some, Hps.
Qed.

(** X29. With the hierarchy read from the rows of the table, the term that
    is the last one with its identifier gets, after its own parents,
    one reference for every row in which it is the child, in the order
    of the rows. *)
Theorem hgnc_get_terms_of_rows (terms : list struct.Term)
    (rows : list (string * string)) (out : list struct.Term) (i : nat)
    (t : struct.Term) (c : string) :
  get_terms terms (get_hierarchy rows) = Ok out ->
  terms !! i = Some t -> struct.identifier t = Some c ->
  (∀ j t', i < j -> terms !! j = Some t' -> struct.identifier t' ≠ Some c) ->
  struct.parents <$> out !! i
  = Some (struct.parents t
          ++ map (named_reference terms)
                 (filter (fun r : string * string => r.2 = c) rows).*1).
Proof.
  intros [_ Hout]%get_terms_appended Ht Hid Hlast.
  destruct (get_hierarchy_fold rows []) as [Hwf Hget]; [apply NoDup_nil_2|].
  destruct (appended_parents_cases terms (get_hierarchy rows) i t Hwf Ht)
    as (_ & _ & Hl).
  rewrite (Hout i t Ht), (Hl c Hid Hlast). simpl.
  destruct (Hget c) as [_ Hval]. unfold get_hierarchy. by rewrite Hval.
Qed.

End hgnc_results.

(** ** Runs of the statements about the HGNC gene groups *)

(** Run of [hgnc_get_terms_parents]: the first term is followed by another
    one with the identifier [1] and is returned as it was; the third
    term is the last one with that identifier and gets the parent [2]. *)
Lemma hgnc_get_terms_parents_witness :
  hgnc_examples.returned !! 0 = hgnc_examples.terms !! 0
  ∧ struct.parents <$> hgnc_examples.returned !! 2
    = Some [reference.Ref hgncgenefamily.PREFIX "2" "Kinases"].
Proof.
  destruct (hgnc_get_terms_parents hgnc_examples.terms
              (hgncgenefamily.get_hierarchy hgnc_examples.hierarchy_rows)
              hgnc_examples.returned) as [_ Hall].
  - by vm_compute; repeat constructor; rewrite ?elem_of_cons, ?elem_of_nil; intuition discriminate.
  - by vm_compute.
  - split.
    + destruct (Hall 0 _ eq_refl) as [Hshadow _]. apply Hshadow.
      exists 2. eexists. split; [lia|]. split; reflexivity.
    + destruct (Hall 2 _ eq_refl) as [_ Hlast].
      rewrite (Hlast "1" eq_refl); [reflexivity|].
      intros [|[|[|[|j]]]] t' Hlt Hj; try lia; simpl in Hj; [|done].
      by injection Hj as <-.
Defined.

(** Run of [hgnc_get_terms_key_error]: the rows of the example name
    identifiers of terms only, and the pass returns; a hierarchy with a
    parent that no term carries does not. *)
Lemma hgnc_get_terms_key_error_witness :
  (∃ out, hgncgenefamily.get_terms hgnc_examples.terms
            (hgncgenefamily.get_hierarchy hgnc_examples.hierarchy_rows) = Ok out)
  ∧ ¬ ∃ out, hgncgenefamily.get_terms hgnc_examples.terms [("3", ["9"])] = Ok out.
Proof.
  split.
  - apply (proj2 (hgnc_get_terms_key_error hgnc_examples.terms
                    (hgncgenefamily.get_hierarchy hgnc_examples.hierarchy_rows))).
    intros k ps Hin. vm_compute in Hin.
    repeat (apply elem_of_cons in Hin as [[= -> ->]|Hin]);
      [..|by apply elem_of_nil in Hin].
    + split; [eexists; split; [apply (list_elem_of_lookup_2 _ 3)|]; reflexivity|].
      intros p Hp.
      repeat (apply elem_of_cons in Hp as [->|Hp]); [..|by apply elem_of_nil in Hp].
      * eexists; split; [apply (list_elem_of_lookup_2 _ 0)|]; reflexivity.
      * eexists; split; [apply (list_elem_of_lookup_2 _ 1)|]; reflexivity.
    + split; [eexists; split; [apply (list_elem_of_lookup_2 _ 0)|]; reflexivity|].
      intros p Hp.
      repeat (apply elem_of_cons in Hp as [->|Hp]); [..|by apply elem_of_nil in Hp].
      eexists; split; [apply (list_elem_of_lookup_2 _ 1)|]; reflexivity.
  - intros Hok.
    pose proof (proj1 (proj2 (hgnc_get_terms_key_error hgnc_examples.terms
                                [("3", ["9"])])) Hok) as Hall.
    destruct (Hall "3" ["9"]) as [_ Hps]; [left|].
    destruct (Hps "9") as (t & Ht & Hid); [left|].
    repeat (apply elem_of_cons in Ht as [->|Ht]; [discriminate Hid|]).
    by apply elem_of_nil in Ht.
Defined.

(** Run of [hgnc_get_terms_of_rows]: the fourth term is the child in two
    rows and gets the two parents, the first of them named after the
    last term with the identifier [1]. *)
Lemma hgnc_get_terms_of_rows_witness :
  struct.parents <$> hgnc_examples.returned !! 3
  = Some [ reference.Ref hgncgenefamily.PREFIX "1" "Receptors";
           reference.Ref hgncgenefamily.PREFIX "2" "Kinases" ].
Proof.
  rewrite (hgnc_get_terms_of_rows hgnc_examples.terms hgnc_examples.hierarchy_rows
             hgnc_examples.returned 3
             (struct.from_triple hgncgenefamily.PREFIX "3" "Receptor kinases") "3");
    [reflexivity|by vm_compute|reflexivity..|].
  intros [|[|[|[|j]]]] t' Hlt Hj; try lia; by simpl in Hj.
Defined.
